(** * mela-tools: the record, DNF, PAR and MSB codecs

    A shallow embedding of [melatools/record.py], [melatools/var.py],
    [melatools/par.py], [melatools/rsd.py] and [melatools/msb.py], with the
    properties of the codecs stated over it.

    Python values are dynamically typed.  Numbers are kept as the source has
    them: an [int] is an unbounded integer, a [float] is an IEEE 754 binary64
    value (Rocq's primitive floats).  Raised exceptions are the [Err] side of
    a result type. *)

From Stdlib Require Import ZArith Lia Bool List String Ascii Floats.
From Stdlib Require DecimalString.
From Equations Require Import Equations.
From Equations.Prop Require Import Logic.
From stdpp Require Import base option list gmap.

Local Open Scope Z_scope.

(** ** Exceptions and the error monad *)

Inductive exn :=
| ValueError | TypeError | KeyError | IndexError | OverflowError
| AttributeError | StructError | MsbError | MsbEof | ParError.

Inductive result (A : Type) :=
| Ok (a : A)
| Err (e : exn).
Arguments Ok {A} a.
Arguments Err {A} e.

Definition result_bind {A B} (f : A -> result B) (m : result A) : result B :=
  match m with
  | Ok a => f a
  | Err e => Err e
  end.

#[global] Instance result_ret : MRet result := fun A a => Ok a.
#[global] Instance result_mbind : MBind result := fun A B f m => result_bind f m.

Definition is_ok {A} (m : result A) : bool :=
  match m with Ok _ => true | Err _ => false end.

(** Inversion of a successful bind. *)
Ltac inv_bind H :=
  match type of H with
  | (?m ≫= _) = Ok _ =>
      let E := fresh "E" in
      let x := fresh "x" in
      destruct m as [x|] eqn:E;
      [ repeat match goal with p : (_ * _)%type |- _ => destruct p end;
        cbn [mbind result_mbind result_bind] in H
      | discriminate H ]
  end.

Ltac inv_binds :=
  repeat match goal with
         | H : (_ ≫= _) = Ok _ |- _ => inv_bind H
         end.

(** ** Python numbers *)

Inductive num :=
| PInt (z : Z)
| PFloat (f : float).

(** [int(f)] on the specification of a float: truncation towards zero.
    [nan] raises [ValueError], an infinity raises [OverflowError]. *)
Definition sf_trunc (x : spec_float) : result Z :=
  match x with
  | S754_zero _ => Ok 0
  | S754_infinity _ => Err OverflowError
  | S754_nan => Err ValueError
  | S754_finite s m e =>
      Ok (cond_Zopp s (if 0 <=? e then Z.shiftl (Zpos m) e
                       else Z.shiftr (Zpos m) (- e)))
  end.

(** [int(x)] *)
Definition py_int (x : num) : result Z :=
  match x with
  | PInt z => Ok z
  | PFloat f => sf_trunc (Prim2SF f)
  end.

(** [float(x)]: an int is rounded to the nearest binary64 value, and one out
    of range raises [OverflowError]. *)
Definition float_of_Z (z : Z) : result float :=
  match binary_normalize prec emax z 0 false with
  | S754_infinity _ => Err OverflowError
  | sf => Ok (SF2Prim sf)
  end.

Definition py_float (x : num) : result float :=
  match x with
  | PInt z => float_of_Z z
  | PFloat f => Ok f
  end.

(** [f == z] for a float and an int: Python compares the exact values. *)
Definition sf_eqb_Z (x : spec_float) (z : Z) : bool :=
  match x with
  | S754_zero _ => z =? 0
  | S754_infinity _ | S754_nan => false
  | S754_finite s m e =>
      if 0 <=? e then cond_Zopp s (Z.shiftl (Zpos m) e) =? z
      else (Z.land (Zpos m) (Z.ones (- e)) =? 0)
           && (cond_Zopp s (Z.shiftr (Zpos m) (- e)) =? z)
  end.

(** [x == y] *)
Definition num_eqb (x y : num) : bool :=
  match x, y with
  | PInt a, PInt b => a =? b
  | PFloat a, PFloat b => PrimFloat.eqb a b
  | PFloat a, PInt b => sf_eqb_Z (Prim2SF a) b
  | PInt a, PFloat b => sf_eqb_Z (Prim2SF b) a
  end.

(** [x < 0] *)
Definition num_ltb0 (x : num) : bool :=
  match x with
  | PInt z => z <? 0
  | PFloat f => PrimFloat.ltb f 0%float
  end.

(** [0 < x] *)
Definition num_gtb0 (x : num) : bool :=
  match x with
  | PInt z => 0 <? z
  | PFloat f => PrimFloat.ltb 0%float f
  end.

(** [-x] *)
Definition num_opp (x : num) : num :=
  match x with
  | PInt z => PInt (- z)
  | PFloat f => PFloat (- f)%float
  end.

(** [math.isfinite(x)] *)
Definition isfinite (x : num) : result bool :=
  f ← py_float x;
  Ok (match Prim2SF f with
      | S754_zero _ | S754_finite _ _ _ => true
      | _ => false
      end).

(** ** [record.py]: float streams and the declarative fields *)

(** The value of a record attribute: [None], a [bool] or a number. *)
Inductive pyval :=
| VNone
| VBool (b : bool)
| VNum (n : num).

(** A [bool] is an [int] in Python. *)
Definition pyval_num (v : pyval) : result num :=
  match v with
  | VNone => Err TypeError
  | VBool b => Ok (PInt (if b then 1 else 0))
  | VNum n => Ok n
  end.

(** Truth value, as [v and 1 or 0] tests it. *)
Definition truthy (v : pyval) : bool :=
  match v with
  | VNone => false
  | VBool b => b
  | VNum (PInt z) => negb (z =? 0)
  | VNum (PFloat f) => negb (PrimFloat.eqb f 0%float)
  end.

(** [v != c] for an attribute value [v] and a number [c]; [None] differs
    from every number. *)
Definition pyval_neb (v : pyval) (c : num) : bool :=
  match pyval_num v with
  | Ok n => negb (num_eqb n c)
  | Err _ => true
  end.

Module FpStream.

(** [FpStream.buf] *)
Definition t := list num.

(** [FpStream.next] *)
Definition next (peek : bool) (buf : t) : result (num * t) :=
  match buf with
  | v :: rest => Ok (v, if peek then buf else rest)
  | [] => Err ValueError
  end.

(** [FpStream.nextint] *)
Definition nextint (peek : bool) (buf : t) : result (Z * t) :=
  '(f, buf') ← next peek buf;
  i ← py_int f;
  if negb (num_eqb f (PInt i)) then Err ValueError else Ok (i, buf').

(** [FpStream.write]: the value is converted with [float(f)]. *)
Definition write (f : pyval) (buf : t) : result t :=
  n ← pyval_num f;
  x ← py_float n;
  Ok (buf ++ [PFloat x]).

(** [FpStream.writebuf] *)
Definition writebuf (more : list num) (buf : t) : t := buf ++ more.

End FpStream.

(** The field kinds.  No schema of the repository passes [default] or
    [ignore] to a constructor, so a field has its class's values: [default]
    is [None] everywhere.  An enumeration is the list of its members'
    values. *)
Inductive Field :=
| Value
| IntValue
| BoolValue
| EnumValue (enum : list Z)
| Constant (v : num)
| AnyReserved
| Optional (field : Field).

(** [Field.ignore] *)
Fixpoint ignore (f : Field) : bool :=
  match f with
  | AnyReserved | Constant _ => true
  | Optional field => ignore field
  | _ => false
  end.

(** [enum(x)]: the member whose value equals [x], [ValueError] without one. *)
Definition enum_call (enum : list Z) (x : num) : result pyval :=
  match List.find (fun z => num_eqb x (PInt z)) enum with
  | Some z => Ok (VNum (PInt z))
  | None => Err ValueError
  end.

(** [Field.decode] of each kind; a method that returns nothing gives
    [VNone]. *)
Fixpoint decode (f : Field) (stream : FpStream.t) : result (pyval * FpStream.t) :=
  match f with
  | Optional field =>
      '(x, _) ← FpStream.next true stream;
      if num_eqb x (PInt 0) then
        '(_, stream') ← FpStream.next false stream;
        Ok (VNone, stream')
      else decode field stream
  | AnyReserved =>
      '(_, stream') ← FpStream.next false stream;
      Ok (VNone, stream')
  | Constant c =>
      '(v, stream') ← FpStream.next false stream;
      if negb (num_eqb v c) then Err ValueError else Ok (VNone, stream')
  | Value =>
      '(v, stream') ← FpStream.next false stream;
      Ok (VNum v, stream')
  | IntValue =>
      '(i, stream') ← FpStream.nextint false stream;
      Ok (VNum (PInt i), stream')
  | BoolValue =>
      '(v, stream') ← FpStream.next false stream;
      Ok (VBool (num_eqb v (PInt 1)), stream')
  | EnumValue enum =>
      '(v, stream') ← FpStream.next false stream;
      m ← enum_call enum v;
      Ok (m, stream')
  end.

(** [Field.encode] of each kind. *)
Fixpoint encode (f : Field) (stream : FpStream.t) (v : pyval) : result FpStream.t :=
  match f with
  | Optional field =>
      match v with
      | VNone => FpStream.write (VNum (PInt 0)) stream
      | _ => encode field stream v
      end
  | AnyReserved => FpStream.write (VNum (PInt 0)) stream
  | Constant c =>
      match v with
      | VNone => FpStream.write (VNum c) stream
      | _ => if pyval_neb v c then Err ValueError
             else FpStream.write (VNum c) stream
      end
  | Value | IntValue | EnumValue _ => FpStream.write v stream
  | BoolValue =>
      FpStream.write (VNum (PInt (if truthy v then 1 else 0))) stream
  end.

(** Python slicing: an index below zero counts from the end, and every index
    is clamped to the list. *)
Definition slice_index (len i : Z) : nat :=
  Z.to_nat (Z.min len (Z.max 0 (if i <? 0 then i + len else i))).

(** [l[i:]] *)
Definition slice_from {A} (i : Z) (l : list A) : list A :=
  drop (slice_index (Z.of_nat (length l)) i) l.

(** [l[:j]] *)
Definition slice_to {A} (j : Z) (l : list A) : list A :=
  take (slice_index (Z.of_nat (length l)) j) l.

(** [l[i:j]] *)
Definition slice {A} (i j : Z) (l : list A) : list A :=
  drop (slice_index (Z.of_nat (length l)) i)
       (take (slice_index (Z.of_nat (length l)) j) l).

Module Record.

(** [getattr(self, name, None)]: an attribute that was never set is the
    class attribute, the field's default [None]. *)
Definition getattr (r : gmap string pyval) (name : string) : pyval :=
  default VNone (r !! name).

(** [setattr(r, name, v)] *)
Definition setattr (r : gmap string pyval) (name : string) (v : pyval)
  : gmap string pyval :=
  <[name := v]> r.

(** The loop of [Record.encode]. *)
Fixpoint encode_fields (fields : list (string * Field))
    (r : gmap string pyval) (stream : FpStream.t) : result FpStream.t :=
  match fields with
  | [] => Ok stream
  | (name, f) :: rest =>
      stream' ← encode f stream (getattr r name);
      encode_fields rest r stream'
  end.

(** [Record.to_floats] *)
Definition to_floats (fields : list (string * Field))
    (r : gmap string pyval) : result (list num) :=
  encode_fields fields r [].

(** The loop of [Record.decode]: a failure of a field is raised again as
    [ValueError]; a decoded [None] sets nothing. *)
Fixpoint decode_fields (fields : list (string * Field))
    (r : gmap string pyval) (stream : FpStream.t)
  : result (gmap string pyval * FpStream.t) :=
  match fields with
  | [] => Ok (r, stream)
  | (name, f) :: rest =>
      match decode f stream with
      | Err _ => Err ValueError
      | Ok (v, stream') =>
          decode_fields rest
            (match v with VNone => r | _ => setattr r name v end) stream'
      end
  end.

(** [Record.decode(stream, fields)]: [fields or r.fields], so an empty
    prefix selects the whole schema. *)
Definition decode (cls_fields : list (string * Field))
    (fields : option (list (string * Field))) (stream : FpStream.t)
  : result (gmap string pyval * FpStream.t) :=
  decode_fields
    (match fields with
     | Some ((_ :: _) as fs) => fs
     | _ => cls_fields
     end) ∅ stream.

(** [Record.visible_fields] *)
Definition visible_fields (fields : list (string * Field))
  : list (string * Field) :=
  filter (fun nf => negb (ignore nf.2) = true) fields.

(** [Record.from_floats(args, fields)] *)
Definition from_floats (cls_fields : list (string * Field))
    (fields : option (list (string * Field))) (args : list num)
  : result (gmap string pyval) :=
  '(r, _) ← decode cls_fields fields args; Ok r.

(** [Record.to_json]: the visible attributes that are not [None], as a
    JSON object. *)
Definition to_json (fields : list (string * Field))
    (r : gmap string pyval) : gmap string pyval :=
  foldl (fun d nf => match getattr r nf.1 with
                     | VNone => d
                     | v => <[nf.1 := v]> d
                     end) ∅ (visible_fields fields).

(** [Record.from_json(d)]: the members of [d] that are named after a
    field. *)
Definition from_json (fields : list (string * Field))
    (d : gmap string pyval) : gmap string pyval :=
  foldl (fun r nf => match d !! nf.1 with
                     | Some v => setattr r nf.1 v
                     | None => r
                     end) ∅ fields.

End Record.

(** ** [rsd.py]: sample plots and trees *)

Module Rsd.

Local Open Scope string_scope.
Local Open Scope list_scope.

(** [RsdSamplePlot.fields] *)
Definition RsdSamplePlot_fields : list (string * Field) :=
  [ ("id", IntValue); ("year", IntValue); ("area", Value);
    ("area_weight", Value); ("X", Value); ("Y", Value);
    ("stand_id", Optional Value); ("height", Value); ("dd", Value);
    ("owner_category", IntValue); ("land_use_category", IntValue);
    ("soil_category", IntValue); ("site_type_category", IntValue);
    ("taxation_class", IntValue); ("fftcsfc", IntValue);
    ("drainage_category", IntValue); ("drainage_feasibility", IntValue);
    ("_18", Constant (PInt 0)); ("last_drainage_year", IntValue);
    ("last_fertilization_year", IntValue); ("last_ssp_year", IntValue);
    ("natural_regen_feasibility", IntValue);
    ("last_cleaning_year", IntValue);
    ("development_class", Optional Value);
    ("last_artif_regen_year", IntValue);
    ("last_tending_young_year", IntValue); ("last_pruning_year", IntValue);
    ("last_cutting_year", IntValue); ("forestry_center", IntValue);
    ("management_category", IntValue); ("last_cutting_method", IntValue);
    ("municipality", IntValue); ("_33", AnyReserved);
    ("_34", AnyReserved) ].

(** [RsdTree.fields] *)
Definition RsdTree_fields : list (string * Field) :=
  [ ("f", Value); ("spe", IntValue); ("d", Value); ("h", Value);
    ("age", Value); ("bio_age", Value); ("rmswl", Optional Value);
    ("prune_year", Optional Value); ("age_13_10", Optional Value);
    ("origin", Optional IntValue); ("sample_id", Optional IntValue);
    ("orig_angle", Optional Value); ("orig_dist", Optional Value);
    ("orig_hdif", Optional Value); ("h_low_branch", Optional Value);
    ("management_category", Optional IntValue); ("_17", AnyReserved) ].

(** [RsdInitialDataRecord], whose [record_type] is the class constant 1. *)
Record RsdInitialDataRecord := {
  plot : gmap string pyval;
  trees : list (gmap string pyval)
}.

Definition record_type : Z := 1.

(** The floats of all trees, in order. *)
Fixpoint trees_to_floats (ts : list (gmap string pyval))
  : result (list num) :=
  match ts with
  | [] => Ok []
  | t :: rest =>
      fs ← Record.to_floats RsdTree_fields t;
      more ← trees_to_floats rest;
      Ok (fs ++ more)
  end.

(** [RsdInitialDataRecord.to_floats] *)
Definition to_floats (r : RsdInitialDataRecord) : result (list num) :=
  p ← Record.to_floats RsdSamplePlot_fields (plot r);
  ts ← trees_to_floats (trees r);
  Ok (PInt (Z.of_nat (length RsdSamplePlot_fields)) :: p
      ++ PInt (Z.of_nat (length (trees r)))
      :: PInt (Z.of_nat (length RsdTree_fields)) :: ts).

(** The comprehension over [range(nt)]. *)
Fixpoint decode_trees (nt : nat) (fields : list (string * Field))
    (stream : FpStream.t)
  : result (list (gmap string pyval) * FpStream.t) :=
  match nt with
  | O => Ok ([], stream)
  | S k =>
      '(t, stream') ← Record.decode RsdTree_fields (Some fields) stream;
      '(ts, stream'') ← decode_trees k fields stream';
      Ok (t :: ts, stream'')
  end.

(** [RsdInitialDataRecord.from_floats] *)
Definition from_floats (buf : list num) : result RsdInitialDataRecord :=
  '(nv, stream) ← FpStream.nextint false buf;
  if (Z.of_nat (length RsdSamplePlot_fields) <? nv)%Z then Err ValueError
  else
    '(p, stream) ← Record.decode RsdSamplePlot_fields
                     (Some (slice_to nv RsdSamplePlot_fields)) stream;
    '(nt, stream) ← FpStream.nextint false stream;
    '(ntv, stream) ← FpStream.nextint false stream;
    '(ts, _) ← decode_trees (Z.to_nat nt) (slice_to ntv RsdTree_fields) stream;
    Ok {| plot := p; trees := ts |}.

End Rsd.

(** ** [var.py]: variables *)

Record Var := { id : Z; name : string }.

(** [str(x)] of an int. *)
Definition str_int (x : Z) : string :=
  DecimalString.NilZero.string_of_int (Z.to_int x).

(** [get_var(x)] on an int, as [DNFCondition.from_floats] calls it: the
    lookup is a stub that names variable [x] after its number. *)
Definition get_var (x : Z) : Var :=
  {| id := x; name := String.append "var" (str_int x) |}.

(** ** [par.py]: conditions in disjunctive normal form *)

(** A value of a constraint: a number, or a pair [(low, high)]. *)
Inductive term :=
| Lit (v : num)
| Range (low high : num).

Record Constraint := { var : Var; values : list term }.

Module Constraint.

(** The floats of the values: a literal as it is, a range as its low bound
    and its negated high bound. *)
Fixpoint terms_floats (vs : list term) : list num :=
  match vs with
  | [] => []
  | Lit c :: rest => c :: terms_floats rest
  | Range lo hi :: rest => lo :: num_opp hi :: terms_floats rest
  end.

(** [Constraint.to_floats]: [[len(out), *out]] for
    [out = [var.id, terms...]]. *)
Definition to_floats (c : Constraint) : list num :=
  let out := PInt (id (var c)) :: terms_floats (values c) in
  PInt (Z.of_nat (length out)) :: out.

End Constraint.

Module DNFCondition.

(** [DNFCondition.groups] *)
Record t := { groups : list (list Constraint) }.

(** [[x for c in g for x in c.to_floats()]] *)
Definition group_floats (g : list Constraint) : list num :=
  concat (map Constraint.to_floats g).

(** The loop over [self.groups[1:]]. *)
Fixpoint more_groups (out : list num) (gs : list (list Constraint))
  : list num :=
  match gs with
  | [] => out
  | g :: rest => more_groups ((out ++ [PInt 0]) ++ group_floats g) rest
  end.

(** [DNFCondition.to_floats] *)
Definition to_floats (c : t) : list num :=
  match groups c with
  | [] => [PInt 0]
  | g0 :: rest => more_groups (group_floats g0) rest
  end.

(** The innermost loop of [from_floats]: the values of one constraint,
    told apart pairwise by the sign of the second float. *)
Fixpoint split_terms (cst : list num) : list term :=
  match cst with
  | [] => []
  | a :: rest =>
      match rest with
      | b :: rest' =>
          if num_ltb0 b then Range a (num_opp b) :: split_terms rest'
          else Lit a :: split_terms rest
      | [] => [Lit a]
      end
  end.

(** One definition, after its count [nv] was taken off [args]:
    [var, cst = int(args[0]), args[1:nv]]. *)
Definition read_constraint (nv : Z) (args : list num) : result Constraint :=
  match args with
  | [] => Err IndexError
  | v :: _ =>
      x ← py_int v;
      Ok {| var := get_var x; values := split_terms (slice 1 nv args) |}
  end.

(** [if group: groups.append(group)] *)
Definition close_group (groups : list (list Constraint))
    (group : list Constraint) : list (list Constraint) :=
  match group with
  | [] => groups
  | _ => groups ++ [group]
  end.

(** The two nested loops of [from_floats], as one loop over the state
    [(groups, group, args)]: a count of 0 leaves the inner loop, closes the
    group and starts the next one; the end of [args] leaves both. *)
Equations? loop (groups : list (list Constraint)) (group : list Constraint)
    (args : list num) : result (list (list Constraint))
    by wf (length args) lt :=
  loop groups group [] := Ok (close_group groups group);
  loop groups group (a :: args1) with py_int a => {
    | Err e := Err e
    | Ok nv with (nv =? 0) => {
        | true := loop (close_group groups group) [] args1
        | false with read_constraint nv args1 => {
            | Err e := Err e
            | Ok c := loop groups (group ++ [c]) (slice_from nv args1) } } }.
Proof.
  all: unfold slice_from; rewrite ?length_drop; simpl; lia.
Qed.

(** [DNFCondition.from_floats] *)
Definition from_floats (args : list num) : result t :=
  gs ← loop [] [] args;
  Ok {| groups := gs |}.

End DNFCondition.

(** ** [par.py]: the line-wrapping writer *)

Module ParWriter.

Local Open Scope string_scope.
Local Open Scope list_scope.
Local Open Scope Z_scope.

(** The [kind] keyword of [emit]: ["command"], ["string"], ["comment"]. *)
Inductive kind := Kcommand | Kstring | Kcomment.

(** ["\n"] *)
Definition nl : string := String "010"%char EmptyString.

(** [len(p)] *)
Definition len (p : string) : Z := Z.of_nat (String.length p).

(** The writer's [buf] and the locals of [emit]. *)
Record cursor := {
  buf : list string;
  line : list string;
  remain : Z;
  first : option string
}.

(** [if first: self.buf.append(first)]: [None] and the empty string are
    false. *)
Definition first_piece (first : option string) : list string :=
  match first with
  | None | Some EmptyString => []
  | Some f => [f]
  end.

(** The three statements that put the current line into [buf]. *)
Definition put_line (c : cursor) : list string :=
  ((buf c ++ first_piece (first c)) ++ line c) ++ [nl].

(** The locals before the loop. *)
Definition start (line_wrap : Z) (k : kind) (buf0 : list string) : cursor :=
  match k with
  | Kcommand =>
      {| buf := buf0; line := []; remain := line_wrap; first := None |}
  | Kstring =>
      {| buf := buf0; line := []; remain := line_wrap - 1;
         first := Some "#" |}
  | Kcomment =>
      {| buf := buf0; line := []; remain := line_wrap - 1;
         first := Some "*" |}
  end.

(** The marker of a continuation line and the columns it takes. *)
Definition cont_marker (k : kind) : string :=
  match k with
  | Kcommand => "    "
  | Kstring => "#>> "
  | Kcomment => "*"
  end.

Definition cont_cost (k : kind) : Z :=
  match k with
  | Kcommand => 4
  | Kstring => 4
  | Kcomment => 1
  end.

(** The test [remain - 1 - len(p) <= 0]. *)
Definition must_wrap (c : cursor) (p : string) : bool :=
  remain c - 1 - len p <=? 0.

(** The first half of the loop body: when the test holds, an empty line
    raises [ParError], any other line is put out and a continuation line
    is begun. *)
Definition wrap (line_wrap : Z) (k : kind) (c : cursor) (p : string)
  : result cursor :=
  if must_wrap c p then
    match line c with
    | [] => Err ParError
    | _ =>
        Ok {| buf := put_line c; line := [];
              remain := line_wrap - cont_cost k;
              first := Some (cont_marker k) |}
    end
  else Ok c.

(** The second half: a separating space after a token, then the token. *)
Definition add (c : cursor) (p : string) : cursor :=
  let c1 :=
    match line c with
    | [] => c
    | _ => {| buf := buf c; line := line c ++ [" "];
              remain := remain c - 1; first := first c |}
    end in
  {| buf := buf c1; line := line c1 ++ [p];
     remain := remain c1 - len p; first := first c1 |}.

(** One turn of the loop. *)
Definition step (line_wrap : Z) (k : kind) (c : cursor) (p : string)
  : result cursor :=
  c' ← wrap line_wrap k c p;
  Ok (add c' p).

(** The loop over the parameters, which [map(str, params)] has already
    turned into strings. *)
Fixpoint run (line_wrap : Z) (k : kind) (c : cursor) (params : list string)
  : result cursor :=
  match params with
  | [] => Ok c
  | p :: rest =>
      c' ← step line_wrap k c p;
      run line_wrap k c' rest
  end.

(** [ParWriter.emit]: the new [buf]. *)
Definition emit (line_wrap : Z) (k : kind) (params : list string)
    (buf0 : list string) : result (list string) :=
  c ← run line_wrap k (start line_wrap k buf0) params;
  Ok (match line c with
      | [] => buf c
      | _ => put_line c
      end).


Definition string_ (line_wrap : Z) (s : list string) (buf0 : list string)
  : result (list string) :=
  emit line_wrap Kstring s buf0.

Definition comment (line_wrap : Z) (s : list string) (buf0 : list string)
  : result (list string) :=
  emit line_wrap Kcomment s buf0.

(** [ParWriter.newline] *)
Definition newline (buf0 : list string) : list string := buf0 ++ [nl].


(** The columns of the current line as it would be put out: its marker
    and its pieces. *)
Definition columns (c : cursor) : Z :=
  len (String.concat "" (first_piece (first c) ++ line c)).

End ParWriter.

(** ** [par.py]: events and the linking pass *)

(** The [id] of an event: the int of an [Event], or the class attribute
    ["default"] of [EventDefaults]. *)
Inductive event_id :=
| IdNum (n : Z)
| IdDefault.

#[global] Instance event_id_eq_dec : EqDecision event_id.
Proof. solve_decision. Defined.

#[global] Instance event_id_countable : Countable event_id.
Proof.
  refine (inj_countable'
            (fun i => match i with IdNum n => Some n | IdDefault => None end)
            (fun o => match o with Some n => IdNum n | None => IdDefault end)
            _).
  intros []; reflexivity.
Defined.

(** An element of [comparable_events] or [feasible_precedessors].  Events
    are objects shared through [par.events], and may refer to each other in
    a cycle: a reference to the event object stored under [eid] is
    [LinkEvent eid], an [EventRef(eid)] object is [EventRef eid]. *)
Inductive link :=
| LinkEvent (eid : event_id)
| EventRef (eid : event_id).

Record RoutineCall := { routine : num; args : list num }.

Module RoutineCall.

(** [RoutineCall.to_floats] *)
Definition to_floats (c : RoutineCall) : list num :=
  routine c :: PInt 1 :: args c.

(** [RoutineCall.from_floats]: [args[0]] raises [IndexError] on an empty
    list; [args[2:]] is a slice. *)
Definition from_floats (xs : list num) : result RoutineCall :=
  match xs with
  | [] => Err IndexError
  | r :: _ => Ok {| routine := r; args := slice_from 2 xs |}
  end.

End RoutineCall.

(** The attributes that [EventMixin.__init__] sets. *)
Record EventMixin := {
  years : option (list num);
  probability : option (list num);
  branching : option (list num);
  condition : option DNFCondition.t;
  min_intervals : option (list num);
  comparable_events : option (list link);
  feasible_precedessors : option (list link);
  repeat_interval : option num
}.

(** [EventMixin.__init__] *)
Definition EventMixin_init : EventMixin :=
  {| years := None; probability := None; branching := None;
     condition := None; min_intervals := None; comparable_events := None;
     feasible_precedessors := None; repeat_interval := None |}.

(** The two classes of events. *)
Inductive event :=
| Event (id : Z) (name : string) (calls : list RoutineCall) (m : EventMixin)
| EventDefaults (m : EventMixin).

(** [ev.id] *)
Definition event_ident (ev : event) : event_id :=
  match ev with
  | Event id _ _ _ => IdNum id
  | EventDefaults _ => IdDefault
  end.

Definition mixin (ev : event) : EventMixin :=
  match ev with
  | Event _ _ _ m => m
  | EventDefaults m => m
  end.

(** [ev.comparable_events = l] *)
Definition set_comparable_events (ev : event) (l : list link) : event :=
  let upd m :=
    {| years := years m; probability := probability m;
       branching := branching m; condition := condition m;
       min_intervals := min_intervals m; comparable_events := Some l;
       feasible_precedessors := feasible_precedessors m;
       repeat_interval := repeat_interval m |} in
  match ev with
  | Event id name calls m => Event id name calls (upd m)
  | EventDefaults m => EventDefaults (upd m)
  end.

(** [ev.feasible_precedessors = l] *)
Definition set_feasible_precedessors (ev : event) (l : list link) : event :=
  let upd m :=
    {| years := years m; probability := probability m;
       branching := branching m; condition := condition m;
       min_intervals := min_intervals m;
       comparable_events := comparable_events m;
       feasible_precedessors := Some l;
       repeat_interval := repeat_interval m |} in
  match ev with
  | Event id name calls m => Event id name calls (upd m)
  | EventDefaults m => EventDefaults (upd m)
  end.

Module Par.

(** [Par]; [output] and [control] are records of the field framework. *)
Record t := {
  events : gmap event_id event;
  includes : list string;
  years : option (list num);
  output : option (gmap string pyval);
  control : option (gmap string pyval)
}.

(** [Par.__init__] *)
Definition init : t :=
  {| events := ∅; includes := []; years := None; output := None;
     control := None |}.

Definition with_events (par : t) (evs : gmap event_id event) : t :=
  {| events := evs; includes := includes par; years := years par;
     output := output par; control := control par |}.

(** [Par.add_event] *)
Definition add_event (par : t) (ev : event) : result t :=
  match events par !! event_ident ev with
  | Some _ => Err ParError
  | None => Ok (with_events par (<[event_ident ev := ev]> (events par)))
  end.

End Par.

Module ParEventLinks.

(** The two [defaultdict(list)] tables, from the id of an event to the
    ids it names. *)
Record t := {
  comparable : gmap event_id (list event_id);
  precedessors : gmap event_id (list event_id)
}.

(** [par.events[eid]]: a missing key raises [KeyError]. *)
Definition getitem (evs : gmap event_id event) (eid : event_id)
  : result event :=
  match evs !! eid with
  | Some ev => Ok ev
  | None => Err KeyError
  end.

(** [par.events[eid] if eid in par.events else EventRef(eid)] *)
Definition resolve (evs : gmap event_id event) (eid : event_id)
  : result link :=
  if bool_decide (is_Some (evs !! eid)) then
    _ ← getitem evs eid; Ok (LinkEvent eid)
  else Ok (EventRef eid).

(** The list comprehension over the ids. *)
Fixpoint resolve_all (evs : gmap event_id event) (ids : list event_id)
  : result (list link) :=
  match ids with
  | [] => Ok []
  | eid :: rest =>
      l ← resolve evs eid;
      ls ← resolve_all evs rest;
      Ok (l :: ls)
  end.

(** The body of either loop, for one item of the table; [set] is the
    attribute assignment. *)
Definition link_one (set : event -> list link -> event) (par : Par.t)
    (item : event_id * list event_id) : result Par.t :=
  let '(id, ids) := item in
  if bool_decide (is_Some (Par.events par !! id)) then
    ls ← resolve_all (Par.events par) ids;
    ev ← getitem (Par.events par) id;
    Ok (Par.with_events par (<[id := set ev ls]> (Par.events par)))
  else Ok par.

(** A loop over the items of a table. *)
Fixpoint link_items (set : event -> list link -> event) (par : Par.t)
    (items : list (event_id * list event_id)) : result Par.t :=
  match items with
  | [] => Ok par
  | item :: rest =>
      par' ← link_one set par item;
      link_items set par' rest
  end.

(** [ParEventLinks.link_events] *)
Definition link_events (links : t) (par : Par.t) : result Par.t :=
  par' ← link_items set_comparable_events par
           (map_to_list (comparable links));
  link_items set_feasible_precedessors par'
    (map_to_list (precedessors links)).

(** What a link stands for in a model: the event object of a resolved
    link, nothing for a placeholder. *)
Definition deref (par : Par.t) (l : link) : option event :=
  match l with
  | LinkEvent eid => Par.events par !! eid
  | EventRef _ => None
  end.

(** The id a placeholder carries. *)
Definition ref_id (l : link) : option event_id :=
  match l with
  | LinkEvent _ => None
  | EventRef eid => Some eid
  end.

End ParEventLinks.

(** ** [par.py]: the records of the simulation control and of the reports *)

(** [Control.fields] *)
Definition Control_fields : list (string * Field) :=
  [ ("branch_stop_year", IntValue); ("max_events", IntValue);
    ("_3", Constant (PInt 0)); ("_4", Constant (PInt 0));
    ("_5", Constant (PInt 1000)); ("_6", Constant (PInt 0));
    ("_7", Constant (PInt 1)); ("max_branches", IntValue);
    ("_9", Constant (PInt 0)); ("_10", Constant (PInt 0));
    ("max_plots", IntValue); ("smr_year", IntValue);
    ("_13", Constant (PInt 0)); ("_14", Constant (PInt 0));
    ("force_stop_year", IntValue); ("land_value_mode", IntValue);
    ("sim_mode", IntValue) ]%string.

(** [Output.fields] *)
Definition Output_fields : list (string * Field) :=
  [ ("msc", BoolValue); ("forest_sum", BoolValue);
    ("terminal_summary", Value); ("terminal_data_report", Value);
    ("unit_sum", BoolValue); ("_6", Constant (PInt 0));
    ("_7", Constant (PInt 0)); ("_8", Constant (PInt 0));
    ("smr", BoolValue); ("_10", Constant (PInt 0)) ]%string.

(** ** Python's [struct], for the format characters of an MSB format

    Native byte order and sizes of a little-endian machine: ['I'] and ['i']
    take 4 bytes, ['Q'] and ['q'] 8, ['f'] is IEEE 754 binary32 and ['d']
    binary64. *)

Module Struct.

Inductive int_fmt := Fmt_I | Fmt_i | Fmt_Q | Fmt_q.
Inductive float_fmt := Fmt_f | Fmt_d.
Inductive fmt :=
| FInt (c : int_fmt)
| FFloat (c : float_fmt).

Definition int_size (c : int_fmt) : nat :=
  match c with
  | Fmt_I | Fmt_i => 4
  | Fmt_Q | Fmt_q => 8
  end.

Definition int_signed (c : int_fmt) : bool :=
  match c with
  | Fmt_i | Fmt_q => true
  | Fmt_I | Fmt_Q => false
  end.

Definition float_size (c : float_fmt) : nat :=
  match c with
  | Fmt_f => 4
  | Fmt_d => 8
  end.

(** [struct.calcsize] *)
Definition calcsize (c : fmt) : nat :=
  match c with
  | FInt c => int_size c
  | FFloat c => float_size c
  end.

Definition byte_of_Z (z : Z) : Byte.byte :=
  default Byte.x00 (Byte.of_N (Z.to_N (z mod 256))).

Definition Z_of_byte (b : Byte.byte) : Z := Z.of_N (Byte.to_N b).

(** The [n] low bytes of [z], least significant first. *)
Fixpoint le_bytes (n : nat) (z : Z) : list Byte.byte :=
  match n with
  | O => []
  | S k => byte_of_Z z :: le_bytes k (z / 256)
  end.

Fixpoint le_value (bs : list Byte.byte) : Z :=
  match bs with
  | [] => 0
  | b :: rest => Z_of_byte b + 256 * le_value rest
  end.

(** The bits of a float with a fraction of [mw] bits and an exponent of
    [ew] bits. *)
Definition bits_of_sf (mw ew : Z) (x : spec_float) : Z :=
  let sign (s : bool) := if s then 2 ^ (mw + ew) else 0 in
  let top := 2 ^ ew - 1 in
  let bias := 2 ^ (ew - 1) - 1 in
  match x with
  | S754_zero s => sign s
  | S754_infinity s => sign s + top * 2 ^ mw
  | S754_nan => top * 2 ^ mw + 2 ^ (mw - 1)
  | S754_finite s m e =>
      if Zpos m <? 2 ^ mw then sign s + Zpos m
      else sign s + (e + bias + mw) * 2 ^ mw + (Zpos m - 2 ^ mw)
  end.

Definition sf_of_bits (mw ew : Z) (b : Z) : spec_float :=
  let s := Z.testbit b (mw + ew) in
  let top := 2 ^ ew - 1 in
  let bias := 2 ^ (ew - 1) - 1 in
  let E := (b / 2 ^ mw) mod 2 ^ ew in
  let frac := b mod 2 ^ mw in
  if E =? 0 then
    if frac =? 0 then S754_zero s
    else S754_finite s (Z.to_pos frac) (1 - bias - mw)
  else if E =? top then
    if frac =? 0 then S754_infinity s else S754_nan
  else S754_finite s (Z.to_pos (frac + 2 ^ mw)) (E - bias - mw).

(** Rounding to a format of precision [p] and maximal exponent [em], to
    nearest even. *)
Definition sf_round (p em : Z) (x : spec_float) : spec_float :=
  match x with
  | S754_finite s m e => binary_normalize p em (cond_Zopp s (Zpos m)) e s
  | _ => x
  end.

Definition sf_is_finite (x : spec_float) : bool :=
  match x with
  | S754_zero _ | S754_finite _ _ _ => true
  | _ => false
  end.

(** [struct.pack] of one integer: a float is no integer, and an integer out
    of the format's range does not fit; both raise [struct.error]. *)
Definition pack_int (c : int_fmt) (v : num) : result (list Byte.byte) :=
  match v with
  | PFloat _ => Err StructError
  | PInt z =>
      let bits := 8 * Z.of_nat (int_size c) in
      let lo := if int_signed c then - 2 ^ (bits - 1) else 0 in
      let hi := if int_signed c then 2 ^ (bits - 1) else 2 ^ bits in
      if (lo <=? z) && (z <? hi) then Ok (le_bytes (int_size c) z)
      else Err StructError
  end.

(** [struct.pack] of one float: ['f'] rounds to binary32 and raises
    [OverflowError] when a finite value does not fit. *)
Definition pack_float (c : float_fmt) (v : num) : result (list Byte.byte) :=
  x ← py_float v;
  match c with
  | Fmt_d => Ok (le_bytes 8 (bits_of_sf 52 11 (Prim2SF x)))
  | Fmt_f =>
      let y := sf_round 24 128 (Prim2SF x) in
      if sf_is_finite (Prim2SF x) && negb (sf_is_finite y)
      then Err OverflowError
      else Ok (le_bytes 4 (bits_of_sf 23 8 y))
  end.

Definition pack (c : fmt) (v : num) : result (list Byte.byte) :=
  match c with
  | FInt c => pack_int c v
  | FFloat c => pack_float c v
  end.

(** [struct.unpack] of a buffer of the format's size. *)
Definition unpack_int (c : int_fmt) (bs : list Byte.byte) : Z :=
  let bits := 8 * Z.of_nat (int_size c) in
  let u := le_value bs in
  if int_signed c && (2 ^ (bits - 1) <=? u) then u - 2 ^ bits else u.

Definition unpack_float (c : float_fmt) (bs : list Byte.byte) : float :=
  match c with
  | Fmt_d => SF2Prim (sf_of_bits 52 11 (le_value bs))
  | Fmt_f => SF2Prim (sf_round prec emax (sf_of_bits 23 8 (le_value bs)))
  end.

Definition unpack (c : fmt) (bs : list Byte.byte) : num :=
  match c with
  | FInt c => PInt (unpack_int c bs)
  | FFloat c => PFloat (unpack_float c bs)
  end.

(** The buffer cut into [n] pieces of [k] bytes. *)
Fixpoint chunks (k n : nat) (bs : list Byte.byte) : list (list Byte.byte) :=
  match n with
  | O => []
  | S n' => take k bs :: chunks k n' (drop k bs)
  end.

(** [struct.iter_unpack]: the buffer must be a multiple of the size. *)
Definition iter_unpack (c : float_fmt) (bs : list Byte.byte)
  : result (list float) :=
  let k := float_size c in
  if (length bs mod k =? 0)%nat
  then Ok (map (unpack_float c) (chunks k (length bs / k) bs))
  else Err StructError.

End Struct.

(** ** [msb.py]: the binary record stream *)

Module Msb.

Import Struct.

(** [MsbFormat]: the format character of the uid, of a float and of an int;
    the float and the int are taken among the characters of their kind. *)
Record MsbFormat := {
  uid_type : fmt;
  float_type : float_fmt;
  int_type : int_fmt
}.

(** [default_format = MsbFormat()] *)
Definition default_format : MsbFormat :=
  {| uid_type := FFloat Fmt_d; float_type := Fmt_f; int_type := Fmt_I |}.

(** An instance of [MsbLogicalRecord]: the class sets no attribute, so
    [record_type] and [buf] are there only once something assigned them. *)
Record MsbLogicalRecord := {
  record_type : option num;
  buf : option (list num)
}.

(** A logical record of a physical record: an instance of either class. *)
Inductive logical :=
| LRsd (r : Rsd.RsdInitialDataRecord)
| LMsb (r : MsbLogicalRecord).

Record MsbPhysicalRecord := {
  uid : num;
  records : list logical
}.

(** Reading an attribute that may be missing. *)
Definition attr {A} (a : option A) : result A :=
  match a with
  | Some x => Ok x
  | None => Err AttributeError
  end.

(** [MsbLogicalRecord(...)] with [nargs] arguments.  The class defines no
    [__init__], so [object]'s runs: it makes an instance without attributes
    when called without arguments, and raises [TypeError] when given any. *)
Definition MsbLogicalRecord_new (nargs : nat) : result MsbLogicalRecord :=
  match nargs with
  | O => Ok {| record_type := None; buf := None |}
  | S _ => Err TypeError
  end.

(** [r.to_floats()] *)
Definition to_floats (r : logical) : result (list num) :=
  match r with
  | LRsd r => Rsd.to_floats r
  | LMsb r => attr (buf r)
  end.

(** [r.record_type] *)
Definition get_record_type (r : logical) : result num :=
  match r with
  | LRsd _ => Ok (PInt Rsd.record_type)
  | LMsb r => attr (record_type r)
  end.

(** [MsbLogicalRecord.from_floats(typ, args)] *)
Definition from_floats (typ : Z) (args : list num) : result logical :=
  if typ =? 1 then
    r ← Rsd.from_floats args; Ok (LRsd r)
  else
    r ← MsbLogicalRecord_new 2; Ok (LMsb r).

(** *** Reading.  The stream [fp] is the bytes not yet read. *)

(** [fp.read(sz)] of a buffered binary file: a size below -1 is refused, -1
    reads everything, and the end of the file shortens the result. *)
Definition fp_read (sz : Z) (fp : list Byte.byte)
  : result (list Byte.byte * list Byte.byte) :=
  if sz <? -1 then Err ValueError
  else if sz =? -1 then Ok (fp, [])
  else Ok (take (Z.to_nat sz) fp, drop (Z.to_nat sz) fp).

(** [MsbStream._read] *)
Definition _read (sz : Z) (fp : list Byte.byte)
  : result (list Byte.byte * list Byte.byte) :=
  '(b, fp') ← fp_read sz fp;
  if Z.of_nat (length b) <? sz then Err MsbEof else Ok (b, fp').

(** [MsbStream.read_uid] *)
Definition read_uid (f : MsbFormat) (fp : list Byte.byte)
  : result (num * list Byte.byte) :=
  '(b, fp') ← _read (Z.of_nat (calcsize (uid_type f))) fp;
  Ok (unpack (uid_type f) b, fp').

(** [MsbStream.read_float] *)
Definition read_float (f : MsbFormat) (fp : list Byte.byte)
  : result (float * list Byte.byte) :=
  '(b, fp') ← _read (Z.of_nat (float_size (float_type f))) fp;
  let x := unpack_float (float_type f) b in
  fin ← isfinite (PFloat x);
  if negb fin then Err MsbError else Ok (x, fp').

(** [MsbStream.read_fpint] *)
Definition read_fpint (f : MsbFormat) (fp : list Byte.byte)
  : result (Z * list Byte.byte) :=
  '(x, fp') ← read_float f fp;
  i ← py_int (PFloat x);
  if negb (num_eqb (PInt i) (PFloat x)) then Err MsbError else Ok (i, fp').

(** [list(MsbStream.read_fpbuf(n))] *)
Definition read_fpbuf (f : MsbFormat) (n : Z) (fp : list Byte.byte)
  : result (list float * list Byte.byte) :=
  '(b, fp') ← _read (Z.of_nat (float_size (float_type f)) * n) fp;
  xs ← iter_unpack (float_type f) b;
  Ok (xs, fp').

(** [MsbStream.read_int] *)
Definition read_int (f : MsbFormat) (fp : list Byte.byte)
  : result (Z * list Byte.byte) :=
  '(b, fp') ← _read (Z.of_nat (int_size (int_type f))) fp;
  Ok (unpack_int (int_type f) b, fp').

(** The body of the loop of [read_physical_record]: the size [sz] and the
    logical record that was read. *)
Definition read_logical (f : MsbFormat) (fp : list Byte.byte)
  : result (Z * logical * list Byte.byte) :=
  '(typ, fp) ← read_fpint f fp;
  '(sz, fp) ← read_fpint f fp;
  '(xs, fp) ← read_fpbuf f sz fp;
  r ← from_floats typ (map PFloat xs);
  Ok (sz, r, fp).

(** The loop [while nr < nv] of [read_physical_record]. *)
Equations? read_records (f : MsbFormat) (nr nv : Z) (recs : list logical)
    (fp : list Byte.byte) : result (list logical * list Byte.byte)
    by wf (length fp) lt :=
  read_records f nr nv recs fp with (nr <? nv) => {
    | false := Ok (recs, fp)
    | true with inspect (read_logical f fp) => {
        | exist _ (Err e) _ := Err e
        | exist _ (Ok (sz, r, fp')) H :=
            read_records f (nr + sz + 2) nv (recs ++ [r]) fp' } }.
Proof.
  clear read_records.
  assert (Hread : forall z q b q', _read z q = Ok (b, q') ->
            (length q' <= length q)%nat /\ (0 < z -> (length q' < length q)%nat)).
  { intros z q b q'. unfold _read, fp_read.
    destruct (z <? -1) eqn:E1; cbn; [intros ?; simplify_eq|].
    destruct (z =? -1) eqn:E2; cbn.
    - destruct (Z.of_nat (length q) <? z) eqn:E3; intros ?; simplify_eq.
      apply Z.eqb_eq in E2. cbn. lia.
    - rewrite length_take.
      destruct (Z.of_nat _ <? z) eqn:E3; intros ?; simplify_eq.
      apply Z.ltb_ge in E3. rewrite length_drop. lia. }
  assert (Hint : forall q i q', read_fpint f q = Ok (i, q') ->
            (length q' < length q)%nat).
  { intros q i q' Hq. unfold read_fpint, read_float in Hq.
    inv_binds. repeat case_match; simplify_eq.
    match goal with E : _read _ _ = Ok _ |- _ =>
      apply Hread in E as [_ E]; apply E end.
    destruct (float_type f); cbn; lia. }
  unfold read_logical, read_fpbuf in H. inv_binds. simplify_eq.
  repeat match goal with
         | E : read_fpint _ _ = Ok _ |- _ => apply Hint in E
         | E : _read _ _ = Ok _ |- _ => apply Hread in E as [E _]
         end.
  lia.
Qed.

(** [MsbStream.read_physical_record]: [None] is the end of the stream. *)
Definition read_physical_record (f : MsbFormat) (fp : list Byte.byte)
  : result (option MsbPhysicalRecord * list Byte.byte) :=
  match read_int f fp with
  | Err MsbEof => Ok (None, [])
  | Err e => Err e
  | Ok (length1, fp) =>
      '(u, fp) ← read_uid f fp;
      '(nv, fp) ← read_int f fp;
      '(recs, fp) ← read_records f 0 nv [] fp;
      '(length2, fp) ← read_int f fp;
      if negb (length2 =? length1) then Err MsbError
      else Ok (Some {| uid := u; records := recs |}, fp)
  end.

(** *** Writing.  The stream is the bytes written so far. *)

(** [MsbStream.write_uid] *)
Definition write_uid (f : MsbFormat) (u : num) (out : list Byte.byte)
  : result (list Byte.byte) :=
  b ← pack (uid_type f) u; Ok (out ++ b).

(** [MsbStream.write_float] *)
Definition write_float (f : MsbFormat) (x : num) (out : list Byte.byte)
  : result (list Byte.byte) :=
  fin ← isfinite x;
  if negb fin then Err MsbError
  else b ← pack_float (float_type f) x; Ok (out ++ b).

(** [MsbStream.write_fpbuf] *)
Fixpoint write_fpbuf (f : MsbFormat) (xs : list num) (out : list Byte.byte)
  : result (list Byte.byte) :=
  match xs with
  | [] => Ok out
  | x :: rest => out' ← write_float f x out; write_fpbuf f rest out'
  end.

(** [MsbStream.write_int] *)
Definition write_int (f : MsbFormat) (i : Z) (out : list Byte.byte)
  : result (list Byte.byte) :=
  b ← pack_int (int_type f) (PInt i); Ok (out ++ b).

(** [[r.to_floats() for r in rec.records]] *)
Fixpoint all_floats (rs : list logical) : result (list (list num)) :=
  match rs with
  | [] => Ok []
  | r :: rest =>
      b ← to_floats r;
      bs ← all_floats rest;
      Ok (b :: bs)
  end.

(** [sum(2 + len(r) for r in records)] *)
Definition total_values (bufs : list (list num)) : Z :=
  foldr (fun b acc => 2 + Z.of_nat (length b) + acc) 0 bufs.

(** The loop over [zip(rec.records, records)]. *)
Fixpoint write_logicals (f : MsbFormat) (rs : list logical)
    (bufs : list (list num)) (out : list Byte.byte)
  : result (list Byte.byte) :=
  match rs, bufs with
  | r :: rs', b :: bufs' =>
      t ← get_record_type r;
      out ← write_float f t out;
      out ← write_float f (PInt (Z.of_nat (length b))) out;
      out ← write_fpbuf f b out;
      write_logicals f rs' bufs' out
  | _, _ => Ok out
  end.

(** [MsbStream.write_physical_record] *)
Definition write_physical_record (f : MsbFormat) (rec : MsbPhysicalRecord)
    (out : list Byte.byte) : result (list Byte.byte) :=
  bufs ← all_floats (records rec);
  let length1 :=
    Z.of_nat (calcsize (uid_type f))
    + Z.of_nat (length bufs) * Z.of_nat (int_size (int_type f))
    + total_values bufs * Z.of_nat (float_size (float_type f)) in
  out ← write_int f length1 out;
  out ← write_uid f (uid rec) out;
  out ← write_int f (total_values bufs) out;
  out ← write_logicals f (records rec) bufs out;
  write_int f length1 out.

(** [list(read_msb(fp, fmt))]: the physical records that the generator
    yields, up to the first [None] of [read_physical_record]; an exception
    of a read ends the iteration with it. *)
Equations? read_msb (f : MsbFormat) (fp : list Byte.byte)
    : result (list MsbPhysicalRecord) by wf (length fp) lt :=
  read_msb f fp with inspect (read_physical_record f fp) => {
    | exist _ (Err e) _ := Err e
    | exist _ (Ok (None, _)) _ := Ok []
    | exist _ (Ok (Some rec, fp')) H :=
        recs ← read_msb f fp'; Ok (rec :: recs) }.
Proof.
  clear read_msb.
  assert (Hread : forall z q b q', _read z q = Ok (b, q') ->
            (length q' <= length q)%nat /\ (0 < z -> (length q' < length q)%nat)).
  { intros z q b q'. unfold _read, fp_read.
    destruct (z <? -1) eqn:E1; cbn; [intros ?; simplify_eq|].
    destruct (z =? -1) eqn:E2; cbn.
    - destruct (Z.of_nat (length q) <? z) eqn:E3; intros ?; simplify_eq.
      apply Z.eqb_eq in E2. cbn. lia.
    - rewrite length_take.
      destruct (Z.of_nat _ <? z) eqn:E3; intros ?; simplify_eq.
      apply Z.ltb_ge in E3. rewrite length_drop. lia. }
  assert (Hrecs : forall nr nv recs q recs' q',
            read_records f nr nv recs q = Ok (recs', q') ->
            (length q' <= length q)%nat).
  { intros nr nv recs q.
    apply (read_records_elim
             (fun f nr nv recs q res => forall recs' q',
                res = Ok (recs', q') -> (length q' <= length q)%nat)).
    - intros; simplify_eq. lia.
    - intros f0 nr0 nv0 recs0 q0 sz r q1 Heq IH _ _ recs' q' Hq.
      apply IH in Hq. clear IH.
      assert (Hlog0 : forall q x q', read_logical f0 q = Ok (x, q') ->
                (length q' <= length q)%nat).
      { intros p x p' Hp. unfold read_logical, read_fpbuf in Hp.
        inv_binds. simplify_eq.
        unfold read_fpint, read_float in *. inv_binds.
        repeat case_match; simplify_eq.
        repeat match goal with
               | E : _read _ _ = Ok _ |- _ => apply Hread in E as [E _]
               end.
        lia. }
      apply Hlog0 in Heq. lia.
    - intros; discriminate. }
  unfold read_physical_record in H.
  destruct (read_int f fp) as [[length1 fp1]|e] eqn:E1;
    [|destruct e; discriminate H].
  inv_binds. destruct (negb _); [discriminate|]. simplify_eq.
  unfold read_int, read_uid in *. inv_binds. simplify_eq.
  apply Hrecs in E2.
  repeat match goal with
         | E : _read _ _ = Ok _ |- _ => apply Hread in E
         end.
  assert (0 < Z.of_nat (int_size (int_type f)))
    by (destruct (int_type f); cbn; lia).
  intuition lia.
Qed.

(** [write_msb(fp, records, fmt)] *)
Fixpoint write_msb (f : MsbFormat) (records : list MsbPhysicalRecord)
    (out : list Byte.byte) : result (list Byte.byte) :=
  match records with
  | [] => Ok out
  | r :: rest =>
      out' ← write_physical_record f r out;
      write_msb f rest out'
  end.

End Msb.

(** ** Notions used by the statements *)

(** *** Conditions *)

(** What the decoder rebuilds from the floats of a constraint. *)
Definition dnf_decoded (c : Constraint) : Constraint :=
  {| var := get_var (id (var c));
     values := DNFCondition.split_terms (Constraint.terms_floats (values c)) |}.

(** The first float of a value. *)
Definition term_head (t : term) : num :=
  match t with
  | Lit v => v
  | Range low _ => low
  end.

(** Values that the decoder tells apart as they were written: a range has
    a high bound above 0, and the value after a literal does not begin
    with a float below 0. *)
Fixpoint unambiguous (vs : list term) : bool :=
  match vs with
  | [] => true
  | Lit _ :: rest =>
      match rest with
      | [] => true
      | t :: _ => negb (num_ltb0 (term_head t))
      end && unambiguous rest
  | Range _ high :: rest => num_gtb0 high && unambiguous rest
  end.

(** A constraint on a variable as [get_var] makes it, with unambiguous
    values. *)
Definition wf_constraint (c : Constraint) : Prop :=
  var c = get_var (id (var c)) /\ unambiguous (values c) = true.

(** A condition without an empty group, made of such constraints. *)
Definition wf_condition (C : DNFCondition.t) : Prop :=
  Forall (fun g => g <> [] /\ Forall wf_constraint g) (DNFCondition.groups C).

(** The constraint [V42 in {3, (5, 10)}], with int and with float values. *)
Definition c42 : Constraint :=
  {| var := get_var 42;
     values := [Lit (PInt 3); Range (PInt 5) (PInt 10)] |}.

Definition c42f : Constraint :=
  {| var := get_var 42;
     values := [Lit (PFloat 3); Range (PFloat 5) (PFloat 10)] |}.

(** *** Fields *)

(** The number 0 as it is written: the int [0] or the float [0.0]. *)
Definition plain_zero (x : num) : bool :=
  match x with
  | PInt z => z =? 0
  | PFloat f =>
      match Prim2SF f with
      | S754_zero false => true
      | _ => false
      end
  end.

(** No [Constant] fixed at another value than 0 is met below the
    [Optional]s of a field. *)
Fixpoint takes_zero (f : Field) : bool :=
  match f with
  | Constant c => plain_zero c
  | Optional field => takes_zero field
  | _ => true
  end.

(** *** The writer *)



(** The counter [remain] is the budget less the columns of the line. *)
Definition in_step (line_wrap : Z) (c : ParWriter.cursor) : Prop :=
  ParWriter.remain c = line_wrap - ParWriter.columns c.

(** *** Links *)

(** The link the specification asks for an id: the event stored under it
    when there is one, a placeholder that carries the id otherwise. *)
Definition link_of (evs : gmap event_id event) (eid : event_id) : link :=
  match evs !! eid with
  | Some _ => LinkEvent eid
  | None => EventRef eid
  end.

(** What one pass of the linking does to the event stored under an id. *)
Definition linked (set : event -> list link -> event)
    (evs : gmap event_id event) (table : gmap event_id (list event_id))
    (id : event_id) (ev : event) : event :=
  match table !! id with
  | Some ids => set ev (map (link_of evs) ids)
  | None => ev
  end.

(** Two events, and links that name one of them and two ids without an
    event. *)
Definition ev1 : event := Event 1 "thinning" [] EventMixin_init.
Definition ev2 : event := Event 2 "clearcut" [] EventMixin_init.

Definition par12 : Par.t :=
  Par.with_events Par.init (<[IdNum 1 := ev1]> (<[IdNum 2 := ev2]> ∅)).

Definition links12 : ParEventLinks.t :=
  {| ParEventLinks.comparable := <[IdNum 1 := [IdNum 2; IdNum 9]]> ∅;
     ParEventLinks.precedessors := <[IdNum 2 := [IdNum 7; IdNum 1]]> ∅ |}.

(** *** Reading *)






(** A physical record without logical records. *)
Definition physical0 : Msb.MsbPhysicalRecord :=
  {| Msb.uid := PFloat 7; Msb.records := [] |}.

(** *** Records *)

(** An int that [float] represents exactly: [float(z) == z]. *)
Definition exact_int (z : Z) : bool :=
  match float_of_Z z with
  | Ok x => sf_eqb_Z (Prim2SF x) z
  | Err _ => false
  end.

(** A constant that is read back as itself: [float(c) == c]. *)
Definition exact_num (c : num) : bool :=
  match py_float c with
  | Ok x => num_eqb (PFloat x) c
  | Err _ => false
  end.

(** An attribute value that a field writes and reads back as it is: a
    float for [Value], an exact int for [IntValue], a [bool] for
    [BoolValue], an exact member for [EnumValue], and below an [Optional]
    a value that differs from 0.  [Constant] and [AnyReserved] read
    nothing back. *)
Fixpoint field_keeps (f : Field) (v : pyval) : bool :=
  match f with
  | Value => match v with VNum (PFloat _) => true | _ => false end
  | IntValue => match v with VNum (PInt z) => exact_int z | _ => false end
  | BoolValue => match v with VBool _ => true | _ => false end
  | EnumValue enum =>
      match v with
      | VNum (PInt z) => exact_int z && bool_decide (z ∈ enum)
      | _ => false
      end
  | Constant _ | AnyReserved => false
  | Optional g => field_keeps g v && pyval_neb v (PInt 0)
  end.

(** A field whose attribute may stay unset: it writes a float for [None]
    and reads [None] back. *)
Definition field_absent (f : Field) : bool :=
  match f with
  | Optional _ | AnyReserved => true
  | Constant c => exact_num c
  | _ => false
  end.

(** A record that its schema keeps: every attribute belongs to a field,
    and every field keeps the attribute of its name, or may stay unset
    when there is none. *)
Definition record_keeps (fields : list (string * Field))
    (r : gmap string pyval) : Prop :=
  map_Forall (fun n _ => n ∈ fields.*1) r /\
  Forall (fun nf => match r !! nf.1 with
                    | Some v => field_keeps nf.2 v
                    | None => field_absent nf.2
                    end = true) fields.

(** An RSD record whose plot and trees their schemas keep. *)
Definition rsd_keeps (r : Rsd.RsdInitialDataRecord) : Prop :=
  record_keeps Rsd.RsdSamplePlot_fields (Rsd.plot r) /\
  Forall (record_keeps Rsd.RsdTree_fields) (Rsd.trees r).

(** The attributes that decoding sets over [r0] when it reads what the
    fields wrote for [r]. *)
Definition kept_attrs (fields : list (string * Field))
    (r r0 : gmap string pyval) : gmap string pyval :=
  foldl (fun acc nf => match r !! nf.1 with
                       | Some v => <[nf.1 := v]> acc
                       | None => acc
                       end) r0 fields.

(** [float(x)] in a list of numbers, where it gives a float. *)
Definition as_float (x : num) : num :=
  match py_float x with
  | Ok y => PFloat y
  | Err _ => x
  end.

(** A sample plot with every visible field at 3 but the area, and a
    tree. *)
Definition plot_of (area : float) : gmap string pyval :=
  <["area"%string := VNum (PFloat area)]>
    (list_to_map
       (map (fun nf => (nf.1, match nf.2 with
                              | Value | Optional Value => VNum (PFloat 3)
                              | _ => VNum (PInt 3)
                              end))
          (Record.visible_fields Rsd.RsdSamplePlot_fields))).

Definition tree1 : gmap string pyval :=
  list_to_map
    [("f", VNum (PFloat 1.5)); ("spe", VNum (PInt 2));
     ("d", VNum (PFloat 10)); ("h", VNum (PFloat 12));
     ("age", VNum (PFloat 30)); ("bio_age", VNum (PFloat 31));
     ("origin", VNum (PInt 1))]%string.

Definition rsd1 (area : float) : Rsd.RsdInitialDataRecord :=
  {| Rsd.plot := plot_of area; Rsd.trees := [tree1] |}.

(** A number at the head of a stream that [nextint] reads as [z]. *)
Definition reads_as (h : num) (z : Z) : Prop :=
  forall s, FpStream.nextint false (h :: s) = Ok (z, s).

(** [v is None] *)
Definition is_VNone (v : pyval) : bool :=
  match v with
  | VNone => true
  | _ => false
  end.

(** A member of a JSON object that a schema shows: it is named after a
    visible field and is not [None]. *)
Definition json_shown (fields : list (string * Field))
    (nv : string * pyval) : Prop :=
  nv.1 ∈ (Record.visible_fields fields).*1 /\ is_VNone nv.2 = false.

#[global] Instance json_shown_dec fields nv : Decision (json_shown fields nv).
Proof. unfold json_shown. apply _. Defined.

(** A simulation control with every visible field at 3, and reports with
    every flag set. *)
Definition control3 : gmap string pyval :=
  list_to_map
    (map (fun nf => (nf.1, VNum (PInt 3)))
       (Record.visible_fields Control_fields)).

Definition output1 : gmap string pyval :=
  list_to_map
    (map (fun nf => (nf.1, match nf.2 with
                           | BoolValue => VBool true
                           | _ => VNum (PFloat 2)
                           end))
       (Record.visible_fields Output_fields)).

(** The floats of a record, nothing when it is refused. *)
Definition floats_of (fields : list (string * Field))
    (r : gmap string pyval) : list num :=
  match Record.to_floats fields r with
  | Ok buf => buf
  | Err _ => []
  end.

(** *** Writing and reading back physical records *)

(** A number that the float format of [f] keeps: [read_float] reads what
    [write_float] wrote for it as [float(x)]. *)
Definition keeps_float (f : Msb.MsbFormat) (x : num) : Prop :=
  exists y bs,
    py_float x = Ok y /\ Msb.write_float f x [] = Ok bs /\
    Msb.read_float f bs = Ok (y, []).

(** An int that the float format keeps: [read_fpint] reads it back. *)
Definition keeps_fpint (f : Msb.MsbFormat) (z : Z) : Prop :=
  exists bs,
    Msb.write_float f (PInt z) [] = Ok bs /\
    Msb.read_fpint f bs = Ok (z, []).

(** A uid that its format keeps. *)
Definition keeps_uid (f : Msb.MsbFormat) (u : num) : Prop :=
  exists bs,
    Msb.write_uid f u [] = Ok bs /\ Msb.read_uid f bs = Ok (u, []).

(** A logical record that the float format keeps: its type tag, the count
    of its floats and each of its floats are kept, and [from_floats] gives
    the record back from the floats of [to_floats]. *)
Definition keeps_logical (f : Msb.MsbFormat) (r : Msb.logical) : Prop :=
  exists t buf,
    Msb.get_record_type r = Ok (PInt t) /\ Msb.to_floats r = Ok buf /\
    keeps_fpint f t /\ keeps_fpint f (Z.of_nat (length buf)) /\
    Forall (keeps_float f) buf /\
    Msb.from_floats t (map as_float buf) = Ok r.

(** A physical record that the format keeps. *)
Definition keeps_physical (f : Msb.MsbFormat) (rec : Msb.MsbPhysicalRecord)
  : Prop :=
  keeps_uid f (Msb.uid rec) /\ Forall (keeps_logical f) (Msb.records rec).

(** The bytes of a written physical record between its two length
    fields. *)
Definition record_body (f : Msb.MsbFormat) (bs : list Byte.byte)
  : list Byte.byte :=
  drop (Struct.int_size (Msb.int_type f))
       (take (length bs - Struct.int_size (Msb.int_type f)) bs).

(** A physical record of one RSD record. *)
Definition physical_of (area : float) : Msb.MsbPhysicalRecord :=
  {| Msb.uid := PFloat 7; Msb.records := [Msb.LRsd (rsd1 area)] |}.

(** *** Lines *)

(** A buffer of whole lines below a budget: runs of pieces, each ended by
    the newline piece and shorter than [w] columns. *)
Inductive lines_below (w : Z) : list string -> Prop :=
| lines_none : lines_below w []
| lines_more (buf pieces : list string) :
    lines_below w buf ->
    ParWriter.len (String.concat "" pieces) < w ->
    lines_below w (buf ++ pieces ++ [ParWriter.nl]).

(** The pieces of a line that holds the tokens [params]: a space piece
    between two tokens. *)
Definition spaced (params : list string) : list string :=
  match params with
  | [] => []
  | p :: rest => p :: concat (map (fun q => [" "%string; q]) rest)
  end.

(** The columns of the tokens. *)
Definition total_len (params : list string) : Z :=
  foldr (fun p acc => ParWriter.len p + acc) 0 params.

(** *** The format of doubles *)

(** A format that writes the uid and the floats as doubles. *)
Definition double_format : Msb.MsbFormat :=
  {| Msb.uid_type := Struct.FFloat Struct.Fmt_d;
     Msb.float_type := Struct.Fmt_d;
     Msb.int_type := Struct.Fmt_I |}.

(** An RSD record that its schemas keep and whose counts (the number of
    its trees and of its floats) are exact as floats. *)
Definition rsd_exact (x : Rsd.RsdInitialDataRecord) : Prop :=
  rsd_keeps x /\
  exact_int (Z.of_nat (length (Rsd.trees x))) = true /\
  exact_int (Z.of_nat (37 + 17 * length (Rsd.trees x))) = true.

(** * Properties *)

(** ** Numbers *)

Lemma float_opp_involutive (x : float) : (- - x)%float = x.
Proof.
  apply Prim2SF_inj. rewrite !opp_spec.
  destruct (Prim2SF x) as [[]|[]| |[] m e]; reflexivity.
Qed.

Lemma float_opp_neg (x : float) :
  PrimFloat.ltb 0 x = true -> PrimFloat.ltb (- x) 0 = true.
Proof.
  rewrite !ltb_spec, opp_spec.
  change (Prim2SF 0) with (S754_zero false).
  destruct (Prim2SF x) as [[]|[]| |[] m e]; simpl; try discriminate;
    reflexivity.
Qed.

Lemma num_opp_involutive (x : num) : num_opp (num_opp x) = x.
Proof.
  destruct x as [z|f]; simpl.
  - now rewrite Z.opp_involutive.
  - now rewrite float_opp_involutive.
Qed.

Lemma num_opp_neg (x : num) :
  num_gtb0 x = true -> num_ltb0 (num_opp x) = true.
Proof.
  destruct x as [z|f]; simpl.
  - intros H%Z.ltb_lt. apply Z.ltb_lt. lia.
  - apply float_opp_neg.
Qed.

(** ** Slices *)

Lemma slice_index_inside (len i : Z) :
  0 <= i <= len -> slice_index len i = Z.to_nat i.
Proof.
  intros H. unfold slice_index.
  destruct (i <? 0) eqn:E; [apply Z.ltb_lt in E; lia|]. lia.
Qed.

Lemma slice_block {A} (v : A) (block rest : list A) :
  slice 1 (Z.of_nat (S (length block))) (v :: block ++ rest) = block.
Proof.
  unfold slice.
  rewrite !slice_index_inside by (simpl; rewrite ?length_app; lia).
  rewrite Nat2Z.id. simpl. rewrite take_app_length. reflexivity.
Qed.

Lemma slice_from_block {A} (v : A) (block rest : list A) :
  slice_from (Z.of_nat (S (length block))) (v :: block ++ rest) = rest.
Proof.
  unfold slice_from.
  rewrite slice_index_inside by (simpl; rewrite ?length_app; lia).
  rewrite Nat2Z.id. simpl. rewrite drop_app_length. reflexivity.
Qed.

(** ** Conditions in disjunctive normal form *)

Section Conditions.

Import DNFCondition.

Lemma loop_nil gs g : loop gs g [] = Ok (close_group gs g).
Proof. now simp loop. Qed.

Lemma loop_cons gs g a args1 :
  loop gs g (a :: args1) =
  match py_int a with
  | Err e => Err e
  | Ok nv =>
      if nv =? 0 then loop (close_group gs g) [] args1
      else match read_constraint nv args1 with
           | Err e => Err e
           | Ok c => loop gs (g ++ [c]) (slice_from nv args1)
           end
  end.
Proof.
  simp loop. destruct (py_int a) as [nv|]; simpl; [|reflexivity].
  destruct (nv =? 0); simpl; [reflexivity|].
  destruct (read_constraint nv args1); reflexivity.
Qed.

Lemma to_floats_shape (c : Constraint) :
  Constraint.to_floats c =
    PInt (Z.of_nat (S (length (Constraint.terms_floats (values c)))))
    :: PInt (id (var c)) :: Constraint.terms_floats (values c).
Proof. reflexivity. Qed.

Lemma loop_to_floats gs g c rest :
  loop gs g (Constraint.to_floats c ++ rest) =
  loop gs (g ++ [dnf_decoded c]) rest.
Proof.
  rewrite to_floats_shape. simpl app. rewrite loop_cons. simpl py_int.
  cbv iota beta.
  destruct (Z.of_nat (S _) =? 0) eqn:E; [apply Z.eqb_eq in E; lia|].
  unfold read_constraint. simpl py_int.
  cbn [mbind result_mbind result_bind].
  rewrite slice_block, slice_from_block. reflexivity.
Qed.

Lemma split_terms_two (a b : num) (r : list num) :
  split_terms (a :: b :: r) =
  if num_ltb0 b then Range a (num_opp b) :: split_terms r
  else Lit a :: split_terms (b :: r).
Proof. reflexivity. Qed.

Lemma terms_floats_head (t : term) (rest : list term) :
  exists r, Constraint.terms_floats (t :: rest) = term_head t :: r.
Proof. destruct t; simpl; eauto. Qed.

Lemma split_terms_floats (vs : list term) :
  unambiguous vs = true ->
  split_terms (Constraint.terms_floats vs) = vs.
Proof.
  induction vs as [|t rest IH]; [reflexivity|].
  destruct t as [a|lo hi]; cbn [unambiguous]; intros [H1 H2]%andb_prop.
  - destruct rest as [|t' rest'].
    + reflexivity.
    + destruct (terms_floats_head t' rest') as [r Hr].
      cbn [Constraint.terms_floats] in *. rewrite Hr in *.
      rewrite split_terms_two.
      apply negb_true_iff in H1. rewrite H1. now rewrite IH.
  - cbn [Constraint.terms_floats]. rewrite split_terms_two.
    rewrite (num_opp_neg _ H1), num_opp_involutive. now rewrite IH.
Qed.

Lemma dnf_decoded_wf (c : Constraint) : wf_constraint c -> dnf_decoded c = c.
Proof.
  intros [Hv Hu]. destruct c as [v vs]; unfold dnf_decoded; simpl in *.
  now rewrite split_terms_floats, <- Hv.
Qed.

Lemma more_groups_app (out : list num) (gs : list (list Constraint)) :
  more_groups out gs =
  out ++ concat (map (fun g => PInt 0 :: group_floats g) gs).
Proof.
  revert out; induction gs as [|g gs IH]; intros out; simpl.
  - now rewrite app_nil_r.
  - rewrite IH. now rewrite <- !app_assoc.
Qed.

Lemma loop_group gs g grp rest :
  Forall wf_constraint grp ->
  loop gs g (group_floats grp ++ rest) = loop gs (g ++ grp) rest.
Proof.
  intros H; revert g; induction H as [|c grp Hc _ IH]; intros g.
  - now rewrite app_nil_r.
  - change (group_floats (c :: grp))
      with (Constraint.to_floats c ++ group_floats grp).
    rewrite <- app_assoc, loop_to_floats, (dnf_decoded_wf c Hc), IH.
    now rewrite <- app_assoc.
Qed.

Lemma loop_groups gs g rest :
  g <> [] ->
  Forall (fun g => g <> [] /\ Forall wf_constraint g) rest ->
  loop gs g (concat (map (fun g => PInt 0 :: group_floats g) rest)) =
  Ok (gs ++ g :: rest).
Proof.
  intros Hg H; revert gs g Hg; induction H as [|g1 rest [Hn Hw] _ IH];
    intros gs g Hg.
  - simpl. rewrite loop_nil. now destruct g.
  - simpl. rewrite loop_cons. simpl.
    rewrite (loop_group _ _ _ _ Hw). simpl. rewrite (IH _ _ Hn).
    destruct g; [congruence|]. simpl. now rewrite <- app_assoc.
Qed.

Lemma from_floats_to_floats (C : t) :
  wf_condition C -> from_floats (to_floats C) = Ok C.
Proof.
  destruct C as [gs]. unfold wf_condition, from_floats, to_floats. simpl.
  intros H. destruct H as [|g0 rest [Hn Hw] H].
  - rewrite loop_cons. simpl. now rewrite loop_nil.
  - rewrite more_groups_app, (loop_group _ _ _ _ Hw). simpl.
    now rewrite (loop_groups _ _ _ Hn H).
Qed.

(** C2 (amended): for every condition without an empty group, whose
    constraints are on variables as [get_var] makes them and hold
    unambiguous values (each range has a high bound above 0, no literal is
    followed by a value that begins below 0), decoding the floats of its
    encoding gives the condition back; the condition without groups encodes
    to [[0]], and [[0]] decodes to it. *)
Theorem dnf_roundtrip (C : t) :
  wf_condition C ->
  from_floats (to_floats C) = Ok C /\
  to_floats {| groups := [] |} = [PInt 0] /\
  from_floats [PInt 0] = Ok {| groups := [] |}.
Proof.
  intros H. split; [now apply from_floats_to_floats|].
  split; [reflexivity|].
  apply (from_floats_to_floats {| groups := [] |}). constructor.
Qed.

Lemma dnf_roundtrip_witness :
  wf_condition {| groups := [[c42; c42f]; [c42]] |} /\
  from_floats (to_floats {| groups := [[c42; c42f]; [c42]] |})
  = Ok {| groups := [[c42; c42f]; [c42]] |}.
Proof.
  assert (H : wf_condition {| groups := [[c42; c42f]; [c42]] |}).
  { repeat constructor; discriminate. }
  split; [exact H|].
  exact (proj1 (dnf_roundtrip {| groups := [[c42; c42f]; [c42]] |} H)).
Defined.

(** C2 as stated fails: a literal followed by a negative literal comes
    back as a range, and an empty group is lost. *)
Lemma dnf_roundtrip_counterexample :
  from_floats
    (to_floats
       {| groups := [[ {| var := get_var 1;
                          values := [Lit (PInt 3); Lit (PInt (-5))] |} ]] |})
  = Ok {| groups := [[ {| var := get_var 1;
                          values := [Range (PInt 3) (PInt 5)] |} ]] |}
  /\ from_floats (to_floats {| groups := [[]] |}) = Ok {| groups := [] |}.
Proof. split; reflexivity. Qed.

(** C4 (amended): the encoding of a constraint is [[n, varId, terms...]]
    where the count [n] is the number of floats after the count itself,
    the var id and the term floats ([n = 1 + number of term floats], one
    less than the length of the encoding), and the decoder takes exactly
    these [n + 1] floats for the constraint and goes on with what
    follows. *)
Theorem constraint_count_and_consumption (c : Constraint)
    (gs : list (list Constraint)) (g : list Constraint) (rest : list num) :
  exists n terms,
    Constraint.to_floats c = PInt n :: PInt (id (var c)) :: terms /\
    terms = Constraint.terms_floats (values c) /\
    n = 1 + Z.of_nat (length terms) /\
    Z.of_nat (length (Constraint.to_floats c)) = n + 1 /\
    loop gs g (Constraint.to_floats c ++ rest)
    = loop gs (g ++ [dnf_decoded c]) rest.
Proof.
  eexists _, _. split; [apply to_floats_shape|]. split; [reflexivity|].
  split; [lia|]. split; [rewrite to_floats_shape; simpl length; lia|].
  apply loop_to_floats.
Qed.

(** C4 as stated fails: the count of [[4, 42, 3, 5, -10]] is 4, the
    encoding has 5 floats, and the decoder takes 5 floats for each of two
    constraints that follow each other. *)
Lemma constraint_count_counterexample :
  Constraint.to_floats c42 = [PInt 4; PInt 42; PInt 3; PInt 5; PInt (-10)] /\
  length (Constraint.to_floats c42) = 5%nat /\
  from_floats (Constraint.to_floats c42 ++ Constraint.to_floats c42)
  = Ok {| groups := [[c42; c42]] |}.
Proof. repeat split; reflexivity. Qed.

(** C5: the constraint [V42 in {3, (5, 10)}] encodes to
    [[4, 42, 3, 5, -10]], and that sequence, of ints or of floats, decodes
    to a constraint on variable 42 with the values [[3, (5, 10)]]. *)
Theorem constraint_v42_scenario :
  Constraint.to_floats c42 = [PInt 4; PInt 42; PInt 3; PInt 5; PInt (-10)] /\
  from_floats [PInt 4; PInt 42; PInt 3; PInt 5; PInt (-10)]
  = Ok {| groups := [[c42]] |} /\
  from_floats [PFloat 4; PFloat 42; PFloat 3; PFloat 5; PFloat (-10)]
  = Ok {| groups := [[c42f]] |} /\
  id (var c42) = 42 /\
  values c42 = [Lit (PInt 3); Range (PInt 5) (PInt 10)].
Proof. repeat split; reflexivity. Qed.

End Conditions.

(** ** Optional fields *)

Lemma plain_zero_cases (x : num) :
  plain_zero x = true -> x = PInt 0 \/ x = PFloat 0.
Proof.
  destruct x as [z|f]; simpl.
  - intros H%Z.eqb_eq. left. now subst.
  - destruct (Prim2SF f) as [[]| | |] eqn:E; try discriminate.
    intros _. right. f_equal. apply Prim2SF_inj. now rewrite E.
Qed.

Lemma write_zero (zero : num) (stream : FpStream.t) :
  plain_zero zero = true ->
  FpStream.write (VNum zero) stream = Ok (stream ++ [PFloat 0]).
Proof. intros [->| ->]%plain_zero_cases; reflexivity. Qed.

Lemma encode_zero (f : Field) (zero : num) (stream : FpStream.t) :
  plain_zero zero = true -> takes_zero f = true ->
  encode f stream (VNum zero) = Ok (stream ++ [PFloat 0]).
Proof.
  intros Hz. induction f as [| | |enum|c| |field IH]; cbn [takes_zero encode];
    intros Hf; auto using write_zero.
  - destruct (plain_zero_cases _ Hz) as [-> | ->]; reflexivity.
  - destruct (plain_zero_cases _ Hz) as [-> | ->],
             (plain_zero_cases _ Hf) as [-> | ->]; reflexivity.
Qed.

(** C10 (amended): for every field wrapped in [Optional] that is not a
    [Constant] fixed at another value than 0 (looked for below further
    [Optional]s), encoding the present value 0 is not rejected and writes
    the single float 0 that encoding an absent value writes; decoding that
    float gives absent, so a present 0 and an absent value are the same
    after a round trip. *)
Theorem optional_zero_reads_absent (inner : Field) (zero : num)
    (stream rest : FpStream.t) :
  plain_zero zero = true ->
  takes_zero inner = true ->
  encode (Optional inner) stream (VNum zero) = Ok (stream ++ [PFloat 0]) /\
  encode (Optional inner) stream VNone = Ok (stream ++ [PFloat 0]) /\
  decode (Optional inner) (PFloat 0 :: rest) = Ok (VNone, rest).
Proof.
  intros Hz Hf. split; [|split].
  - now apply (encode_zero (Optional inner)).
  - reflexivity.
  - reflexivity.
Qed.

Lemma optional_zero_reads_absent_witness :
  encode (Optional IntValue) [] (VNum (PInt 0)) = Ok ([] ++ [PFloat 0]) /\
  encode (Optional IntValue) [] VNone = Ok ([] ++ [PFloat 0]) /\
  decode (Optional IntValue) (PFloat 0 :: []) = Ok (VNone, []).
Proof.
  apply (optional_zero_reads_absent IntValue (PInt 0) [] []); reflexivity.
Defined.

(** C10 as stated fails: an [Optional] around a [Constant] fixed at 1000
    rejects the present value 0, while it writes a 0 for an absent one. *)
Lemma optional_constant_rejects_zero :
  encode (Optional (Constant (PInt 1000))) [] (VNum (PInt 0))
  = Err ValueError /\
  encode (Optional (Constant (PInt 1000))) [] VNone = Ok [PFloat 0].
Proof. split; reflexivity. Qed.

(** ** The line-wrapping writer *)

Section Writer.

Import ParWriter.

Lemma len_append (s t : string) : len (s ++ t)%string = len s + len t.
Proof.
  unfold len. induction s as [|a s IH].
  - change ("" ++ t)%string with t. simpl. lia.
  - change (String a s ++ t)%string with (String a (s ++ t)).
    simpl in *. lia.
Qed.

Lemma len_concat_cons (x : string) (l : list string) :
  len (String.concat "" (x :: l)) = len x + len (String.concat "" l).
Proof.
  destruct l as [|y r].
  - simpl. unfold len at 3. simpl. lia.
  - change (String.concat "" (x :: y :: r))
      with (x ++ "" ++ String.concat "" (y :: r))%string.
    rewrite !len_append. unfold len at 2. simpl. lia.
Qed.

Lemma len_concat_app (l1 l2 : list string) :
  len (String.concat "" (l1 ++ l2)) =
  len (String.concat "" l1) + len (String.concat "" l2).
Proof.
  induction l1 as [|x l1 IH].
  - simpl. unfold len at 2. simpl. lia.
  - rewrite <- app_comm_cons, !len_concat_cons, IH. lia.
Qed.

Lemma len_concat_one (x : string) : len (String.concat "" [x]) = len x.
Proof. reflexivity. Qed.

Lemma columns_split (c : cursor) :
  columns c = len (String.concat "" (first_piece (first c)))
              + len (String.concat "" (line c)).
Proof. apply len_concat_app. Qed.

Lemma start_in_step (line_wrap : Z) (k : kind) (buf0 : list string) :
  in_step line_wrap (start line_wrap k buf0).
Proof.
  destruct k; unfold in_step, columns; simpl; unfold len; simpl; lia.
Qed.

Lemma add_in_step (line_wrap : Z) (c : cursor) (p : string) :
  in_step line_wrap c -> in_step line_wrap (add c p).
Proof.
  unfold in_step, add. rewrite !columns_split. intros H.
  destruct (line c) as [|t l] eqn:E; cbn [line remain first buf] in *;
    rewrite ?E, !len_concat_app, !len_concat_one.
  - change (len (String.concat "" [])) with 0 in *. lia.
  - change (len " ") with 1. lia.
Qed.

Lemma wrap_in_step (line_wrap : Z) (k : kind) (c c' : cursor) (p : string) :
  in_step line_wrap c -> wrap line_wrap k c p = Ok c' -> in_step line_wrap c'.
Proof.
  unfold wrap. destruct (must_wrap c p); [|now intros ? [= <-]].
  destruct (line c); [discriminate|]. intros _ [= <-].
  destruct k; unfold in_step, columns; simpl; unfold len; simpl; lia.
Qed.

Lemma step_in_step (line_wrap : Z) (k : kind) (c c' : cursor) (p : string) :
  in_step line_wrap c -> step line_wrap k c p = Ok c' -> in_step line_wrap c'.
Proof.
  unfold step. intros H Hs.
  destruct (wrap line_wrap k c p) as [c1|] eqn:E; [|discriminate].
  cbn in Hs. injection Hs as <-.
  eauto using add_in_step, wrap_in_step.
Qed.


Lemma add_line (c : cursor) (p : string) : line (add c p) <> [].
Proof.
  unfold add. cbn [line]. intros H%(f_equal length).
  rewrite length_app in H. simpl in H. lia.
Qed.







End Writer.

(** ** The linking pass *)

Section Linking.
Import ParEventLinks.

Lemma resolve_link_of (evs : gmap event_id event) (eid : event_id) :
  resolve evs eid = Ok (link_of evs eid).
Proof.
  unfold resolve, getitem, link_of.
  destruct (evs !! eid) as [ev|] eqn:E.
  - rewrite bool_decide_eq_true_2 by eauto. reflexivity.
  - rewrite bool_decide_eq_false_2 by (intros [? ?]; congruence). reflexivity.
Qed.

Lemma resolve_all_map (evs : gmap event_id event) (ids : list event_id) :
  resolve_all evs ids = Ok (map (link_of evs) ids).
Proof.
  induction ids as [|eid rest IH]; [reflexivity|].
  simpl. rewrite resolve_link_of, IH. reflexivity.
Qed.

Lemma link_of_dom (evs evs' : gmap event_id event) (eid : event_id) :
  dom evs' = dom evs -> link_of evs' eid = link_of evs eid.
Proof.
  intros Hd. unfold link_of.
  destruct (evs !! eid) eqn:E, (evs' !! eid) eqn:E'; try reflexivity.
  - apply not_elem_of_dom in E'. rewrite Hd in E'.
    apply not_elem_of_dom in E'. congruence.
  - apply not_elem_of_dom in E. rewrite <- Hd in E.
    apply not_elem_of_dom in E. congruence.
Qed.

Lemma link_items_spec (set : event -> list link -> event) (par : Par.t)
    (items : list (event_id * list event_id)) :
  NoDup items.*1 ->
  exists par',
    link_items set par items = Ok par' /\
    dom (Par.events par') = dom (Par.events par) /\
    forall id,
      Par.events par' !! id =
      linked set (Par.events par) (list_to_map items) id
        <$> Par.events par !! id.
Proof.
  revert par. induction items as [|[i ids] rest IH]; intros par Hnd.
  - exists par. split; [reflexivity|]. split; [reflexivity|].
    intros id. unfold linked. rewrite list_to_map_nil, lookup_empty.
    now destruct (Par.events par !! id).
  - rewrite fmap_cons in Hnd. apply NoDup_cons in Hnd as [Hi Hnd].
    cbn [fst] in Hi. cbn [link_items link_one].
    destruct (Par.events par !! i) as [ev|] eqn:E.
    + rewrite bool_decide_eq_true_2 by eauto.
      rewrite resolve_all_map. unfold getitem. rewrite E.
      cbn [mbind result_mbind result_bind].
      set (par1 := Par.with_events par _).
      assert (Hd : dom (Par.events par1) = dom (Par.events par)).
      { unfold par1. simpl. apply dom_insert_lookup_L. eauto. }
      destruct (IH par1 Hnd) as (par' & Hr & Hd' & Hl).
      exists par'. split; [exact Hr|]. split; [congruence|].
      intros id. rewrite Hl. unfold linked, par1.
      cbn [Par.events Par.with_events]. rewrite list_to_map_cons. cbn [fst snd].
      destruct (decide (id = i)) as [->|Hne].
      * rewrite !lookup_insert_eq, E. cbn.
        rewrite (not_elem_of_list_to_map_1 _ _ Hi). reflexivity.
      * rewrite !lookup_insert_ne by congruence.
        destruct (Par.events par !! id); [|reflexivity]. cbn.
        destruct (list_to_map rest !! id); [|reflexivity].
        f_equal. f_equal. apply map_ext. intros.
        apply (link_of_dom _ _ _ Hd).
    + rewrite bool_decide_eq_false_2 by (intros [? ?]; congruence).
      cbn [mbind result_mbind result_bind].
      destruct (IH par Hnd) as (par' & Hr & Hd' & Hl).
      exists par'. split; [exact Hr|]. split; [exact Hd'|].
      intros id. rewrite Hl. unfold linked.
      rewrite list_to_map_cons. cbn [fst snd].
      destruct (decide (id = i)) as [->|Hne].
      * rewrite E. reflexivity.
      * rewrite lookup_insert_ne by congruence. reflexivity.
Qed.

Lemma link_table_spec (set : event -> list link -> event) (par : Par.t)
    (table : gmap event_id (list event_id)) :
  exists par',
    link_items set par (map_to_list table) = Ok par' /\
    dom (Par.events par') = dom (Par.events par) /\
    forall id,
      Par.events par' !! id =
      linked set (Par.events par) table id <$> Par.events par !! id.
Proof.
  destruct (link_items_spec set par (map_to_list table))
    as (par' & Hr & Hd & Hl); [apply NoDup_fst_map_to_list|].
  exists par'. rewrite list_to_map_to_list in Hl. auto.
Qed.

Lemma set_comparable_ident (ev : event) (l : list link) :
  event_ident (set_comparable_events ev l) = event_ident ev.
Proof. now destruct ev. Qed.

Lemma set_precedessors_ident (ev : event) (l : list link) :
  event_ident (set_feasible_precedessors ev l) = event_ident ev.
Proof. now destruct ev. Qed.

Lemma linked_comparable_ident evs table id ev :
  event_ident (linked set_comparable_events evs table id ev) = event_ident ev.
Proof. unfold linked. destruct (table !! id); auto using set_comparable_ident. Qed.

Lemma linked_precedessors_ident evs table id ev :
  event_ident (linked set_feasible_precedessors evs table id ev)
  = event_ident ev.
Proof.
  unfold linked. destruct (table !! id); auto using set_precedessors_ident.
Qed.

Lemma linked_precedessors_comparable evs table id ev :
  comparable_events (mixin (linked set_feasible_precedessors evs table id ev))
  = comparable_events (mixin ev).
Proof. unfold linked. destruct (table !! id); now destruct ev. Qed.

(** C9: the linking pass always returns a model, with the same ids as
    before.  For an event with an entry in the table of comparable events
    or of feasible predecessors the attribute becomes the list that has,
    for each id of the entry in order, the event stored under the id when
    the model has one and a placeholder [EventRef] that carries only the
    id otherwise.  A link to an event is looked up in the linked model and
    finds the event of that id. *)
Theorem link_events_resolves (links : ParEventLinks.t) (par : Par.t) :
  exists par',
    link_events links par = Ok par' /\
    dom (Par.events par') = dom (Par.events par) /\
    (forall id ev, Par.events par !! id = Some ev ->
       exists ev',
         Par.events par' !! id = Some ev' /\
         event_ident ev' = event_ident ev /\
         (forall comp, comparable links !! id = Some comp ->
            comparable_events (mixin ev')
            = Some (map (link_of (Par.events par)) comp)) /\
         (forall prec, precedessors links !! id = Some prec ->
            feasible_precedessors (mixin ev')
            = Some (map (link_of (Par.events par)) prec))) /\
    (forall eid e, Par.events par !! eid = Some e ->
       link_of (Par.events par) eid = LinkEvent eid /\
       exists e', deref par' (LinkEvent eid) = Some e' /\
                  event_ident e' = event_ident e) /\
    (forall eid, Par.events par !! eid = None ->
       link_of (Par.events par) eid = EventRef eid /\
       deref par' (EventRef eid) = None /\
       ref_id (EventRef eid) = Some eid).
Proof.
  unfold link_events.
  destruct (link_table_spec set_comparable_events par (comparable links))
    as (par1 & Hr1 & Hd1 & Hl1).
  destruct (link_table_spec set_feasible_precedessors par1
              (precedessors links)) as (par2 & Hr2 & Hd2 & Hl2).
  rewrite Hr1. cbn [mbind result_mbind result_bind]. rewrite Hr2.
  assert (Hall : forall k e, Par.events par !! k = Some e ->
            Par.events par2 !! k =
            Some (linked set_feasible_precedessors (Par.events par1)
                    (precedessors links) k
                    (linked set_comparable_events (Par.events par)
                       (comparable links) k e))).
  { intros k e Hk. now rewrite Hl2, Hl1, Hk. }
  exists par2. split; [reflexivity|]. split; [congruence|].
  split; [|split].
  - intros id ev Hev. eexists. split; [apply (Hall _ _ Hev)|].
    split; [now rewrite linked_precedessors_ident, linked_comparable_ident|].
    split.
    + intros comp Hc. rewrite linked_precedessors_comparable.
      unfold linked. rewrite Hc. now destruct ev.
    + intros prec Hp. unfold linked at 1. rewrite Hp.
      rewrite (map_ext _ _ (fun eid => link_of_dom _ _ eid Hd1)).
      now destruct (linked _ _ _ _ _).
  - intros eid e He. split; [unfold link_of; now rewrite He|].
    eexists. split; [apply (Hall _ _ He)|].
    now rewrite linked_precedessors_ident, linked_comparable_ident.
  - intros eid He. split; [unfold link_of; now rewrite He|].
    split; reflexivity.
Qed.

Lemma link_events_resolves_witness :
  exists par' ev1' ev2',
    link_events links12 par12 = Ok par' /\
    Par.events par' !! IdNum 1 = Some ev1' /\
    comparable_events (mixin ev1')
    = Some [LinkEvent (IdNum 2); EventRef (IdNum 9)] /\
    Par.events par' !! IdNum 2 = Some ev2' /\
    feasible_precedessors (mixin ev2')
    = Some [EventRef (IdNum 7); LinkEvent (IdNum 1)].
Proof.
  destruct (link_events_resolves links12 par12) as (par' & Hr & _ & He & _).
  destruct (He (IdNum 1) ev1 eq_refl) as (ev1' & Hl1 & _ & Hc1 & _).
  destruct (He (IdNum 2) ev2 eq_refl) as (ev2' & Hl2 & _ & _ & Hp2).
  exists par', ev1', ev2'. split; [exact Hr|].
  split; [exact Hl1|]. split; [exact (Hc1 _ eq_refl)|].
  split; [exact Hl2|]. exact (Hp2 _ eq_refl).
Defined.

End Linking.

(** ** Reading physical records *)

Section MsbReading.
Import Struct Msb.

Lemma read_records_eq f nr nv recs fp :
  read_records f nr nv recs fp =
  if nr <? nv then
    match read_logical f fp with
    | Err e => Err e
    | Ok (sz, r, fp') => read_records f (nr + sz + 2) nv (recs ++ [r]) fp'
    end
  else Ok (recs, fp).
Proof.
  simp read_records. destruct (nr <? nv); simpl; [|reflexivity].
  destruct (read_logical f fp) as [[[sz r] fp']|e]; reflexivity.
Qed.


Lemma read_short (sz : Z) (fp : list Byte.byte) :
  (length fp < Z.to_nat sz)%nat -> _read sz fp = Err MsbEof.
Proof.
  intros Hl. unfold _read, fp_read.
  destruct (sz <? -1) eqn:E1; [apply Z.ltb_lt in E1; lia|].
  destruct (sz =? -1) eqn:E2; [apply Z.eqb_eq in E2; lia|].
  cbn [mbind result_mbind result_bind]. rewrite length_take.
  destruct (_ <? sz) eqn:E3; [reflexivity|apply Z.ltb_ge in E3; lia].
Qed.





















Lemma read_int_short (f : MsbFormat) (fp : list Byte.byte) :
  (length fp < int_size (int_type f))%nat -> read_int f fp = Err MsbEof.
Proof.
  intros H. unfold read_int. rewrite read_short by (rewrite Nat2Z.id; lia).
  reflexivity.
Qed.


Lemma read_physical_record_short (f : MsbFormat) (fp : list Byte.byte) :
  (length fp < int_size (int_type f))%nat ->
  read_physical_record f fp = Ok (None, []).
Proof.
  intros H. unfold read_physical_record. now rewrite read_int_short.
Qed.







(** ** Logical records of an unknown type *)

(** C1: what the code does for a type tag other than 1.  The class
    [MsbLogicalRecord] has no [__init__] that takes the tag and the
    payload, so [from_floats] raises [TypeError] where an opaque record
    was to be made. *)
Theorem from_floats_unknown_type (typ : Z) (args : list num) :
  typ <> 1 -> from_floats typ args = Err TypeError.
Proof.
  intros H. unfold from_floats.
  destruct (typ =? 1) eqn:E; [apply Z.eqb_eq in E; contradiction|].
  reflexivity.
Qed.

Lemma from_floats_unknown_type_witness :
  from_floats 2 [PFloat 1.5] = Err TypeError.
Proof. apply from_floats_unknown_type. discriminate. Defined.


End MsbReading.

(** ** Records of fields *)

Section Records.

Lemma write_one (v : pyval) (s s' : FpStream.t) :
  FpStream.write v s = Ok s' -> exists x, s' = s ++ [PFloat x].
Proof.
  unfold FpStream.write. intros H. inv_binds. injection H as <-. eauto.
Qed.

Lemma encode_one (f : Field) (v : pyval) (s s' : FpStream.t) :
  encode f s v = Ok s' -> exists x, s' = s ++ [PFloat x].
Proof.
  revert v; induction f as [| | |enum|c| |g IH]; intros v; cbn [encode];
    eauto using write_one.
  - destruct v; [|destruct (pyval_neb _ _)..]; eauto using write_one;
      discriminate.
  - destruct v; eauto using write_one.
Qed.

Lemma encode_fields_app (fields : list (string * Field))
    (r : gmap string pyval) (s s' : FpStream.t) :
  Record.encode_fields fields r s = Ok s' ->
  exists buf, s' = s ++ buf /\ length buf = length fields /\
    Forall (fun x => exists y, x = PFloat y) buf.
Proof.
  revert s; induction fields as [|[n f] fields IH]; intros s; cbn.
  - intros [= <-]. exists []. now rewrite app_nil_r.
  - intros H. inv_bind H. apply encode_one in E as [y ->].
    apply IH in H as (buf & -> & Hl & Hf).
    exists (PFloat y :: buf). rewrite <- app_assoc. cbn.
    repeat split; eauto.
Qed.

Lemma to_floats_length (fields : list (string * Field))
    (r : gmap string pyval) (buf : list num) :
  Record.to_floats fields r = Ok buf ->
  length buf = length fields /\
  Forall (fun x => exists y, x = PFloat y) buf.
Proof.
  unfold Record.to_floats. intros H.
  apply encode_fields_app in H as (b & -> & Hl & Hf). now cbn.
Qed.

(** X5: every field writes one float: a record is written as one float per
    field of its schema, whatever its attributes are, and what is written
    holds floats only. *)
Theorem to_floats_one_per_field (fields : list (string * Field))
    (r : gmap string pyval) (buf : list num) :
  Record.to_floats fields r = Ok buf ->
  length buf = length fields /\
  Forall (fun x => exists y, x = PFloat y) buf.
Proof. apply to_floats_length. Qed.

Lemma next_one (s s' : FpStream.t) (x : num) :
  FpStream.next false s = Ok (x, s') -> s = x :: s'.
Proof. destruct s; cbn; intros [=]; now subst. Qed.

Lemma nextint_one (s s' : FpStream.t) (i : Z) :
  FpStream.nextint false s = Ok (i, s') -> exists x, s = x :: s'.
Proof.
  unfold FpStream.nextint. intros H. inv_binds.
  destruct (negb _); [discriminate|]. injection H as <- <-.
  apply next_one in E. eauto.
Qed.

Lemma decode_one (f : Field) (s s' : FpStream.t) (v : pyval) :
  decode f s = Ok (v, s') -> exists x, s = x :: s'.
Proof.
  induction f as [| | |enum|c| |g IH]; cbn [decode]; intros H.
  - inv_binds. injection H as <- <-. apply next_one in E. eauto.
  - inv_binds. injection H as <- <-. eapply nextint_one; eauto.
  - inv_binds. injection H as <- <-. apply next_one in E. eauto.
  - inv_binds. injection H as <- <-. apply next_one in E. eauto.
  - inv_binds. destruct (negb _); [discriminate|]. injection H as <- <-.
    apply next_one in E. eauto.
  - inv_binds. injection H as <- <-. apply next_one in E. eauto.
  - inv_bind H. destruct (num_eqb _ _); [|auto].
    inv_binds. injection H as <- <-. apply next_one in E0. eauto.
Qed.

Lemma decode_fields_inv (fields : list (string * Field))
    (r0 r : gmap string pyval) (s s' : FpStream.t) :
  Record.decode_fields fields r0 s = Ok (r, s') ->
  exists used, s = used ++ s' /\ length used = length fields.
Proof.
  revert r0 s; induction fields as [|[n f] fields IH]; intros r0 s; cbn.
  - intros [= <- <-]. now exists [].
  - destruct (decode f s) as [[v s1]|] eqn:E; [|discriminate].
    intros H. apply decode_one in E as [x ->].
    apply IH in H as (used & -> & Hl). exists (x :: used). cbn. auto.
Qed.

Lemma to_floats_one_per_field_witness :
  length (floats_of Control_fields control3) = length Control_fields /\
  Forall (fun x => exists y, x = PFloat y)
    (floats_of Control_fields control3).
Proof.
  apply (to_floats_one_per_field Control_fields control3).
  vm_compute. reflexivity.
Defined.

(** X6: every field reads one float: decoding a record takes one float per
    field off the stream and leaves the floats after them. *)
Theorem decode_one_per_field (fields : list (string * Field))
    (r0 r : gmap string pyval) (s s' : FpStream.t) :
  Record.decode_fields fields r0 s = Ok (r, s') ->
  s' = drop (length fields) s /\ (length fields <= length s)%nat.
Proof.
  intros H. apply decode_fields_inv in H as (used & -> & Hl).
  rewrite <- Hl, drop_app_length, length_app. split; [reflexivity|lia].
Qed.

Lemma decode_one_per_field_witness :
  [PFloat 9] = drop (length Output_fields)
                 (floats_of Output_fields output1 ++ [PFloat 9]) /\
  (length Output_fields
   <= length (floats_of Output_fields output1 ++ [PFloat 9]))%nat.
Proof.
  apply (decode_one_per_field Output_fields ∅ output1
           (floats_of Output_fields output1 ++ [PFloat 9]) [PFloat 9]).
  vm_compute. reflexivity.
Defined.

Lemma decode_fields_err (fields : list (string * Field))
    (r0 : gmap string pyval) (s : FpStream.t) (e : exn) :
  Record.decode_fields fields r0 s = Err e -> e = ValueError.
Proof.
  revert r0 s; induction fields as [|[n f] fields IH]; intros r0 s; cbn.
  - discriminate.
  - destruct (decode f s) as [[v s1]|]; [apply IH|now intros [= <-]].
Qed.

(** X7: the failures of decoding: whatever a field raises, the record raises
    [ValueError]; and it does so when the stream holds fewer floats than
    the schema has fields. *)
Theorem decode_fields_errors (fields : list (string * Field))
    (r0 : gmap string pyval) (s : FpStream.t) :
  (forall e, Record.decode_fields fields r0 s = Err e -> e = ValueError) /\
  ((length s < length fields)%nat ->
   Record.decode_fields fields r0 s = Err ValueError).
Proof.
  split; [intros e; apply decode_fields_err|].
  intros Hl.
  destruct (Record.decode_fields fields r0 s) as [[r s']|e] eqn:E.
  - apply decode_fields_inv in E as (used & -> & Hu).
    rewrite length_app in Hl. lia.
  - f_equal. eapply decode_fields_err, E.
Qed.


(** *** Writing and reading back *)

Lemma sf_eqb_Z_trunc (x : spec_float) (z : Z) :
  sf_eqb_Z x z = true -> sf_trunc x = Ok z.
Proof.
  destruct x as [s|s| |s m e]; cbn; try discriminate.
  - intros H%Z.eqb_eq. now subst.
  - destruct (0 <=? e).
    + intros H%Z.eqb_eq. now subst.
    + intros [_ H%Z.eqb_eq]%andb_prop. now subst.
Qed.

Lemma sf_eqb_Z_inj (x : spec_float) (z z' : Z) :
  sf_eqb_Z x z = true -> sf_eqb_Z x z' = true -> z = z'.
Proof.
  intros H%sf_eqb_Z_trunc H'%sf_eqb_Z_trunc. congruence.
Qed.

Lemma exact_int_write (z : Z) (s : FpStream.t) :
  exact_int z = true ->
  exists x,
    FpStream.write (VNum (PInt z)) s = Ok (s ++ [PFloat x]) /\
    sf_eqb_Z (Prim2SF x) z = true.
Proof.
  unfold exact_int, FpStream.write. cbn.
  destruct (float_of_Z z) as [x|]; [|discriminate]. intros H.
  exists x. now cbn.
Qed.

Lemma nextint_exact (x : float) (z : Z) (rest : FpStream.t) :
  sf_eqb_Z (Prim2SF x) z = true ->
  FpStream.nextint false (PFloat x :: rest) = Ok (z, rest).
Proof.
  intros H. unfold FpStream.nextint. cbn.
  rewrite (sf_eqb_Z_trunc _ _ H). cbn. now rewrite H.
Qed.

Lemma eq0_exact (x : float) (z : Z) :
  sf_eqb_Z (Prim2SF x) z = true ->
  num_eqb (PFloat x) (PInt 0) = (z =? 0).
Proof.
  intros H. cbn. destruct (sf_eqb_Z (Prim2SF x) 0) eqn:E.
  - rewrite (sf_eqb_Z_inj _ _ _ H E). reflexivity.
  - destruct (z =? 0) eqn:Ez; [|reflexivity].
    apply Z.eqb_eq in Ez. subst. congruence.
Qed.

Lemma find_exact (x : float) (z : Z) (enum : list Z) :
  sf_eqb_Z (Prim2SF x) z = true -> z ∈ enum ->
  enum_call enum (PFloat x) = Ok (VNum (PInt z)).
Proof.
  intros H Hin. unfold enum_call.
  induction Hin as [z l|z y l Hin IH]; cbn.
  - now rewrite H.
  - destruct (sf_eqb_Z (Prim2SF x) y) eqn:E; [|exact (IH H)].
    now rewrite (sf_eqb_Z_inj _ _ _ H E).
Qed.

(** A value that a field keeps is written as one float, read back as it
    is, and written as 0 exactly when it equals 0. *)
Lemma field_keeps_roundtrip (f : Field) (v : pyval) (s : FpStream.t) :
  field_keeps f v = true ->
  exists x,
    encode f s v = Ok (s ++ [PFloat x]) /\
    (forall rest, decode f (PFloat x :: rest) = Ok (v, rest)) /\
    num_eqb (PFloat x) (PInt 0) = negb (pyval_neb v (PInt 0)) /\
    v <> VNone.
Proof.
  induction f as [| | |enum|c| |g IH]; cbn [field_keeps]; intros H;
    try discriminate.
  - destruct v as [|b|[z|y]]; try discriminate.
    exists y. repeat split; try reflexivity; try discriminate.
    cbn. now rewrite negb_involutive.
  - destruct v as [|b|[z|y]]; try discriminate.
    destruct (exact_int_write z s H) as (x & Hw & Hx).
    exists x. repeat split; try discriminate.
    + exact Hw.
    + intros rest. cbn [decode]. rewrite (nextint_exact _ _ _ Hx).
      reflexivity.
    + rewrite (eq0_exact _ _ Hx). unfold pyval_neb. cbn.
      now rewrite negb_involutive.
  - destruct v as [|b|n]; try discriminate.
    destruct b; [exists 1%float|exists 0%float];
      repeat split; try reflexivity; discriminate.
  - destruct v as [|b|[z|y]]; try discriminate.
    apply andb_prop in H as [H Hin]. apply bool_decide_eq_true in Hin.
    destruct (exact_int_write z s H) as (x & Hw & Hx).
    exists x. repeat split; try discriminate.
    + exact Hw.
    + intros rest. cbn. now rewrite (find_exact _ _ _ Hx Hin).
    + rewrite (eq0_exact _ _ Hx). unfold pyval_neb. cbn.
      now rewrite negb_involutive.
  - apply andb_prop in H as [H Hv].
    destruct (IH H) as (x & Hw & Hr & H0 & Hn).
    exists x. repeat split; try assumption.
    + cbn [encode]. destruct v; [congruence|exact Hw..].
    + intros rest. cbn [decode]. cbn [FpStream.next mbind result_mbind result_bind].
      rewrite H0.
      rewrite Hv. cbn. apply Hr.
Qed.

(** A field whose attribute is unset writes one float for it and reads
    [None] back. *)
Lemma field_absent_roundtrip (f : Field) (s : FpStream.t) :
  field_absent f = true ->
  exists x,
    encode f s VNone = Ok (s ++ [PFloat x]) /\
    forall rest, decode f (PFloat x :: rest) = Ok (VNone, rest).
Proof.
  destruct f as [| | |enum|c| |g]; cbn [field_absent]; try discriminate.
  - unfold exact_num. destruct (py_float c) as [x|] eqn:E; [|discriminate].
    intros H. exists x. split.
    + cbn. rewrite E. reflexivity.
    + intros rest. cbn [decode FpStream.next mbind result_mbind result_bind].
      now rewrite H.
  - intros _. exists 0%float. split; reflexivity.
  - intros _. exists 0%float. split; reflexivity.
Qed.

Lemma encode_decode_fields (fields : list (string * Field))
    (r : gmap string pyval) :
  Forall (fun nf => match r !! nf.1 with
                    | Some v => field_keeps nf.2 v
                    | None => field_absent nf.2
                    end = true) fields ->
  forall s, exists buf,
    Record.encode_fields fields r s = Ok (s ++ buf) /\
    forall r0 rest,
      Record.decode_fields fields r0 (buf ++ rest)
      = Ok (kept_attrs fields r r0, rest).
Proof.
  induction 1 as [|[n f] fields Hf _ IH]; intros s.
  - exists []. split; [cbn; now rewrite app_nil_r|reflexivity].
  - cbn [fst snd] in Hf. cbn [Record.encode_fields Record.decode_fields].
    unfold Record.getattr.
    destruct (r !! n) as [v|] eqn:En; cbn [from_option]; unfold Datatypes.id.
    + destruct (field_keeps_roundtrip f v s Hf) as (x & Hw & Hr & _ & Hn).
      rewrite Hw. cbn [mbind result_mbind result_bind].
      destruct (IH (s ++ [PFloat x])) as (buf & Hws & Hrs).
      exists (PFloat x :: buf). split.
      * rewrite Hws. now rewrite <- app_assoc.
      * intros r0 rest. cbn [app]. rewrite Hr, Hrs.
        cbn [kept_attrs foldl fst]. rewrite En.
        destruct v; [congruence|reflexivity..].
    + destruct (field_absent_roundtrip f s Hf) as (x & Hw & Hr).
      rewrite Hw. cbn [mbind result_mbind result_bind].
      destruct (IH (s ++ [PFloat x])) as (buf & Hws & Hrs).
      exists (PFloat x :: buf). split.
      * rewrite Hws. now rewrite <- app_assoc.
      * intros r0 rest. cbn [app]. rewrite Hr, Hrs.
        cbn [kept_attrs foldl fst]. now rewrite En.
Qed.

Lemma kept_attrs_lookup (fields : list (string * Field))
    (r r0 : gmap string pyval) (i : string) :
  kept_attrs fields r r0 !! i
  = match r !! i with
    | Some v => if bool_decide (i ∈ fields.*1) then Some v else r0 !! i
    | None => r0 !! i
    end.
Proof.
  revert r0; induction fields as [|[n f] fields IH]; intros r0.
  - cbn. now destruct (r !! i).
  - change (kept_attrs ((n, f) :: fields) r r0)
      with (kept_attrs fields r
              (match r !! n with Some v => <[n := v]> r0 | None => r0 end)).
    cbn [fst fmap list_fmap]. rewrite IH. destruct (r !! i) as [v|] eqn:Ei.
    + destruct (decide (i = n)) as [->|Hne].
      * rewrite Ei, lookup_insert_eq.
        rewrite (bool_decide_eq_true_2 (n ∈ n :: fields.*1)) by left.
        now destruct (bool_decide _).
      * assert (Hin : bool_decide (i ∈ n :: fields.*1)
                      = bool_decide (i ∈ fields.*1)).
        { apply bool_decide_ext. rewrite elem_of_cons.
          split; [intros [?|?]; [congruence|assumption]|auto]. }
        rewrite Hin. destruct (bool_decide _); [reflexivity|].
        destruct (r !! n); [now rewrite lookup_insert_ne|reflexivity].
    + destruct (r !! n) as [w|] eqn:En; [|reflexivity].
      rewrite lookup_insert_ne; [reflexivity|]. intros ->. congruence.
Qed.

Lemma kept_attrs_all (fields : list (string * Field))
    (r : gmap string pyval) :
  map_Forall (fun n _ => n ∈ fields.*1) r ->
  kept_attrs fields r ∅ = r.
Proof.
  intros Hdom. apply map_eq. intros i. rewrite kept_attrs_lookup.
  destruct (r !! i) as [v|] eqn:Ei; [|apply lookup_empty].
  now rewrite (bool_decide_eq_true_2 _ (Hdom _ _ Ei)).
Qed.

Lemma record_roundtrip_gen (fields : list (string * Field))
    (r : gmap string pyval) :
  record_keeps fields r ->
  exists buf,
    Record.to_floats fields r = Ok buf /\
    Forall (fun x => exists y, x = PFloat y) buf /\
    forall rest, Record.decode fields None (buf ++ rest) = Ok (r, rest).
Proof.
  intros [Hdom Hf].
  destruct (encode_decode_fields fields r Hf []) as (buf & Hw & Hr).
  exists buf. split; [exact Hw|].
  split; [apply (to_floats_length _ _ _ Hw)|]. intros rest.
  unfold Record.decode. rewrite Hr. now rewrite kept_attrs_all.
Qed.

(** X8: a record that its schema keeps is written, and what was written is
    read back as the record itself, whatever floats follow; the floats
    that follow are left on the stream. *)
Theorem record_roundtrip (fields : list (string * Field))
    (r : gmap string pyval) :
  record_keeps fields r ->
  exists buf,
    Record.to_floats fields r = Ok buf /\
    forall rest,
      Record.decode fields None (buf ++ rest) = Ok (r, rest) /\
      Record.from_floats fields None (buf ++ rest) = Ok r.
Proof.
  intros H. destruct (record_roundtrip_gen _ _ H) as (buf & Hw & _ & Hd).
  exists buf. split; [exact Hw|]. intros rest.
  split; [apply Hd|]. unfold Record.from_floats. now rewrite Hd.
Qed.

Lemma record_roundtrip_witness :
  exists buf,
    Record.to_floats Rsd.RsdTree_fields tree1 = Ok buf /\
    forall rest,
      Record.decode Rsd.RsdTree_fields None (buf ++ rest) = Ok (tree1, rest) /\
      Record.from_floats Rsd.RsdTree_fields None (buf ++ rest) = Ok tree1.
Proof.
  apply (record_roundtrip Rsd.RsdTree_fields tree1). split.
  - apply (bool_decide_unpack _). vm_compute. exact I.
  - apply Forall_fold_right. vm_compute. tauto.
Defined.

(** *** What is checked *)

Lemma nextint_inv (x : num) (s s' : FpStream.t) (i : Z) :
  FpStream.nextint false (x :: s) = Ok (i, s') <->
  num_eqb x (PInt i) = true /\ s' = s.
Proof.
  unfold FpStream.nextint. cbn [FpStream.next mbind result_mbind result_bind].
  split.
  - intros H. inv_bind H. destruct (num_eqb x (PInt x0)) eqn:En;
      [|discriminate]. cbn in H. injection H as <- <-. auto.
  - intros [H ->]. destruct x as [z|y]; cbn in H |- *.
    + apply Z.eqb_eq in H. subst. now rewrite Z.eqb_refl.
    + rewrite (sf_eqb_Z_trunc _ _ H). cbn. now rewrite H.
Qed.

(** X9: [nextint] reads an int off a stream exactly when the float at its
    head equals that int, and then takes that float alone; every other
    head, and the empty stream, is refused.  *)
Theorem nextint_reads_equal_int (x : num) (s s' : FpStream.t) (i : Z) :
  (FpStream.nextint false (x :: s) = Ok (i, s') <->
   num_eqb x (PInt i) = true /\ s' = s) /\
  FpStream.nextint false [] = Err ValueError /\
  ((forall j, num_eqb x (PInt j) = false) ->
   is_ok (FpStream.nextint false (x :: s)) = false).
Proof.
  split; [apply nextint_inv|]. split; [reflexivity|]. intros Hx.
  destruct (FpStream.nextint false (x :: s)) as [[j t]|] eqn:E;
    [|reflexivity].
  apply nextint_inv in E as [E _]. now rewrite Hx in E.
Qed.

Lemma decode_constant_inv (c : num) (s s' : FpStream.t) (v : pyval) :
  decode (Constant c) s = Ok (v, s') ->
  exists x, s = x :: s' /\ num_eqb x c = true.
Proof.
  cbn [decode]. intros H. inv_bind H.
  destruct (num_eqb n c) eqn:En; [|discriminate]. cbn in H.
  injection H as <- <-. apply next_one in E. eauto.
Qed.

(** X10: the constants of a schema are checked where they stand: when a
    record is decoded, the float at the place of every [Constant] field
    equals the constant of the field. *)
Theorem decode_checks_constants (fields : list (string * Field))
    (r0 r : gmap string pyval) (s s' : FpStream.t) :
  Record.decode_fields fields r0 s = Ok (r, s') ->
  forall (i : nat) (n : string) (c : num),
    fields !! i = Some (n, Constant c) ->
    exists x, s !! i = Some x /\ num_eqb x c = true.
Proof.
  revert r0 s; induction fields as [|[n0 f] fields IH]; intros r0 s H i n c;
    [discriminate|].
  cbn [Record.decode_fields] in H.
  destruct (decode f s) as [[v s1]|] eqn:E; [|discriminate].
  destruct i as [|i]; cbn [lookup list_lookup].
  - intros [= -> ->].
    apply decode_constant_inv in E as (x & -> & Hx). eauto.
  - intros Hi. apply decode_one in E as [x ->].
    cbn [lookup list_lookup]. eapply IH; eauto.
Qed.

Lemma decode_checks_constants_witness :
  exists x,
    (floats_of Control_fields control3) !! 4%nat = Some x /\
    num_eqb x (PInt 1000) = true.
Proof.
  apply (fun H => decode_checks_constants Control_fields ∅ control3
                    (floats_of Control_fields control3) [] H
                    4%nat "_5"%string (PInt 1000) eq_refl).
  vm_compute. reflexivity.
Defined.

End Records.

(** ** RSD records *)

Section RsdRecords.
Import Rsd.

Lemma reads_as_int (z : Z) : reads_as (PInt z) z.
Proof.
  intros s. unfold FpStream.nextint. cbn. now rewrite Z.eqb_refl.
Qed.

Lemma reads_as_float (z : Z) :
  exact_int z = true -> reads_as (as_float (PInt z)) z.
Proof.
  unfold exact_int, as_float. cbn.
  destruct (float_of_Z z) as [x|]; [|discriminate].
  intros H s. now apply nextint_exact.
Qed.

Lemma as_float_floats (buf : list num) :
  Forall (fun x => exists y, x = PFloat y) buf -> map as_float buf = buf.
Proof.
  induction 1 as [|x l [y ->] _ IH]; [reflexivity|]. cbn. now rewrite IH.
Qed.

Lemma decode_all_fields (fields : list (string * Field)) (z : Z)
    (stream : FpStream.t) :
  z = Z.of_nat (length fields) ->
  Record.decode fields (Some (slice_to z fields)) stream
  = Record.decode fields None stream.
Proof.
  intros ->. unfold Record.decode, slice_to, slice_index.
  destruct (_ <? 0) eqn:E; [apply Z.ltb_lt in E; lia|].
  rewrite Z.max_r, Z.min_id, Nat2Z.id, firstn_all by lia.
  now destruct fields.
Qed.

Lemma decode_no_fields (fields : list (string * Field))
    (stream : FpStream.t) :
  Record.decode fields (Some (slice_to 0 fields)) stream
  = Record.decode fields None stream.
Proof.
  unfold Record.decode, slice_to, slice_index.
  change (0 <? 0) with false. cbn match.
  rewrite Z.max_id, Z.min_r, take_0 by lia. reflexivity.
Qed.

Lemma trees_roundtrip (ts : list (gmap string pyval)) :
  Forall (record_keeps RsdTree_fields) ts ->
  exists buf,
    trees_to_floats ts = Ok buf /\
    Forall (fun x => exists y, x = PFloat y) buf /\
    forall rest,
      decode_trees (length ts) (slice_to 17 RsdTree_fields) (buf ++ rest)
      = Ok (ts, rest).
Proof.
  induction 1 as [|t ts Ht _ IH].
  - exists []. repeat split; auto.
  - destruct (record_roundtrip_gen _ _ Ht) as (b & Hw & Hf & Hr).
    destruct IH as (buf & Hws & Hfs & Hrs).
    exists (b ++ buf). cbn [trees_to_floats length decode_trees].
    rewrite Hw, Hws. split; [reflexivity|].
    split; [now apply Forall_app|]. intros rest.
    rewrite decode_all_fields by reflexivity.
    rewrite <- app_assoc, Hr. cbn [mbind result_mbind result_bind].
    now rewrite Hrs.
Qed.

Lemma trees_to_floats_length (ts : list (gmap string pyval))
    (buf : list num) :
  trees_to_floats ts = Ok buf -> length buf = (17 * length ts)%nat.
Proof.
  revert buf; induction ts as [|t ts IH]; intros buf;
    cbn [trees_to_floats].
  - now intros [= <-].
  - intros H. inv_binds. injection H as <-.
    apply to_floats_length in E as [E _].
    rewrite length_app, E, (IH _ eq_refl).
    change (length RsdTree_fields) with 17%nat. cbn [length]. lia.
Qed.

Lemma rsd_roundtrip_gen (r : RsdInitialDataRecord) (h1 h2 h3 : num) :
  rsd_keeps r ->
  reads_as h1 34 -> reads_as h2 (Z.of_nat (length (trees r))) ->
  reads_as h3 17 ->
  exists p ts,
    to_floats r
    = Ok (PInt 34 :: p ++ PInt (Z.of_nat (length (trees r))) :: PInt 17 :: ts)
    /\ length p = 34%nat /\ length ts = (17 * length (trees r))%nat /\
    Forall (fun x => exists y, x = PFloat y) (p ++ ts) /\
    forall rest, from_floats (h1 :: p ++ h2 :: h3 :: ts ++ rest) = Ok r.
Proof.
  intros [Hp Ht] H1 H2 H3.
  destruct (record_roundtrip_gen _ _ Hp) as (p & Hw & Hf & Hr).
  destruct (trees_roundtrip _ Ht) as (ts & Hws & Hfs & Hrs).
  exists p, ts. unfold to_floats. rewrite Hw, Hws.
  split; [reflexivity|].
  split; [apply (to_floats_length _ _ _ Hw)|].
  split; [apply (trees_to_floats_length _ _ Hws)|].
  split; [now apply Forall_app|]. intros rest.
  unfold from_floats. rewrite H1. cbn [mbind result_mbind result_bind].
  change (Z.of_nat (length RsdSamplePlot_fields) <? 34) with false.
  cbn match. rewrite decode_all_fields by reflexivity.
  rewrite Hr. cbn [mbind result_mbind result_bind].
  rewrite H2. cbn [mbind result_mbind result_bind].
  rewrite H3. cbn [mbind result_mbind result_bind].
  rewrite Nat2Z.id, Hrs. cbn [mbind result_mbind result_bind].
  now destruct r.
Qed.

(** X11: an RSD record whose plot and trees their schemas keep is written
    as 37 floats and 17 more for each tree, and is read back as it is from
    what was written, whatever floats follow. *)
Theorem rsd_roundtrip (r : RsdInitialDataRecord) :
  rsd_keeps r ->
  exists buf,
    to_floats r = Ok buf /\
    length buf = (37 + 17 * length (trees r))%nat /\
    forall rest, from_floats (buf ++ rest) = Ok r.
Proof.
  intros Hr.
  destruct (rsd_roundtrip_gen r _ _ _ Hr (reads_as_int _) (reads_as_int _)
              (reads_as_int _)) as (p & ts & Hw & Hlp & Hlt & _ & Hrd).
  eexists. split; [exact Hw|]. split.
  - cbn [length]. rewrite length_app. cbn [length]. rewrite Hlp, Hlt. lia.
  - intros rest. cbn [app]. rewrite <- app_assoc. cbn [app]. apply Hrd.
Qed.

Lemma rsd_roundtrip_witness :
  exists buf,
    to_floats (rsd1 0.25) = Ok buf /\
    length buf = (37 + 17 * length (trees (rsd1 0.25)))%nat /\
    forall rest, from_floats (buf ++ rest) = Ok (rsd1 0.25).
Proof.
  apply (rsd_roundtrip (rsd1 0.25)). split.
  - split.
    + apply (bool_decide_unpack _). vm_compute. exact I.
    + apply Forall_fold_right. vm_compute. tauto.
  - constructor; [|constructor]. split.
    + apply (bool_decide_unpack _). vm_compute. exact I.
    + apply Forall_fold_right. vm_compute. tauto.
Defined.

(** X12: the layout of a written RSD record: 37 floats and 17 more for each
    tree, with the count 34 of the plot fields first, and the number of
    trees and the count 17 of the tree fields after the 34 plot floats. *)
Theorem rsd_to_floats_layout (r : RsdInitialDataRecord) (buf : list num) :
  to_floats r = Ok buf ->
  length buf = (37 + 17 * length (trees r))%nat /\
  buf !! 0%nat = Some (PInt 34) /\
  buf !! 35%nat = Some (PInt (Z.of_nat (length (trees r)))) /\
  buf !! 36%nat = Some (PInt 17).
Proof.
  unfold to_floats. intros H. inv_binds. injection H as <-.
  apply to_floats_length in E as [E _].
  apply trees_to_floats_length in E0.
  change (length RsdSamplePlot_fields) with 34%nat in *.
  split; [cbn [length]; rewrite length_app; cbn [length]; lia|].
  split; [reflexivity|].
  rewrite !app_comm_cons.
  rewrite !lookup_app_r by (cbn [length]; lia).
  cbn [length]. rewrite E. split; reflexivity.
Qed.

Lemma rsd_to_floats_layout_witness :
  length (match to_floats (rsd1 0.25) with Ok b => b | Err _ => [] end)
  = (37 + 17 * length (trees (rsd1 0.25)))%nat /\
  match to_floats (rsd1 0.25) with Ok b => b | Err _ => [] end !! 0%nat
  = Some (PInt 34) /\
  match to_floats (rsd1 0.25) with Ok b => b | Err _ => [] end !! 35%nat
  = Some (PInt (Z.of_nat (length (trees (rsd1 0.25))))) /\
  match to_floats (rsd1 0.25) with Ok b => b | Err _ => [] end !! 36%nat
  = Some (PInt 17).
Proof.
  apply (rsd_to_floats_layout (rsd1 0.25)). vm_compute. reflexivity.
Defined.

(** *** Counts and floats that are not checked *)

Lemma from_floats_head (h : num) (z : Z) (rest : list num) :
  reads_as h z ->
  from_floats (h :: rest)
  = if (Z.of_nat (length RsdSamplePlot_fields) <? z)%Z then Err ValueError
    else
      '(p, stream) ← Record.decode RsdSamplePlot_fields
                       (Some (slice_to z RsdSamplePlot_fields)) rest;
      '(nt, stream) ← FpStream.nextint false stream;
      '(ntv, stream) ← FpStream.nextint false stream;
      '(ts, _) ← decode_trees (Z.to_nat nt) (slice_to ntv RsdTree_fields)
                   stream;
      Ok {| plot := p; trees := ts |}.
Proof. intros H. unfold from_floats. rewrite H. reflexivity. Qed.

(** X13: a count of 0 fields selects the whole schema: a record whose plot
    count is 0 is read as one whose count is 34, and trees whose field
    count is 0 are read as trees of 17 fields. *)
Theorem rsd_zero_count_reads_all (rest : list num) (nt : nat)
    (stream : FpStream.t) :
  from_floats (PFloat 0 :: rest) = from_floats (PFloat 34 :: rest) /\
  decode_trees nt (slice_to 0 RsdTree_fields) stream
  = decode_trees nt (slice_to 17 RsdTree_fields) stream.
Proof.
  split.
  - rewrite (from_floats_head _ 0 rest
               (fun s => nextint_exact 0%float 0 s eq_refl)).
    rewrite (from_floats_head _ 34 rest
               (fun s => nextint_exact 34%float 34 s eq_refl)).
    rewrite decode_no_fields.
    rewrite decode_all_fields by reflexivity.
    replace (Z.of_nat (length RsdSamplePlot_fields) <? 0)
      with false by reflexivity.
    replace (Z.of_nat (length RsdSamplePlot_fields) <? 34)
      with false by reflexivity.
    reflexivity.
  - revert stream; induction nt as [|nt IH]; intros stream; [reflexivity|].
    cbn [decode_trees]. rewrite decode_no_fields.
    rewrite decode_all_fields by reflexivity.
    destruct (Record.decode _ _ stream) as [[t s']|]; [|reflexivity].
    cbn [mbind result_mbind result_bind]. now rewrite IH.
Qed.

Lemma slice_to_negative {A} (l : list A) (k : Z) :
  0 < k < Z.of_nat (length l) ->
  slice_to (- k) l = slice_to (Z.of_nat (length l) - k) l.
Proof.
  intros Hk. unfold slice_to, slice_index.
  destruct (- k <? 0) eqn:E1; [|apply Z.ltb_ge in E1; lia].
  destruct (_ - k <? 0) eqn:E2; [apply Z.ltb_lt in E2; lia|].
  f_equal. f_equal. lia.
Qed.

(** X23: the plot count is held against the schema from above only: a count
    above 34 is refused with [ValueError], while a negative count is not
    refused; as the bound of a slice, a count of [-k] selects all but the
    last [k] plot fields, so that the buffer is read as one whose count is
    [34 - k]. *)
Theorem rsd_plot_count_bounds (h : num) (z k : Z) (rest : list num) :
  (reads_as h z -> 34 < z -> from_floats (h :: rest) = Err ValueError) /\
  (0 < k < 34 ->
   from_floats (PInt (- k) :: rest) = from_floats (PInt (34 - k) :: rest)).
Proof.
  split.
  - intros Hh Hz. rewrite (from_floats_head _ _ _ Hh).
    replace (Z.of_nat (length RsdSamplePlot_fields) <? z) with true;
      [reflexivity|].
    symmetry. apply Z.ltb_lt. exact Hz.
  - intros Hk.
    rewrite (from_floats_head _ _ rest (reads_as_int (- k))).
    rewrite (from_floats_head _ _ rest (reads_as_int (34 - k))).
    replace (Z.of_nat (length RsdSamplePlot_fields) <? - k) with false
      by (symmetry; apply Z.ltb_ge; change (- k <= 34); lia).
    replace (Z.of_nat (length RsdSamplePlot_fields) <? 34 - k) with false
      by (symmetry; apply Z.ltb_ge; change (34 - k <= 34); lia).
    rewrite (slice_to_negative RsdSamplePlot_fields k) by exact Hk.
    reflexivity.
Qed.

Lemma next_app (peek : bool) (s s' junk : FpStream.t) (x : num) :
  FpStream.next peek s = Ok (x, s') ->
  FpStream.next peek (s ++ junk) = Ok (x, s' ++ junk).
Proof. destruct s, peek; cbn; intros [=]; now subst. Qed.

Lemma nextint_app (s s' junk : FpStream.t) (i : Z) :
  FpStream.nextint false s = Ok (i, s') ->
  FpStream.nextint false (s ++ junk) = Ok (i, s' ++ junk).
Proof.
  unfold FpStream.nextint. intros H. inv_binds.
  rewrite (next_app _ _ _ junk _ E). cbn [mbind result_mbind result_bind].
  rewrite E0. cbn [mbind result_mbind result_bind].
  destruct (negb _); [discriminate|]. now injection H as <- <-.
Qed.

Lemma decode_app (f : Field) (s s' junk : FpStream.t) (v : pyval) :
  decode f s = Ok (v, s') -> decode f (s ++ junk) = Ok (v, s' ++ junk).
Proof.
  induction f as [| | |enum|c| |g IH]; cbn [decode]; intros H.
  - inv_binds. rewrite (next_app _ _ _ junk _ E). now injection H as <- <-.
  - inv_binds. rewrite (nextint_app _ _ junk _ E). now injection H as <- <-.
  - inv_binds. rewrite (next_app _ _ _ junk _ E). now injection H as <- <-.
  - inv_binds. rewrite (next_app _ _ _ junk _ E).
    cbn [mbind result_mbind result_bind]. rewrite E0.
    now injection H as <- <-.
  - inv_binds. rewrite (next_app _ _ _ junk _ E).
    cbn [mbind result_mbind result_bind].
    destruct (negb _); [discriminate|]. now injection H as <- <-.
  - inv_binds. rewrite (next_app _ _ _ junk _ E). now injection H as <- <-.
  - inv_bind H. rewrite (next_app _ _ _ junk _ E).
    cbn [mbind result_mbind result_bind].
    destruct (num_eqb _ _); [|auto].
    inv_binds. rewrite (next_app _ _ _ junk _ E0).
    now injection H as <- <-.
Qed.

Lemma decode_fields_app (fields : list (string * Field))
    (r0 r : gmap string pyval) (s s' junk : FpStream.t) :
  Record.decode_fields fields r0 s = Ok (r, s') ->
  Record.decode_fields fields r0 (s ++ junk) = Ok (r, s' ++ junk).
Proof.
  revert r0 s; induction fields as [|[n f] fields IH]; intros r0 s;
    cbn [Record.decode_fields].
  - now intros [= <- <-].
  - destruct (decode f s) as [[v s1]|] eqn:E; [|discriminate].
    rewrite (decode_app _ _ _ junk _ E). apply IH.
Qed.

Lemma decode_trees_app (nt : nat) (fields : list (string * Field))
    (ts : list (gmap string pyval)) (s s' junk : FpStream.t) :
  decode_trees nt fields s = Ok (ts, s') ->
  decode_trees nt fields (s ++ junk) = Ok (ts, s' ++ junk).
Proof.
  revert ts s s'; induction nt as [|nt IH]; intros ts s s';
    cbn [decode_trees].
  - now intros [= <- <-].
  - intros H. inv_binds. injection H as <- <-. unfold Record.decode in *.
    rewrite (decode_fields_app _ _ _ _ _ junk E).
    cbn [mbind result_mbind result_bind]. now rewrite (IH _ _ _ E0).
Qed.

(** X14: the floats after a record are not looked at: a buffer that is read
    as an RSD record is read as the same record with any floats appended,
    since the reader never checks that it reached the end. *)
Theorem rsd_from_floats_ignores_rest (buf junk : list num)
    (r : RsdInitialDataRecord) :
  from_floats buf = Ok r -> from_floats (buf ++ junk) = Ok r.
Proof.
  unfold from_floats. intros H. inv_bind H.
  rewrite (nextint_app _ _ junk _ E). cbn [mbind result_mbind result_bind].
  destruct (_ <? _); [discriminate|]. inv_binds. unfold Record.decode in *.
  rewrite (decode_fields_app _ _ _ _ _ junk E0).
  cbn [mbind result_mbind result_bind].
  rewrite (nextint_app _ _ junk _ E1). cbn [mbind result_mbind result_bind].
  rewrite (nextint_app _ _ junk _ E2). cbn [mbind result_mbind result_bind].
  rewrite (decode_trees_app _ _ _ _ _ junk E3). exact H.
Qed.

Lemma rsd_from_floats_ignores_rest_witness :
  from_floats
    (match to_floats (rsd1 0.25) with Ok b => b | Err _ => [] end
     ++ [PFloat 9; PFloat 9])
  = Ok (rsd1 0.25).
Proof.
  apply (rsd_from_floats_ignores_rest
           (match to_floats (rsd1 0.25) with Ok b => b | Err _ => [] end)
           [PFloat 9; PFloat 9] (rsd1 0.25)).
  vm_compute. reflexivity.
Defined.

End RsdRecords.

(** ** Records as JSON objects *)

Section RecordJson.

Lemma to_json_lookup (fields : list (string * Field))
    (r : gmap string pyval) (i : string) :
  Record.to_json fields r !! i
  = if bool_decide (i ∈ (Record.visible_fields fields).*1)
    then match r !! i with
         | Some v => if is_VNone v then None else Some v
         | None => None
         end
    else None.
Proof.
  unfold Record.to_json.
  generalize (Record.visible_fields fields). clear fields. intros fields.
  assert (G : forall d0 : gmap string pyval,
    foldl (fun d nf => match Record.getattr r nf.1 with
                       | VNone => d
                       | v => <[nf.1 := v]> d
                       end) d0 fields !! i
    = if bool_decide (i ∈ fields.*1)
      then match r !! i with
           | Some v => if is_VNone v then d0 !! i else Some v
           | None => d0 !! i
           end
      else d0 !! i).
  { induction fields as [|[n f] fields IH]; intros d0; [reflexivity|].
    cbn [foldl fst fmap list_fmap]. rewrite IH. unfold Record.getattr.
    destruct (decide (i = n)) as [->|Hne].
    - rewrite (bool_decide_eq_true_2 (n ∈ n :: fields.*1)) by left.
      destruct (r !! n) as [[| |]|]; cbn;
        rewrite ?lookup_insert_eq; now destruct (bool_decide _).
    - assert (Hin : bool_decide (i ∈ n :: fields.*1)
                    = bool_decide (i ∈ fields.*1)).
      { apply bool_decide_ext. rewrite elem_of_cons.
        split; [intros [?|?]; [congruence|assumption]|auto]. }
      rewrite Hin.
      assert (Hd : match default VNone (r !! n) with
                   | VNone => d0
                   | v => <[n := v]> d0
                   end !! i = d0 !! i).
      { destruct (default VNone (r !! n));
          rewrite ?lookup_insert_ne by congruence; reflexivity. }
      rewrite Hd. reflexivity. }
  rewrite G, lookup_empty.
  destruct (bool_decide _); [|reflexivity].
  destruct (r !! i) as [v|]; [now destruct (is_VNone v)|reflexivity].
Qed.

Lemma from_json_lookup (fields : list (string * Field))
    (d : gmap string pyval) (i : string) :
  Record.from_json fields d !! i
  = if bool_decide (i ∈ fields.*1) then d !! i else None.
Proof.
  unfold Record.from_json.
  assert (G : forall r0 : gmap string pyval,
    foldl (fun r nf => match d !! nf.1 with
                       | Some v => Record.setattr r nf.1 v
                       | None => r
                       end) r0 fields !! i
    = if bool_decide (i ∈ fields.*1)
      then match d !! i with Some v => Some v | None => r0 !! i end
      else r0 !! i).
  { induction fields as [|[n f] fields IH]; intros r0; [reflexivity|].
    cbn [foldl fst fmap list_fmap]. rewrite IH. unfold Record.setattr.
    destruct (decide (i = n)) as [->|Hne].
    - rewrite (bool_decide_eq_true_2 (n ∈ n :: fields.*1)) by left.
      destruct (d !! n) as [v|];
        rewrite ?lookup_insert_eq; now destruct (bool_decide _).
    - assert (Hin : bool_decide (i ∈ n :: fields.*1)
                    = bool_decide (i ∈ fields.*1)).
      { apply bool_decide_ext. rewrite elem_of_cons.
        split; [intros [?|?]; [congruence|assumption]|auto]. }
      rewrite Hin.
      assert (Hd : match d !! n with
                   | Some v => <[n := v]> r0
                   | None => r0
                   end !! i = r0 !! i).
      { destruct (d !! n);
          rewrite ?lookup_insert_ne by congruence; reflexivity. }
      rewrite Hd. reflexivity. }
  rewrite G, lookup_empty.
  destruct (bool_decide _); [|reflexivity]. now destruct (d !! i).
Qed.

Lemma visible_field_is_field (fields : list (string * Field)) (i : string) :
  i ∈ (Record.visible_fields fields).*1 -> i ∈ fields.*1.
Proof.
  unfold Record.visible_fields. rewrite !list_elem_of_fmap.
  intros (nf & -> & Hin). apply list_elem_of_filter in Hin as [_ Hin].
  eauto.
Qed.

(** X15: a JSON object that is read into a record and written again keeps
    the members that are named after a visible field and are not [None],
    and no other: unknown names, the names of constant and reserved fields
    and null members are dropped without an error.  A record that holds
    such attributes only is given back by reading what it was written
    as. *)
Theorem record_json_roundtrip (fields : list (string * Field))
    (d : gmap string pyval) :
  Record.to_json fields (Record.from_json fields d)
  = filter (json_shown fields) d /\
  (map_Forall (fun n v => json_shown fields (n, v)) d ->
   Record.from_json fields (Record.to_json fields d) = d).
Proof.
  split.
  - apply map_eq. intros i. rewrite to_json_lookup, from_json_lookup.
    rewrite map_lookup_filter.
    destruct (bool_decide (i ∈ (Record.visible_fields fields).*1)) eqn:Ev.
    + apply bool_decide_eq_true in Ev.
      rewrite (bool_decide_eq_true_2 _ (visible_field_is_field _ _ Ev)).
      destruct (d !! i) as [v|]; [|reflexivity]. cbn.
      destruct (is_VNone v) eqn:En.
      * rewrite option_guard_False; [reflexivity|].
        unfold json_shown. cbn. intros [_ ?]. congruence.
      * now rewrite option_guard_True by (split; assumption).
    + apply bool_decide_eq_false in Ev.
      destruct (d !! i) as [v|]; [|reflexivity]. cbn.
      rewrite option_guard_False; [reflexivity|].
      unfold json_shown. cbn. tauto.
  - intros Hd. apply map_eq. intros i.
    rewrite from_json_lookup, to_json_lookup.
    destruct (d !! i) as [v|] eqn:Ei.
    + destruct (Hd _ _ Ei) as [Hv Hn]. cbn in Hv, Hn.
      rewrite (bool_decide_eq_true_2 _ Hv), Hn.
      now rewrite (bool_decide_eq_true_2 _ (visible_field_is_field _ _ Hv)).
    + now repeat destruct (bool_decide _).
Qed.

End RecordJson.


(** ** Writing and reading back physical records *)

Section MsbRoundTrip.
Import Struct Msb.

Lemma read_app (sz : Z) (b rest : list Byte.byte) :
  0 <= sz -> length b = Z.to_nat sz -> _read sz (b ++ rest) = Ok (b, rest).
Proof.
  intros H0 Hl. unfold _read, fp_read.
  destruct (sz <? -1) eqn:E1; [apply Z.ltb_lt in E1; lia|].
  destruct (sz =? -1) eqn:E2; [apply Z.eqb_eq in E2; lia|].
  cbn [mbind result_mbind result_bind].
  rewrite <- Hl, take_app_length, drop_app_length.
  destruct (_ <? sz) eqn:E3; [apply Z.ltb_lt in E3; lia|reflexivity].
Qed.

Lemma read_all (sz : Z) (fp b : list Byte.byte) :
  0 <= sz -> _read sz fp = Ok (b, []) ->
  b = fp /\ length fp = Z.to_nat sz.
Proof.
  intros H0 H. unfold _read, fp_read in H.
  destruct (sz <? -1) eqn:E1; [discriminate|].
  destruct (sz =? -1) eqn:E2; [apply Z.eqb_eq in E2; lia|].
  cbn [mbind result_mbind result_bind] in H.
  destruct (_ <? sz) eqn:E3; [discriminate|]. apply Z.ltb_ge in E3.
  injection H as <- Hd. rewrite length_take in E3.
  apply (f_equal length) in Hd. rewrite length_drop in Hd. simpl in Hd.
  split; [apply take_ge; lia|lia].
Qed.

(** *** Single values *)

Lemma byte_of_Z_value (z : Z) : Z_of_byte (byte_of_Z z) = z mod 256.
Proof.
  unfold Z_of_byte, byte_of_Z.
  assert (H : 0 <= z mod 256 < 256) by (apply Z.mod_pos_bound; lia).
  destruct (Byte.of_N (Z.to_N (z mod 256))) as [b|] eqn:E.
  - apply Byte.to_of_N in E. simpl. rewrite E. lia.
  - apply Byte.of_N_None_iff in E. lia.
Qed.

Lemma le_value_bytes (n : nat) (z : Z) :
  le_value (le_bytes n z) = z mod 256 ^ Z.of_nat n.
Proof.
  revert z; induction n as [|n IH]; intros z.
  - simpl. now rewrite Z.mod_1_r.
  - cbn [le_bytes le_value]. rewrite byte_of_Z_value, IH.
    rewrite Nat2Z.inj_succ, Z.pow_succ_r by lia.
    rewrite Z.rem_mul_r by lia. reflexivity.
Qed.

Lemma length_le_bytes (n : nat) (z : Z) : length (le_bytes n z) = n.
Proof. revert z; induction n; intros; simpl; auto. Qed.

Lemma unpack_pack_int (c : int_fmt) (z : Z) (b : list Byte.byte) :
  pack_int c (PInt z) = Ok b ->
  length b = int_size c /\ unpack_int c b = z.
Proof.
  unfold pack_int, unpack_int.
  destruct (_ && _) eqn:E; [|discriminate]. intros [= <-].
  split; [apply length_le_bytes|].
  apply andb_prop in E as [E1%Z.leb_le E2%Z.ltb_lt].
  rewrite le_value_bytes.
  destruct c; cbn [int_signed int_size] in *;
    change (Z.of_nat 4) with 4 in *; change (Z.of_nat 8) with 8 in *;
    cbn [andb].
  - rewrite Z.mod_small by lia. reflexivity.
  - destruct (_ <=? _) eqn:E3.
    + apply Z.leb_le in E3.
      destruct (Z_lt_le_dec z 0).
      * rewrite <- (Z.mod_add z 1) by lia. rewrite Z.mod_small by lia. lia.
      * rewrite Z.mod_small in E3 by lia. lia.
    + apply Z.leb_gt in E3.
      destruct (Z_lt_le_dec z 0).
      * rewrite <- (Z.mod_add z 1) in E3 by lia.
        rewrite Z.mod_small in E3 by lia. lia.
      * rewrite Z.mod_small by lia. reflexivity.
  - rewrite Z.mod_small by lia. reflexivity.
  - destruct (_ <=? _) eqn:E3.
    + apply Z.leb_le in E3.
      destruct (Z_lt_le_dec z 0).
      * rewrite <- (Z.mod_add z 1) by lia. rewrite Z.mod_small by lia. lia.
      * rewrite Z.mod_small in E3 by lia. lia.
    + apply Z.leb_gt in E3.
      destruct (Z_lt_le_dec z 0).
      * rewrite <- (Z.mod_add z 1) in E3 by lia.
        rewrite Z.mod_small in E3 by lia. lia.
      * rewrite Z.mod_small by lia. reflexivity.
Qed.


(** *** What the writers append *)

Lemma write_int_app (f : MsbFormat) (z : Z) (out : list Byte.byte) :
  write_int f z out = (b ← write_int f z []; Ok (out ++ b)).
Proof. unfold write_int. now destruct (pack_int _ _). Qed.

Lemma write_uid_app (f : MsbFormat) (u : num) (out : list Byte.byte) :
  write_uid f u out = (b ← write_uid f u []; Ok (out ++ b)).
Proof. unfold write_uid. now destruct (pack _ _). Qed.

Lemma write_float_app (f : MsbFormat) (x : num) (out : list Byte.byte) :
  write_float f x out = (b ← write_float f x []; Ok (out ++ b)).
Proof.
  unfold write_float. destruct (isfinite x) as [[]|]; try reflexivity.
  cbn [mbind result_mbind result_bind negb].
  now destruct (pack_float _ _).
Qed.

Lemma write_fpbuf_app (f : MsbFormat) (xs : list num) (out : list Byte.byte) :
  write_fpbuf f xs out = (b ← write_fpbuf f xs []; Ok (out ++ b)).
Proof.
  revert out; induction xs as [|x xs IH]; intros out.
  - simpl. now rewrite app_nil_r.
  - cbn [write_fpbuf]. rewrite (write_float_app f x out).
    destruct (write_float f x []) as [b|]; [|reflexivity].
    cbn [mbind result_mbind result_bind]. rewrite (IH (out ++ b)), (IH b).
    destruct (write_fpbuf f xs []) as [b'|]; [|reflexivity].
    cbn [mbind result_mbind result_bind]. now rewrite app_assoc.
Qed.

(** *** Reading back a single value *)

Lemma read_int_written (f : MsbFormat) (z : Z) (b rest : list Byte.byte) :
  write_int f z [] = Ok b -> read_int f (b ++ rest) = Ok (z, rest).
Proof.
  unfold write_int, read_int.
  destruct (pack_int _ _) as [b'|] eqn:E; [|discriminate].
  intros [= <-]. apply unpack_pack_int in E as [Hl Hu].
  rewrite read_app by (rewrite ?Nat2Z.id; auto; lia).
  cbn [mbind result_mbind result_bind]. now rewrite Hu.
Qed.

Lemma read_uid_written (f : MsbFormat) (u : num) (b rest : list Byte.byte) :
  write_uid f u [] = Ok b -> read_uid f b = Ok (u, []) ->
  read_uid f (b ++ rest) = Ok (u, rest).
Proof.
  unfold read_uid. intros _ H.
  destruct (_read _ b) as [[b' r]|] eqn:E; [|discriminate].
  cbn [mbind result_mbind result_bind] in H. injection H as Hu ->.
  apply read_all in E as [-> Hl]; [|lia].
  rewrite read_app by (auto; lia).
  cbn [mbind result_mbind result_bind]. now rewrite Hu.
Qed.

Lemma read_float_all (f : MsbFormat) (b : list Byte.byte) (y : float) :
  read_float f b = Ok (y, []) ->
  length b = float_size (float_type f) /\
  forall rest, read_float f (b ++ rest) = Ok (y, rest).
Proof.
  unfold read_float. intros H.
  destruct (_read _ b) as [[b' r]|] eqn:E; [|discriminate].
  cbn [mbind result_mbind result_bind] in H.
  destruct (isfinite _) as [fin|] eqn:Ef; [|discriminate].
  cbn [mbind result_mbind result_bind] in H.
  destruct (negb fin) eqn:En; [discriminate|]. injection H as Hy ->.
  apply read_all in E as [-> Hl]; [|lia]. rewrite Nat2Z.id in Hl.
  split; [exact Hl|]. intros rest.
  rewrite read_app by (rewrite ?Nat2Z.id; auto; lia).
  cbn [mbind result_mbind result_bind]. rewrite Ef.
  cbn [mbind result_mbind result_bind]. rewrite En. now rewrite Hy.
Qed.

Lemma read_float_unpack (f : MsbFormat) (b : list Byte.byte) (y : float) :
  read_float f b = Ok (y, []) -> unpack_float (float_type f) b = y.
Proof.
  unfold read_float. intros H.
  destruct (_read _ b) as [[b' r]|] eqn:E; [|discriminate].
  cbn [mbind result_mbind result_bind] in H.
  destruct (isfinite _) as [fin|] eqn:Ef; [|discriminate].
  cbn [mbind result_mbind result_bind] in H.
  destruct (negb fin) eqn:En; [discriminate|]. injection H as Hy ->.
  apply read_all in E as [-> Hl]; [|lia]. exact Hy.
Qed.

Lemma read_fpint_all (f : MsbFormat) (b : list Byte.byte) (z : Z) :
  read_fpint f b = Ok (z, []) ->
  forall rest, read_fpint f (b ++ rest) = Ok (z, rest).
Proof.
  unfold read_fpint. intros H rest.
  destruct (read_float f b) as [[y r]|] eqn:E; [|discriminate].
  cbn [mbind result_mbind result_bind] in H.
  destruct (py_int _) as [i|] eqn:Ei; [|discriminate].
  cbn [mbind result_mbind result_bind] in H.
  destruct (negb _) eqn:En; [discriminate|]. injection H as -> ->.
  apply read_float_all in E as [_ E]. rewrite E.
  cbn [mbind result_mbind result_bind]. rewrite Ei.
  cbn [mbind result_mbind result_bind]. now rewrite En.
Qed.


Lemma keeps_float_bytes (f : MsbFormat) (x : num) (b : list Byte.byte) :
  keeps_float f x -> write_float f x [] = Ok b ->
  length b = float_size (float_type f) /\
  PFloat (unpack_float (float_type f) b) = as_float x.
Proof.
  intros (y & bs & Hy & Hw & Hr) Hb. rewrite Hw in Hb. injection Hb as <-.
  split; [apply (read_float_all _ _ _ Hr)|].
  unfold as_float. rewrite Hy. f_equal. apply (read_float_unpack _ _ _ Hr).
Qed.

(** *** Reading back a buffer of floats *)

Lemma fpbuf_bytes (f : MsbFormat) (buf : list num) :
  Forall (keeps_float f) buf ->
  forall b, write_fpbuf f buf [] = Ok b ->
  length b = (float_size (float_type f) * length buf)%nat /\
  map PFloat
    (map (unpack_float (float_type f))
       (chunks (float_size (float_type f)) (length buf) b))
  = map as_float buf.
Proof.
  induction 1 as [|x xs Hx _ IH]; intros b Hb.
  - simpl in Hb. injection Hb as <-. simpl. split; [lia|reflexivity].
  - cbn [write_fpbuf] in Hb.
    destruct (write_float f x []) as [bx|] eqn:Ex; [|discriminate].
    cbn [mbind result_mbind result_bind] in Hb.
    rewrite write_fpbuf_app in Hb.
    destruct (write_fpbuf f xs []) as [b'|] eqn:Exs; [|discriminate].
    cbn [mbind result_mbind result_bind] in Hb. injection Hb as <-.
    destruct (keeps_float_bytes _ _ _ Hx Ex) as [Hl Hu].
    destruct (IH _ eq_refl) as [Hl' Hm].
    split; [rewrite length_app; simpl; lia|].
    cbn [length chunks map].
    rewrite take_app_length', drop_app_length' by (symmetry; exact Hl).
    now rewrite Hu, Hm.
Qed.

Lemma read_fpbuf_written (f : MsbFormat) (buf : list num)
    (b rest : list Byte.byte) :
  Forall (keeps_float f) buf -> write_fpbuf f buf [] = Ok b ->
  exists ys,
    read_fpbuf f (Z.of_nat (length buf)) (b ++ rest) = Ok (ys, rest) /\
    map PFloat ys = map as_float buf.
Proof.
  intros Hk Hw. destruct (fpbuf_bytes _ _ Hk _ Hw) as [Hl Hm].
  set (k := float_size (float_type f)) in *.
  assert (Hk0 : (0 < k)%nat) by (unfold k; destruct (float_type f); simpl; lia).
  eexists. split; [|exact Hm].
  unfold read_fpbuf. fold k.
  rewrite read_app by (rewrite ?Hl; lia).
  cbn [mbind result_mbind result_bind]. unfold iter_unpack. fold k.
  rewrite Hl. rewrite Nat.mul_comm, Nat.Div0.mod_mul, Nat.div_mul by lia.
  reflexivity.
Qed.

(** *** Reading back the logical records *)

Lemma write_logicals_app (f : MsbFormat) (rs : list logical)
    (bufs : list (list num)) (out : list Byte.byte) :
  write_logicals f rs bufs out
  = (b ← write_logicals f rs bufs []; Ok (out ++ b)).
Proof.
  revert bufs out; induction rs as [|r rs IH]; intros bufs out.
  - simpl. now rewrite app_nil_r.
  - destruct bufs as [|buf bufs]; [simpl; now rewrite app_nil_r|].
    cbn [write_logicals].
    destruct (get_record_type r) as [t|]; [|reflexivity].
    cbn [mbind result_mbind result_bind].
    rewrite (write_float_app f t out).
    destruct (write_float f t []) as [b1|]; [|reflexivity].
    cbn [mbind result_mbind result_bind].
    rewrite (write_float_app f _ (out ++ b1)), (write_float_app f _ b1).
    destruct (write_float f (PInt _) []) as [b2|]; [|reflexivity].
    cbn [mbind result_mbind result_bind].
    rewrite (write_fpbuf_app f _ ((out ++ b1) ++ b2)),
      (write_fpbuf_app f _ (b1 ++ b2)).
    destruct (write_fpbuf f buf []) as [b3|]; [|reflexivity].
    cbn [mbind result_mbind result_bind].
    rewrite (IH bufs (((out ++ b1) ++ b2) ++ b3)), (IH bufs ((b1 ++ b2) ++ b3)).
    destruct (write_logicals f rs bufs []) as [b4|]; [|reflexivity].
    cbn [mbind result_mbind result_bind]. now rewrite !app_assoc.
Qed.

Lemma total_values_nonneg (bufs : list (list num)) : 0 <= total_values bufs.
Proof. induction bufs; simpl; lia. Qed.

Lemma read_records_written (f : MsbFormat) (rs : list logical) :
  Forall (keeps_logical f) rs ->
  forall bufs b, all_floats rs = Ok bufs ->
  write_logicals f rs bufs [] = Ok b ->
  forall nr recs rest,
    read_records f nr (nr + total_values bufs) recs (b ++ rest)
    = Ok (recs ++ rs, rest).
Proof.
  induction 1 as [|r rs Hr _ IH]; intros bufs b Ha Hw nr recs rest.
  - simpl in Ha. injection Ha as <-. simpl in Hw. injection Hw as <-.
    rewrite read_records_eq. simpl.
    rewrite Z.add_0_r, Z.ltb_irrefl. now rewrite app_nil_r.
  - destruct Hr as (t & buf & Ht & Hb & Hkt & Hkn & Hkb & Hfrom).
    cbn [all_floats] in Ha. rewrite Hb in Ha.
    cbn [mbind result_mbind result_bind] in Ha.
    destruct (all_floats rs) as [bufs'|] eqn:Ea; [|discriminate].
    cbn [mbind result_mbind result_bind] in Ha. injection Ha as <-.
    cbn [write_logicals] in Hw. rewrite Ht in Hw.
    cbn [mbind result_mbind result_bind] in Hw.
    destruct Hkt as (b1 & Hw1 & Hr1). destruct Hkn as (b2 & Hw2 & Hr2).
    rewrite Hw1 in Hw. cbn [mbind result_mbind result_bind] in Hw.
    rewrite write_float_app, Hw2 in Hw.
    cbn [mbind result_mbind result_bind] in Hw.
    rewrite write_fpbuf_app in Hw.
    destruct (write_fpbuf f buf []) as [b3|] eqn:Ew3; [|discriminate].
    cbn [mbind result_mbind result_bind] in Hw.
    rewrite write_logicals_app in Hw.
    destruct (write_logicals f rs bufs' []) as [b4|] eqn:Ew4; [|discriminate].
    cbn [mbind result_mbind result_bind] in Hw. injection Hw as <-.
    destruct (read_fpbuf_written f buf b3 (b4 ++ rest) Hkb Ew3)
      as (ys & Hr3 & Hys).
    rewrite read_records_eq. cbn [total_values foldr].
    fold (total_values bufs').
    pose proof (total_values_nonneg bufs') as Hpos.
    destruct (nr <? _) eqn:E; [|apply Z.ltb_ge in E; lia].
    unfold read_logical. rewrite <- !app_assoc.
    rewrite (read_fpint_all _ _ _ Hr1).
    cbn [mbind result_mbind result_bind].
    rewrite (read_fpint_all _ _ _ Hr2).
    cbn [mbind result_mbind result_bind]. rewrite Hr3.
    cbn [mbind result_mbind result_bind]. rewrite Hys, Hfrom.
    cbn [mbind result_mbind result_bind].
    replace (nr + (2 + Z.of_nat (length buf) + total_values bufs'))
      with (nr + Z.of_nat (length buf) + 2 + total_values bufs') by lia.
    rewrite (IH _ _ eq_refl Ew4). now rewrite <- app_assoc.
Qed.


Lemma write_int_length (f : MsbFormat) (z : Z) (b : list Byte.byte) :
  write_int f z [] = Ok b -> length b = int_size (int_type f).
Proof.
  unfold write_int. destruct (pack_int _ _) as [b'|] eqn:Ep; [|discriminate].
  intros [= <-]. apply (unpack_pack_int _ _ _ Ep).
Qed.

(** What [write_physical_record] writes: the two length fields around the
    uid, the count and the logical records. *)
Lemma write_physical_record_inv (f : MsbFormat) (rec : MsbPhysicalRecord)
    (bs : list Byte.byte) :
  write_physical_record f rec [] = Ok bs ->
  exists bufs b1 bu b3 b4,
    all_floats (records rec) = Ok bufs /\
    write_int f (Z.of_nat (calcsize (uid_type f))
                 + Z.of_nat (length bufs) * Z.of_nat (int_size (int_type f))
                 + total_values bufs * Z.of_nat (float_size (float_type f)))
      [] = Ok b1 /\
    write_uid f (uid rec) [] = Ok bu /\
    write_int f (total_values bufs) [] = Ok b3 /\
    write_logicals f (records rec) bufs [] = Ok b4 /\
    bs = b1 ++ (bu ++ b3 ++ b4) ++ b1.
Proof.
  intros Hw. unfold write_physical_record in Hw.
  destruct (all_floats (records rec)) as [bufs|] eqn:Ea; [|discriminate].
  cbn [mbind result_mbind result_bind] in Hw.
  set (length1 := _ + _ + _) in Hw.
  destruct (write_int f length1 []) as [b1|] eqn:E1; [|discriminate].
  cbn [mbind result_mbind result_bind] in Hw.
  rewrite write_uid_app in Hw.
  destruct (write_uid f (uid rec) []) as [bu|] eqn:Eu; [|discriminate].
  cbn [mbind result_mbind result_bind] in Hw.
  rewrite write_int_app in Hw.
  destruct (write_int f (total_values bufs) []) as [b3|] eqn:E3;
    [|discriminate].
  cbn [mbind result_mbind result_bind] in Hw.
  rewrite write_logicals_app in Hw.
  destruct (write_logicals f (records rec) bufs []) as [b4|] eqn:E4;
    [|discriminate].
  cbn [mbind result_mbind result_bind] in Hw.
  rewrite write_int_app, E1 in Hw.
  cbn [mbind result_mbind result_bind] in Hw. injection Hw as <-.
  exists bufs, b1, bu, b3, b4. repeat split; try assumption.
  cbn [app]. now rewrite <- !app_assoc.
Qed.

Lemma record_body_framed (f : MsbFormat) (b1 body b2 : list Byte.byte) :
  length b1 = int_size (int_type f) -> length b2 = int_size (int_type f) ->
  record_body f (b1 ++ body ++ b2) = body.
Proof.
  intros H1 H2. unfold record_body.
  rewrite !length_app, H1, H2.
  replace (int_size (int_type f) + (length body + int_size (int_type f))
           - int_size (int_type f))%nat
    with (length (b1 ++ body)) by (rewrite length_app; lia).
  rewrite app_assoc, take_app_length.
  rewrite <- H1. apply drop_app_length.
Qed.

(** The body of a kept record between any two equal length fields is read
    as the record; between two different ones it is refused. *)
Lemma read_framed (f : MsbFormat) (rec : MsbPhysicalRecord)
    (bs bz bz' rest : list Byte.byte) (z z' : Z) :
  write_physical_record f rec [] = Ok bs ->
  keeps_physical f rec ->
  write_int f z [] = Ok bz -> write_int f z' [] = Ok bz' ->
  read_physical_record f (bz ++ record_body f bs ++ bz' ++ rest)
  = if z' =? z then Ok (Some rec, rest) else Err MsbError.
Proof.
  intros Hw [(bu' & Hwu & Hru) Hrs] Hz Hz'.
  destruct (write_physical_record_inv _ _ _ Hw)
    as (bufs & b1 & bu & b3 & b4 & Ea & E1 & Eu & E3 & E4 & ->).
  rewrite Hwu in Eu. injection Eu as <-.
  pose proof (write_int_length _ _ _ E1) as Hl1.
  rewrite (record_body_framed f b1 _ b1 Hl1 Hl1).
  unfold read_physical_record. rewrite <- !app_assoc.
  rewrite (read_int_written _ _ _ _ Hz).
  rewrite (read_uid_written _ _ _ _ Hwu Hru).
  cbn [mbind result_mbind result_bind].
  rewrite (read_int_written _ _ _ _ E3).
  cbn [mbind result_mbind result_bind].
  rewrite <- (Z.add_0_l (total_values bufs)).
  rewrite (read_records_written _ _ Hrs _ _ Ea E4).
  cbn [mbind result_mbind result_bind].
  rewrite (read_int_written _ _ _ _ Hz').
  cbn [mbind result_mbind result_bind app].
  destruct (z' =? z); [|reflexivity]. now destruct rec.
Qed.

Lemma read_physical_record_written (f : MsbFormat) (rec : MsbPhysicalRecord)
    (bs rest : list Byte.byte) :
  write_physical_record f rec [] = Ok bs ->
  keeps_physical f rec ->
  read_physical_record f (bs ++ rest) = Ok (Some rec, rest).
Proof.
  intros Hw Hk.
  destruct (write_physical_record_inv _ _ _ Hw)
    as (bufs & b1 & bu & b3 & b4 & Ea & E1 & Eu & E3 & E4 & Hbs).
  pose proof (write_int_length _ _ _ E1) as Hl1.
  pose proof (read_framed f rec bs b1 b1 rest _ _ Hw Hk E1 E1) as H.
  rewrite Z.eqb_refl in H. rewrite <- H. f_equal.
  rewrite Hbs at 1. rewrite Hbs, (record_body_framed f b1 _ b1 Hl1 Hl1).
  now rewrite <- !app_assoc.
Qed.

(** X1: a physical record that the format keeps is written, and what was
    written is read back as the record, with nothing left on the stream;
    the written bytes begin and end with the same length field. *)
Theorem physical_record_roundtrip (f : MsbFormat) (rec : MsbPhysicalRecord)
    (bs : list Byte.byte) :
  write_physical_record f rec [] = Ok bs ->
  keeps_physical f rec ->
  read_physical_record f bs = Ok (Some rec, []) /\
  take (int_size (int_type f)) bs
  = drop (length bs - int_size (int_type f)) bs.
Proof.
  intros Hw Hk. split.
  - rewrite <- (app_nil_r bs) at 1.
    now apply read_physical_record_written.
  - destruct (write_physical_record_inv _ _ _ Hw)
      as (bufs & b1 & bu & b3 & b4 & Ea & E1 & Eu & E3 & E4 & ->).
    pose proof (write_int_length _ _ _ E1) as Hl1.
    rewrite take_app_length' by (symmetry; exact Hl1).
    rewrite app_assoc.
    rewrite drop_app_length'; [reflexivity|].
    rewrite (length_app _ b1). lia.
Qed.

Lemma keeps_physical_of_quarter :
  keeps_physical default_format (physical_of 0.25).
Proof.
  split.
  - eexists. split; [vm_compute; reflexivity|]. vm_compute; reflexivity.
  - constructor; [|constructor].
    eexists 1, _. split; [reflexivity|].
    split; [vm_compute; reflexivity|].
    split; [eexists; split; [vm_compute; reflexivity|];
            vm_compute; reflexivity|].
    split; [eexists; split; [vm_compute; reflexivity|];
            vm_compute; reflexivity|].
    split.
    + repeat (constructor;
              [eexists _, _; split; [vm_compute; reflexivity|];
               split; [vm_compute; reflexivity|]; vm_compute; reflexivity|]).
      constructor.
    + vm_compute. reflexivity.
Defined.

Lemma physical_record_roundtrip_witness :
  exists bs,
    write_physical_record default_format (physical_of 0.25) [] = Ok bs /\
    read_physical_record default_format bs
    = Ok (Some (physical_of 0.25), []).
Proof.
  destruct (write_physical_record default_format (physical_of 0.25) [])
    as [bs|] eqn:E; [|vm_compute in E; discriminate E].
  exists bs. split; [reflexivity|].
  apply (physical_record_roundtrip default_format (physical_of 0.25) bs E).
  apply keeps_physical_of_quarter.
Defined.

(** *** The layout of a written record *)

Lemma pack_float_length (c : float_fmt) (x : num) (b : list Byte.byte) :
  pack_float c x = Ok b -> length b = float_size c.
Proof.
  unfold pack_float. destruct (py_float x) as [y|]; [|discriminate].
  cbn [mbind result_mbind result_bind]. destruct c.
  - destruct (_ && _); [discriminate|]. intros [= <-]. reflexivity.
  - intros [= <-]. reflexivity.
Qed.

Lemma write_float_length (f : MsbFormat) (x : num) (b : list Byte.byte) :
  write_float f x [] = Ok b -> length b = float_size (float_type f).
Proof.
  unfold write_float. intros H. inv_bind H.
  destruct (negb _); [discriminate|]. inv_bind H. injection H as <-.
  cbn [app]. eapply pack_float_length, E0.
Qed.

Lemma write_uid_length (f : MsbFormat) (u : num) (b : list Byte.byte) :
  write_uid f u [] = Ok b -> length b = calcsize (uid_type f).
Proof.
  unfold write_uid. intros H. inv_bind H. injection H as <-. cbn [app].
  destruct (uid_type f) as [c|c]; cbn [pack calcsize] in *.
  - destruct u as [z|y]; [|discriminate].
    apply (unpack_pack_int _ _ _ E).
  - eapply pack_float_length, E.
Qed.

Lemma write_fpbuf_length (f : MsbFormat) (xs : list num)
    (b : list Byte.byte) :
  write_fpbuf f xs [] = Ok b ->
  length b = (length xs * float_size (float_type f))%nat.
Proof.
  revert b; induction xs as [|x xs IH]; intros b; cbn [write_fpbuf].
  - now intros [= <-].
  - intros H.
    destruct (write_float f x []) as [c1|] eqn:E1; [|discriminate].
    cbn [mbind result_mbind result_bind] in H.
    rewrite write_fpbuf_app in H.
    destruct (write_fpbuf f xs []) as [c2|] eqn:E2; [|discriminate].
    cbn [mbind result_mbind result_bind] in H.
    injection H as <-. apply write_float_length in E1.
    rewrite length_app, E1, (IH _ eq_refl). cbn [length]. lia.
Qed.

Lemma all_floats_length (rs : list logical) (bufs : list (list num)) :
  all_floats rs = Ok bufs -> length bufs = length rs.
Proof.
  revert bufs; induction rs as [|r rs IH]; intros bufs; cbn [all_floats].
  - now intros [= <-].
  - intros H. inv_binds. injection H as <-. cbn [length].
    now rewrite (IH _ eq_refl).
Qed.

Lemma write_logicals_length (f : MsbFormat) (rs : list logical)
    (bufs : list (list num)) (b : list Byte.byte) :
  length bufs = length rs ->
  write_logicals f rs bufs [] = Ok b ->
  Z.of_nat (length b)
  = total_values bufs * Z.of_nat (float_size (float_type f)).
Proof.
  revert bufs b; induction rs as [|r rs IH]; intros [|buf bufs] b Hl;
    try discriminate Hl; cbn [write_logicals].
  - now intros [= <-].
  - intros H. destruct (get_record_type r) as [t|]; [|discriminate].
    cbn [mbind result_mbind result_bind] in H.
    destruct (write_float f t []) as [c1|] eqn:E1; [|discriminate].
    cbn [mbind result_mbind result_bind] in H.
    rewrite write_float_app in H.
    destruct (write_float f (PInt _) []) as [c2|] eqn:E2; [|discriminate].
    cbn [mbind result_mbind result_bind] in H.
    rewrite write_fpbuf_app in H.
    destruct (write_fpbuf f buf []) as [c3|] eqn:E3; [|discriminate].
    cbn [mbind result_mbind result_bind] in H.
    rewrite write_logicals_app in H.
    destruct (write_logicals f rs bufs []) as [c4|] eqn:E4; [|discriminate].
    cbn [mbind result_mbind result_bind] in H. injection H as <-.
    apply write_float_length in E1, E2. apply write_fpbuf_length in E3.
    apply IH in E4; [|now injection Hl].
    cbn [total_values foldr]. fold (total_values bufs).
    rewrite !length_app, !Nat2Z.inj_add, E1, E2, E3, E4, Nat2Z.inj_mul.
    lia.
Qed.

(** X2: the layout of a written physical record.  Between its two length
    fields lie the uid, one count and two floats and the payload for each
    logical record; the length fields hold the size of the uid, of one
    count for each logical record and of the floats, so that they give
    the number of bytes between them only for a record of one logical
    record. *)
Theorem physical_record_layout (f : MsbFormat) (rec : MsbPhysicalRecord)
    (bs : list Byte.byte) :
  write_physical_record f rec [] = Ok bs ->
  exists bufs,
    all_floats (records rec) = Ok bufs /\
    Z.of_nat (length (record_body f bs))
    = Z.of_nat (calcsize (uid_type f)) + Z.of_nat (int_size (int_type f))
      + total_values bufs * Z.of_nat (float_size (float_type f)) /\
    unpack_int (int_type f) (take (int_size (int_type f)) bs)
    = Z.of_nat (calcsize (uid_type f))
      + Z.of_nat (length (records rec)) * Z.of_nat (int_size (int_type f))
      + total_values bufs * Z.of_nat (float_size (float_type f)) /\
    (unpack_int (int_type f) (take (int_size (int_type f)) bs)
     = Z.of_nat (length (record_body f bs))
     <-> length (records rec) = 1%nat).
Proof.
  intros Hw.
  destruct (write_physical_record_inv _ _ _ Hw)
    as (bufs & b1 & bu & b3 & b4 & Ea & E1 & Eu & E3 & E4 & ->).
  exists bufs. split; [exact Ea|].
  pose proof (write_int_length _ _ _ E1) as Hl1.
  pose proof (write_int_length _ _ _ E3) as Hl3.
  pose proof (write_uid_length _ _ _ Eu) as Hlu.
  pose proof (all_floats_length _ _ Ea) as Hn.
  pose proof (write_logicals_length _ _ _ _ Hn E4) as Hl4.
  rewrite (record_body_framed f b1 _ b1 Hl1 Hl1).
  rewrite take_app_length' by (symmetry; exact Hl1).
  assert (Hb : Z.of_nat (length (bu ++ b3 ++ b4))
               = Z.of_nat (calcsize (uid_type f))
                 + Z.of_nat (int_size (int_type f))
                 + total_values bufs * Z.of_nat (float_size (float_type f))).
  { rewrite !length_app, !Nat2Z.inj_add, Hlu, Hl3, Hl4. lia. }
  assert (Hv : unpack_int (int_type f) b1
               = Z.of_nat (calcsize (uid_type f))
                 + Z.of_nat (length (records rec))
                   * Z.of_nat (int_size (int_type f))
                 + total_values bufs * Z.of_nat (float_size (float_type f))).
  { unfold write_int in E1.
    destruct (pack_int _ _) as [b|] eqn:Ep; [|discriminate].
    injection E1 as <-. rewrite <- Hn. apply (unpack_pack_int _ _ _ Ep). }
  split; [exact Hb|]. split; [exact Hv|].
  rewrite Hb, Hv.
  assert (0 < Z.of_nat (int_size (int_type f)))
    by (destruct (int_type f); cbn; lia).
  split; intros H0; [nia|rewrite H0; lia].
Qed.

Lemma physical_record_layout_witness :
  exists bufs,
    all_floats (records physical0) = Ok bufs /\
    Z.of_nat (length (record_body default_format
                        (le_bytes 4 8 ++ le_bytes 8 4619567317775286272
                         ++ le_bytes 4 0 ++ le_bytes 4 8)))
    = Z.of_nat (calcsize (uid_type default_format))
      + Z.of_nat (int_size (int_type default_format))
      + total_values bufs
        * Z.of_nat (float_size (float_type default_format)) /\
    unpack_int (int_type default_format)
      (take (int_size (int_type default_format))
         (le_bytes 4 8 ++ le_bytes 8 4619567317775286272
          ++ le_bytes 4 0 ++ le_bytes 4 8))
    = Z.of_nat (calcsize (uid_type default_format))
      + Z.of_nat (length (records physical0))
        * Z.of_nat (int_size (int_type default_format))
      + total_values bufs
        * Z.of_nat (float_size (float_type default_format)) /\
    (unpack_int (int_type default_format)
       (take (int_size (int_type default_format))
          (le_bytes 4 8 ++ le_bytes 8 4619567317775286272
           ++ le_bytes 4 0 ++ le_bytes 4 8))
     = Z.of_nat (length (record_body default_format
                           (le_bytes 4 8 ++ le_bytes 8 4619567317775286272
                            ++ le_bytes 4 0 ++ le_bytes 4 8)))
     <-> length (records physical0) = 1%nat).
Proof.
  apply (physical_record_layout default_format physical0).
  vm_compute. reflexivity.
Defined.

(** *** The length fields *)

(** X3: the reader compares the two length fields and nothing else: the
    body of a kept record between two length fields of any value is read
    as the record when the fields are equal, and refused with [MsbError]
    when they differ; the value is never held against the bytes read. *)
Theorem length_fields_only_compared (f : MsbFormat)
    (rec : MsbPhysicalRecord) (bs bz bz' rest : list Byte.byte) (z z' : Z) :
  write_physical_record f rec [] = Ok bs ->
  keeps_physical f rec ->
  write_int f z [] = Ok bz -> write_int f z' [] = Ok bz' ->
  read_physical_record f (bz ++ record_body f bs ++ bz' ++ rest)
  = if z' =? z then Ok (Some rec, rest) else Err MsbError.
Proof. apply read_framed. Qed.

Lemma length_fields_only_compared_witness :
  exists bs,
    write_physical_record default_format (physical_of 0.25) [] = Ok bs /\
    read_physical_record default_format
      (le_bytes 4 0 ++ record_body default_format bs ++ le_bytes 4 0 ++ [])
    = Ok (Some (physical_of 0.25), []) /\
    read_physical_record default_format
      (le_bytes 4 0 ++ record_body default_format bs ++ le_bytes 4 1 ++ [])
    = Err MsbError.
Proof.
  destruct (write_physical_record default_format (physical_of 0.25) [])
    as [bs|] eqn:E; [|vm_compute in E; discriminate E].
  exists bs. split; [reflexivity|]. split.
  - apply (length_fields_only_compared default_format (physical_of 0.25) bs
             (le_bytes 4 0) (le_bytes 4 0) [] 0 0 E
             keeps_physical_of_quarter eq_refl eq_refl).
  - apply (length_fields_only_compared default_format (physical_of 0.25) bs
             (le_bytes 4 0) (le_bytes 4 1) [] 0 1 E
             keeps_physical_of_quarter eq_refl eq_refl).
Defined.

(** *** Streams of records *)

Lemma write_physical_record_app (f : MsbFormat) (rec : MsbPhysicalRecord)
    (out : list Byte.byte) :
  write_physical_record f rec out
  = (b ← write_physical_record f rec []; Ok (out ++ b)).
Proof.
  unfold write_physical_record.
  destruct (all_floats (records rec)) as [bufs|]; [|reflexivity].
  cbn [mbind result_mbind result_bind].
  set (length1 := _ + _ + _).
  rewrite (write_int_app f length1 out).
  destruct (write_int f length1 []) as [b1|] eqn:E1; [|reflexivity].
  cbn [mbind result_mbind result_bind].
  rewrite (write_uid_app f _ (out ++ b1)), (write_uid_app f _ b1).
  destruct (write_uid f (uid rec) []) as [bu|]; [|reflexivity].
  cbn [mbind result_mbind result_bind].
  rewrite (write_int_app f _ ((out ++ b1) ++ bu)),
    (write_int_app f _ (b1 ++ bu)).
  destruct (write_int f (total_values bufs) []) as [b3|]; [|reflexivity].
  cbn [mbind result_mbind result_bind].
  rewrite (write_logicals_app f _ _ (((out ++ b1) ++ bu) ++ b3)),
    (write_logicals_app f _ _ ((b1 ++ bu) ++ b3)).
  destruct (write_logicals f (records rec) bufs []) as [b4|]; [|reflexivity].
  cbn [mbind result_mbind result_bind].
  rewrite (write_int_app f _ ((((out ++ b1) ++ bu) ++ b3) ++ b4)),
    (write_int_app f _ (((b1 ++ bu) ++ b3) ++ b4)), E1.
  cbn [mbind result_mbind result_bind]. now rewrite !app_assoc.
Qed.

Lemma write_msb_app (f : MsbFormat) (recs : list MsbPhysicalRecord)
    (out : list Byte.byte) :
  write_msb f recs out = (b ← write_msb f recs []; Ok (out ++ b)).
Proof.
  revert out; induction recs as [|rec recs IH]; intros out;
    cbn [write_msb].
  - cbn. now rewrite app_nil_r.
  - rewrite (write_physical_record_app f rec out).
    destruct (write_physical_record f rec []) as [b|]; [|reflexivity].
    cbn [mbind result_mbind result_bind]. rewrite (IH (out ++ b)), (IH b).
    destruct (write_msb f recs []) as [b'|]; [|reflexivity].
    cbn [mbind result_mbind result_bind]. now rewrite app_assoc.
Qed.

Lemma read_msb_eq (f : MsbFormat) (fp : list Byte.byte) :
  read_msb f fp
  = match read_physical_record f fp with
    | Err e => Err e
    | Ok (None, _) => Ok []
    | Ok (Some rec, fp') => recs ← read_msb f fp'; Ok (rec :: recs)
    end.
Proof.
  simp read_msb.
  destruct (inspect (read_physical_record f fp)) as [[[[rec|] fp']|e] Hy];
    cbn; rewrite Hy; reflexivity.
Qed.

(** X4: the records that [write_msb] wrote are the records that [read_msb]
    yields, in order, when the format keeps each of them; bytes after
    them that are fewer than a length field are dropped without an
    error. *)
Theorem msb_roundtrip (f : MsbFormat) (recs : list MsbPhysicalRecord)
    (bs junk : list Byte.byte) :
  write_msb f recs [] = Ok bs ->
  Forall (keeps_physical f) recs ->
  (length junk < int_size (int_type f))%nat ->
  read_msb f (bs ++ junk) = Ok recs.
Proof.
  intros Hw Hk Hj. revert bs Hw.
  induction Hk as [|rec recs Hrec _ IH]; intros bs; cbn [write_msb].
  - intros [= <-]. rewrite read_msb_eq. cbn [app].
    now rewrite read_physical_record_short.
  - intros H.
    destruct (write_physical_record f rec []) as [c1|] eqn:E1;
      [|discriminate].
    cbn [mbind result_mbind result_bind] in H.
    rewrite write_msb_app in H.
    destruct (write_msb f recs []) as [c2|] eqn:E2; [|discriminate].
    cbn [mbind result_mbind result_bind] in H.
    injection H as <-. rewrite read_msb_eq, <- app_assoc.
    rewrite (read_physical_record_written _ _ _ _ E1 Hrec).
    now rewrite (IH _ eq_refl).
Qed.

Lemma msb_roundtrip_witness :
  exists bs,
    write_msb default_format [physical_of 0.25; physical0] [] = Ok bs /\
    read_msb default_format (bs ++ [Byte.x01; Byte.x02])
    = Ok [physical_of 0.25; physical0].
Proof.
  destruct (write_msb default_format [physical_of 0.25; physical0] [])
    as [bs|] eqn:E; [|vm_compute in E; discriminate E].
  exists bs. split; [reflexivity|].
  apply (msb_roundtrip default_format [physical_of 0.25; physical0] bs
           [Byte.x01; Byte.x02] E); [|cbn; lia].
  constructor; [|constructor; [|constructor]].
  - apply keeps_physical_of_quarter.
  - split; [|constructor].
    eexists. split; [vm_compute; reflexivity|]. vm_compute; reflexivity.
Defined.

End MsbRoundTrip.


(** ** Statements on one line, and the length of every line *)

Section WriterLines.
Import ParWriter.

Lemma columns_remain (w : Z) (c : cursor) :
  in_step w c -> columns c = w - remain c.
Proof. unfold in_step. lia. Qed.

Lemma put_line_below (w : Z) (c : cursor) :
  lines_below w (buf c) -> in_step w c -> 0 < remain c ->
  lines_below w (put_line c).
Proof.
  intros Hb Hin Hr.
  replace (put_line c)
    with (buf c ++ (first_piece (first c) ++ line c) ++ [nl])
    by (unfold put_line; now rewrite <- !app_assoc).
  constructor; [exact Hb|].
  fold (columns c). rewrite (columns_remain _ _ Hin). lia.
Qed.

Lemma add_remain (c : cursor) (p : string) :
  remain c - 1 - len p <= remain (add c p) /\ buf (add c p) = buf c.
Proof.
  unfold add. destruct (line c); cbn -[len Z.sub]; split; lia || reflexivity.
Qed.

Lemma step_below (w : Z) (k : kind) (c c' : cursor) (p : string) :
  len p + cont_cost k < w ->
  lines_below w (buf c) -> in_step w c -> (line c <> [] -> 0 < remain c) ->
  step w k c p = Ok c' ->
  lines_below w (buf c') /\ 0 < remain c'.
Proof.
  intros Hp Hb Hin Hr. unfold step, wrap.
  destruct (must_wrap c p) eqn:Ew.
  - destruct (line c) as [|t l] eqn:El; [discriminate|].
    cbn [mbind result_mbind result_bind]. intros [= <-].
    destruct (add_remain {| buf := put_line c; line := [];
                            remain := w - cont_cost k;
                            first := Some (cont_marker k) |} p) as [_ Hbuf].
    rewrite Hbuf. cbn [buf]. split.
    + apply put_line_below; [exact Hb|exact Hin|apply Hr; congruence].
    + unfold add. cbn [line remain]. lia.
  - cbn [mbind result_mbind result_bind]. intros [= <-].
    destruct (add_remain c p) as [Hrem Hbuf]. rewrite Hbuf.
    split; [exact Hb|]. unfold must_wrap in Ew. apply Z.leb_gt in Ew. lia.
Qed.

Lemma run_below (w : Z) (k : kind) (params : list string) (c c' : cursor) :
  Forall (fun p => len p + cont_cost k < w) params ->
  lines_below w (buf c) -> in_step w c -> (line c <> [] -> 0 < remain c) ->
  run w k c params = Ok c' ->
  lines_below w (buf c') /\ in_step w c' /\ (line c' <> [] -> 0 < remain c').
Proof.
  intros Hp. revert c. induction Hp as [|p rest Hp _ IH]; intros c Hb Hin Hr;
    cbn [run].
  - intros [= <-]. auto.
  - destruct (step w k c p) as [c1|] eqn:E; [|discriminate].
    cbn [mbind result_mbind result_bind].
    destruct (step_below _ _ _ _ _ Hp Hb Hin Hr E) as [Hb1 Hr1].
    apply IH; eauto using step_in_step.
Qed.

(** X16: every line is below the budget: when each token of a statement
    fits on a continuation line of its kind, the statement is added to a
    buffer of whole lines shorter than [line_wrap] columns as whole lines
    shorter than [line_wrap] columns. *)
Theorem emit_lines_below (line_wrap : Z) (k : kind) (params : list string)
    (buf0 buf' : list string) :
  Forall (fun p => len p + cont_cost k < line_wrap) params ->
  lines_below line_wrap buf0 ->
  emit line_wrap k params buf0 = Ok buf' ->
  lines_below line_wrap buf'.
Proof.
  intros Hp Hb. unfold emit.
  destruct (run line_wrap k (start line_wrap k buf0) params) as [c|] eqn:E;
    [|discriminate].
  cbn [mbind result_mbind result_bind]. intros [= <-].
  assert (Hb0 : lines_below line_wrap (buf (start line_wrap k buf0)))
    by now destruct k.
  assert (Hl0 : line (start line_wrap k buf0) <> [] ->
                0 < remain (start line_wrap k buf0))
    by (destruct k; cbn; congruence).
  destruct (run_below _ _ _ _ _ Hp Hb0 (start_in_step line_wrap k buf0)
              Hl0 E) as (Hb' & Hin & Hr).
  destruct (line c) as [|t l] eqn:El; [exact Hb'|].
  apply put_line_below; [exact Hb'|exact Hin|apply Hr; congruence].
Qed.

Lemma emit_lines_below_witness :
  lines_below 11 ["AB"; " "; "123456"; nl; "    "; "7"; nl]%string.
Proof.
  apply (emit_lines_below 11 Kcommand ["AB"; "123456"; "7"]%string [] _).
  - repeat (constructor; [reflexivity|]). constructor.
  - constructor.
  - reflexivity.
Defined.

(** *** Statements that fit on one line *)

Lemma total_len_nonneg (params : list string) : 0 <= total_len params.
Proof.
  induction params as [|p l IH]; [reflexivity|].
  change (total_len (p :: l)) with (len p + total_len l). unfold len. lia.
Qed.

Lemma run_more (w : Z) (k : kind) (rest : list string) (c : cursor) :
  line c <> [] ->
  0 < remain c - total_len rest - Z.of_nat (length rest) ->
  run w k c rest
  = Ok {| buf := buf c;
          line := line c ++ concat (map (fun q => [" "%string; q]) rest);
          remain := remain c - total_len rest - Z.of_nat (length rest);
          first := first c |}.
Proof.
  revert c; induction rest as [|p rest IH]; intros c Hl Hr.
  - cbn. rewrite app_nil_r, !Z.sub_0_r. now destruct c.
  - cbn [total_len foldr length] in Hr. fold (total_len rest) in Hr.
    rewrite Nat2Z.inj_succ in Hr.
    pose proof (total_len_nonneg rest) as Hlen.
    cbn [run]. unfold step, wrap, must_wrap.
    destruct (_ <=? 0) eqn:Ew; [apply Z.leb_le in Ew; lia|].
    cbn [mbind result_mbind result_bind].
    rewrite IH.
    + unfold add. destruct (line c) as [|t l] eqn:El; [congruence|].
      cbn [buf line remain first map concat total_len foldr length].
      fold (total_len rest). rewrite Nat2Z.inj_succ.
      f_equal. f_equal; [now rewrite <- !app_assoc|lia].
    + apply add_line.
    + unfold add. destruct (line c) as [|t l] eqn:El; [congruence|].
      cbn [remain]. lia.
Qed.

(** X17: a statement that fits is written on one line: when the marker of
    the kind, the tokens and one column for each token stay below the
    budget, the statement is put into the buffer as its marker, the tokens
    with one space between two of them, and a newline. *)
Theorem emit_one_line (line_wrap : Z) (k : kind) (params : list string)
    (buf0 : list string) :
  params <> [] ->
  columns (start line_wrap k buf0) + total_len params
  + Z.of_nat (length params) < line_wrap ->
  emit line_wrap k params buf0
  = Ok (buf0 ++ first_piece (first (start line_wrap k buf0))
        ++ spaced params ++ [nl]).
Proof.
  destruct params as [|p rest]; [congruence|]. intros _ Hfit.
  pose proof (start_in_step line_wrap k buf0) as Hin.
  rewrite (columns_remain _ _ Hin) in Hfit.
  cbn [total_len foldr length] in Hfit. fold (total_len rest) in Hfit.
  rewrite Nat2Z.inj_succ in Hfit.
  pose proof (total_len_nonneg rest) as Hlen.
  unfold emit. cbn [run]. unfold step, wrap, must_wrap.
  destruct (_ <=? 0) eqn:Ew; [apply Z.leb_le in Ew; lia|].
  cbn [mbind result_mbind result_bind].
  rewrite run_more.
  - cbn [mbind result_mbind result_bind line].
    assert (Hs : line (start line_wrap k buf0) = []) by now destruct k.
    unfold add. rewrite Hs. cbn [line buf first app].
    unfold put_line. cbn [buf first line spaced].
    assert (Hb : buf (start line_wrap k buf0) = buf0) by now destruct k.
    rewrite Hb, Hs. cbn [app]. now rewrite <- !app_assoc.
  - apply add_line.
  - assert (Hs : line (start line_wrap k buf0) = []) by now destruct k.
    unfold add. rewrite Hs. cbn [remain]. lia.
Qed.

Lemma emit_one_line_witness :
  emit 130 Kstring ["1"; "thinning"]%string []
  = Ok ([] ++ first_piece (first (start 130 Kstring []))
        ++ spaced ["1"; "thinning"]%string ++ [nl]).
Proof.
  apply (emit_one_line 130 Kstring ["1"; "thinning"]%string []).
  - discriminate.
  - vm_compute. reflexivity.
Defined.

(** *** Failures, and what a statement adds *)

Lemma step_filled (w : Z) (k : kind) (c : cursor) (p : string) :
  line c <> [] ->
  exists c', step w k c p = Ok c' /\ line c' <> [] /\
    exists more, buf c' = buf c ++ more.
Proof.
  intros Hl. unfold step, wrap. destruct (must_wrap c p).
  - destruct (line c) as [|t l] eqn:El; [congruence|].
    eexists. split; [reflexivity|]. split; [apply add_line|].
    destruct (add_remain {| buf := put_line c; line := [];
                            remain := w - cont_cost k;
                            first := Some (cont_marker k) |} p) as [_ Hb].
    rewrite Hb. cbn [buf]. unfold put_line. rewrite <- !app_assoc. eauto.
  - eexists. split; [reflexivity|]. split; [apply add_line|].
    destruct (add_remain c p) as [_ Hb]. rewrite Hb.
    exists []. now rewrite app_nil_r.
Qed.

Lemma run_filled (w : Z) (k : kind) (params : list string) (c : cursor) :
  line c <> [] ->
  exists c', run w k c params = Ok c' /\ line c' <> [] /\
    exists more, buf c' = buf c ++ more.
Proof.
  revert c; induction params as [|p rest IH]; intros c Hl; cbn [run].
  - exists c. repeat split; auto. exists []. now rewrite app_nil_r.
  - destruct (step_filled w k c p Hl) as (c1 & Hs & Hl1 & m1 & Hb1).
    rewrite Hs. cbn [mbind result_mbind result_bind].
    destruct (IH c1 Hl1) as (c2 & Hr & Hl2 & m2 & Hb2).
    exists c2. repeat split; auto. exists (m1 ++ m2).
    now rewrite Hb2, Hb1, app_assoc.
Qed.

Lemma start_fields (w : Z) (k : kind) (buf0 : list string) :
  buf (start w k buf0) = buf0 /\ line (start w k buf0) = [].
Proof. now destruct k. Qed.

(** X21: a statement fails on its first token or not at all: [emit] raises
    an exception exactly when the statement has a first token for which
    the test [remain - 1 - len(p) <= 0] holds on the empty first line, and
    the exception is [ParError]; no later token makes it fail. *)
Theorem emit_fails_on_first_token (line_wrap : Z) (k : kind)
    (params : list string) (buf0 : list string) (e : exn) :
  emit line_wrap k params buf0 = Err e <->
  e = ParError /\
  exists p rest,
    params = p :: rest /\
    remain (start line_wrap k buf0) - 1 - len p <= 0.
Proof.
  destruct (start_fields line_wrap k buf0) as [Hb Hl].
  unfold emit. destruct params as [|p rest]; cbn [run].
  - split; [discriminate|]. intros (_ & p & rest & H & _). discriminate.
  - unfold step, wrap, must_wrap. rewrite Hl.
    destruct (_ <=? 0) eqn:Ew.
    + apply Z.leb_le in Ew. cbn [mbind result_mbind result_bind]. split.
      * intros [= <-]. eauto.
      * now intros [-> _].
    + apply Z.leb_gt in Ew. cbn [mbind result_mbind result_bind].
      destruct (run_filled line_wrap k rest (add (start line_wrap k buf0) p)
                  (add_line _ _)) as (c' & Hr & _).
      rewrite Hr. cbn [mbind result_mbind result_bind]. split.
      * discriminate.
      * intros (_ & p' & rest' & [= <- <-] & H). lia.
Qed.

(** X22: a statement only adds to the buffer: what [emit] returns is the
    buffer it was given followed by what it adds; an empty statement adds
    nothing, and what any other statement adds ends with a newline. *)
Theorem emit_appends (line_wrap : Z) (k : kind) (params : list string)
    (buf0 buf' : list string) :
  emit line_wrap k params buf0 = Ok buf' ->
  exists more,
    buf' = buf0 ++ more /\
    (params = [] -> more = []) /\
    (params <> [] -> exists m, more = m ++ [nl]).
Proof.
  destruct (start_fields line_wrap k buf0) as [Hb Hl].
  unfold emit. destruct params as [|p rest]; cbn [run].
  - cbn [mbind result_mbind result_bind]. rewrite Hl, Hb. intros [= <-].
    exists []. rewrite app_nil_r. repeat split; congruence.
  - unfold step, wrap. destruct (must_wrap _ p).
    + rewrite Hl. discriminate.
    + cbn [mbind result_mbind result_bind].
      destruct (run_filled line_wrap k rest (add (start line_wrap k buf0) p)
                  (add_line _ _)) as (c' & Hr & Hl' & more & Hb').
      rewrite Hr. cbn [mbind result_mbind result_bind].
      destruct (line c') as [|t l] eqn:El; [congruence|].
      intros [= <-]. unfold put_line. rewrite Hb'.
      destruct (add_remain (start line_wrap k buf0) p) as [_ Hba].
      rewrite Hba, Hb, El.
      exists (((more ++ first_piece (first c')) ++ t :: l) ++ [nl]).
      split; [now rewrite <- !app_assoc|].
      split; [congruence|]. intros _. eauto.
Qed.

Lemma emit_appends_witness :
  exists more,
    ["X"; nl; "AB"; " "; "123456"; nl; "    "; "7"; nl]%string
    = ["X"; nl]%string ++ more /\
    (["AB"; "123456"; "7"]%string = [] -> more = []) /\
    (["AB"; "123456"; "7"]%string <> [] -> exists m, more = m ++ [nl]).
Proof.
  apply (emit_appends 10 Kcommand ["AB"; "123456"; "7"]%string
           ["X"; nl]%string).
  reflexivity.
Defined.

End WriterLines.

(** ** What decoding a condition yields *)

Section DecodedConditions.
Import DNFCondition.

Lemma float_neg_opp (x : float) :
  PrimFloat.ltb x 0 = true -> PrimFloat.ltb 0 (- x) = true.
Proof.
  rewrite !ltb_spec, opp_spec.
  change (Prim2SF 0) with (S754_zero false).
  destruct (Prim2SF x) as [[]|[]| |[] m e]; simpl; try discriminate;
    reflexivity.
Qed.

Lemma num_neg_opp (x : num) :
  num_ltb0 x = true -> num_gtb0 (num_opp x) = true.
Proof.
  destruct x as [z|f]; simpl.
  - intros H%Z.ltb_lt. apply Z.ltb_lt. lia.
  - apply float_neg_opp.
Qed.

Lemma split_terms_head (a : num) (rest : list num) :
  exists t ts, split_terms (a :: rest) = t :: ts /\ term_head t = a.
Proof.
  cbn [split_terms]. destruct rest as [|b rest']; [eauto|].
  destruct (num_ltb0 b); eauto.
Qed.

Lemma split_terms_unambiguous (cst : list num) :
  unambiguous (split_terms cst) = true.
Proof.
  remember (length cst) as n eqn:Hn. revert cst Hn.
  induction n as [n IH] using lt_wf_ind. intros cst Hn.
  destruct cst as [|a [|b rest']]; [reflexivity..|].
  rewrite split_terms_two. destruct (num_ltb0 b) eqn:Eb.
  - cbn [unambiguous]. rewrite (num_neg_opp _ Eb).
    apply (IH (length rest')); [cbn in Hn; lia|reflexivity].
  - destruct (split_terms_head b rest') as (t & ts & Hs & Ht).
    assert (Hu : unambiguous (split_terms (b :: rest')) = true)
      by (apply (IH (length (b :: rest'))); [cbn in *; lia|reflexivity]).
    rewrite Hs in *. cbn [unambiguous]. rewrite Ht, Eb. exact Hu.
Qed.

Lemma read_constraint_wf (nv : Z) (args : list num) (c : Constraint) :
  read_constraint nv args = Ok c -> wf_constraint c.
Proof.
  unfold read_constraint. destruct args as [|v args]; [discriminate|].
  intros H. inv_bind H. injection H as <-. split; [reflexivity|].
  apply split_terms_unambiguous.
Qed.

Lemma loop_wf (args : list num) :
  forall gs g res,
    Forall (fun g => g <> [] /\ Forall wf_constraint g) gs ->
    Forall wf_constraint g ->
    loop gs g args = Ok res ->
    Forall (fun g => g <> [] /\ Forall wf_constraint g) res.
Proof.
  remember (length args) as n eqn:Hn. revert args Hn.
  induction n as [n IH] using lt_wf_ind. intros args Hn gs g res Hgs Hg.
  assert (Hclose : Forall (fun g => g <> [] /\ Forall wf_constraint g)
                     (close_group gs g)).
  { unfold close_group. destruct g as [|c g']; [exact Hgs|].
    apply Forall_app. split; [exact Hgs|].
    constructor; [|constructor]. split; [discriminate|exact Hg]. }
  destruct args as [|a args1].
  - rewrite loop_nil. now intros [= <-].
  - rewrite loop_cons. destruct (py_int a) as [nv|]; [|discriminate].
    destruct (nv =? 0).
    + apply (IH (length args1)); [cbn in Hn; lia|reflexivity|exact Hclose|].
      constructor.
    + destruct (read_constraint nv args1) as [c|] eqn:Ec; [|discriminate].
      apply (IH (length (slice_from nv args1))).
      * unfold slice_from. rewrite length_drop. cbn in Hn. lia.
      * reflexivity.
      * exact Hgs.
      * apply Forall_app. split; [exact Hg|].
        constructor; [|constructor]. eapply read_constraint_wf, Ec.
Qed.

(** X18: what decoding yields is written and read back as it is: every
    condition that [from_floats] gives has no empty group, names its
    variables as [get_var] does and holds values that are told apart as
    they are written, so that decoding the floats of its encoding gives
    the same condition. *)
Theorem dnf_decoded_canonical (args : list num) (C : t) :
  from_floats args = Ok C ->
  wf_condition C /\ from_floats (to_floats C) = Ok C.
Proof.
  unfold from_floats. intros H. inv_bind H. injection H as <-.
  assert (Hwf : wf_condition {| groups := x |}).
  { unfold wf_condition. cbn [groups].
    eapply (loop_wf args [] []); eauto. }
  split; [exact Hwf|]. now apply from_floats_to_floats.
Qed.

Lemma dnf_decoded_canonical_witness :
  wf_condition
    {| groups := [[ {| var := get_var 42;
                       values := [Lit (PFloat 3);
                                  Range (PFloat 5) (PFloat 10)] |} ]] |} /\
  from_floats
    (to_floats
       {| groups := [[ {| var := get_var 42;
                          values := [Lit (PFloat 3);
                                     Range (PFloat 5) (PFloat 10)] |} ]] |})
  = Ok {| groups := [[ {| var := get_var 42;
                          values := [Lit (PFloat 3);
                                     Range (PFloat 5) (PFloat 10)] |} ]] |}.
Proof.
  apply (dnf_decoded_canonical
           [PFloat 4; PFloat 42; PFloat 3; PFloat 5; PFloat (-10); PFloat 0;
            PFloat 0]).
  vm_compute. reflexivity.
Defined.

End DecodedConditions.

(** ** Routine calls *)

Section RoutineCalls.

(** X19: a routine call is read back from its floats, whose second float is
    always written as 1; reading takes the first float as the routine and
    the floats after the second as the arguments, and never looks at the
    second; the empty list is refused with [IndexError]. *)
Theorem routine_call_roundtrip (c : RoutineCall) (r x : num)
    (rest : list num) :
  RoutineCall.from_floats (RoutineCall.to_floats c) = Ok c /\
  RoutineCall.from_floats (r :: x :: rest)
  = Ok {| routine := r; args := rest |} /\
  RoutineCall.to_floats {| routine := r; args := rest |}
  = r :: PInt 1 :: rest /\
  RoutineCall.from_floats [r] = Ok {| routine := r; args := [] |} /\
  RoutineCall.from_floats [] = Err IndexError.
Proof.
  assert (H : forall (a b : num) l, slice_from 2 (a :: b :: l) = l).
  { intros a b l. unfold slice_from, slice_index.
    change (2 <? 0) with false. cbn match. cbn [length].
    rewrite Z.max_r, Z.min_r by lia. reflexivity. }
  repeat split.
  - destruct c as [r0 a]. unfold RoutineCall.to_floats, RoutineCall.from_floats.
    cbn [routine args]. now rewrite H.
  - unfold RoutineCall.from_floats. now rewrite H.
Qed.

End RoutineCalls.

(** ** Linking again *)

Section LinkingAgain.
Import ParEventLinks.

Lemma link_one_fields (set : event -> list link -> event) (par par' : Par.t)
    (item : event_id * list event_id) :
  link_one set par item = Ok par' ->
  par' = Par.with_events par (Par.events par').
Proof.
  unfold link_one. destruct item as [id ids].
  destruct (bool_decide _).
  - intros H. inv_binds. now injection H as <-.
  - intros [= <-]. now destruct par.
Qed.

Lemma link_items_fields (set : event -> list link -> event)
    (items : list (event_id * list event_id)) (par par' : Par.t) :
  link_items set par items = Ok par' ->
  par' = Par.with_events par (Par.events par').
Proof.
  revert par; induction items as [|item items IH]; intros par;
    cbn [link_items].
  - intros [= <-]. now destruct par.
  - intros H. inv_bind H. apply link_one_fields in E. apply IH in H.
    rewrite H, E. reflexivity.
Qed.

Lemma linked_dom (set : event -> list link -> event)
    (evs evs' : gmap event_id event) (table : gmap event_id (list event_id))
    (id : event_id) (ev : event) :
  dom evs' = dom evs -> linked set evs' table id ev = linked set evs table id ev.
Proof.
  intros Hd. unfold linked. destruct (table !! id) as [ids|]; [|reflexivity].
  f_equal. apply map_ext. intros eid. now apply link_of_dom.
Qed.

Lemma linked_again (evs : gmap event_id event)
    (comp prec : gmap event_id (list event_id)) (id : event_id)
    (ev : event) :
  let once :=
    linked set_feasible_precedessors evs prec id
      (linked set_comparable_events evs comp id ev) in
  linked set_feasible_precedessors evs prec id
    (linked set_comparable_events evs comp id once) = once.
Proof.
  unfold linked. destruct (comp !! id), (prec !! id), ev; reflexivity.
Qed.

(** X20: linking again changes nothing: the model that the linking pass
    returns is returned as it is by a second pass over the same tables,
    and the pass touches the events only; the includes, the years, the
    output and the control of the model are those it was given. *)
Theorem link_events_idempotent (links : t) (par par' : Par.t) :
  link_events links par = Ok par' ->
  link_events links par' = Ok par' /\
  par' = Par.with_events par (Par.events par').
Proof.
  unfold link_events.
  destruct (link_table_spec set_comparable_events par (comparable links))
    as (par1 & Hr1 & Hd1 & Hl1).
  destruct (link_table_spec set_feasible_precedessors par1
              (precedessors links)) as (par2 & Hr2 & Hd2 & Hl2).
  rewrite Hr1. cbn [mbind result_mbind result_bind]. rewrite Hr2.
  intros [= <-].
  destruct (link_table_spec set_comparable_events par2 (comparable links))
    as (par3 & Hr3 & Hd3 & Hl3).
  destruct (link_table_spec set_feasible_precedessors par3
              (precedessors links)) as (par4 & Hr4 & Hd4 & Hl4).
  rewrite Hr3. cbn [mbind result_mbind result_bind]. rewrite Hr4.
  pose proof (link_items_fields _ _ _ _ Hr1) as F1.
  pose proof (link_items_fields _ _ _ _ Hr2) as F2.
  pose proof (link_items_fields _ _ _ _ Hr3) as F3.
  pose proof (link_items_fields _ _ _ _ Hr4) as F4.
  assert (He : Par.events par4 = Par.events par2).
  { apply map_eq. intros k. rewrite Hl4, Hl3, Hl2, Hl1.
    destruct (Par.events par !! k) as [e|]; [|reflexivity].
    cbn [fmap option_fmap option_map]. f_equal.
    rewrite (linked_dom _ (Par.events par) (Par.events par3))
      by (now rewrite Hd3, Hd2, Hd1).
    rewrite (linked_dom _ (Par.events par) (Par.events par2))
      by (now rewrite Hd2, Hd1).
    rewrite (linked_dom _ (Par.events par) (Par.events par1))
      by (now rewrite Hd1).
    apply linked_again. }
  split.
  - f_equal. rewrite F4, F3, He. destruct par2. reflexivity.
  - rewrite F2, F1. destruct par. reflexivity.
Qed.

Lemma link_events_idempotent_witness :
  exists par',
    link_events links12 par12 = Ok par' /\
    link_events links12 par' = Ok par'.
Proof.
  destruct (link_events links12 par12) as [par'|] eqn:E;
    [|vm_compute in E; discriminate E].
  exists par'. split; [reflexivity|].
  apply (link_events_idempotent links12 par12 par' E).
Defined.

End LinkingAgain.

(** ** Doubles are kept *)

Section DoubleFormat.
Import Struct Msb.

Lemma digits2_bounds (m : positive) :
  2 ^ (Z.pos (digits2_pos m) - 1) <= Z.pos m < 2 ^ Z.pos (digits2_pos m).
Proof.
  induction m as [m IH|m IH|]; cbn [digits2_pos].
  - rewrite Pos2Z.inj_succ.
    replace (Z.succ (Z.pos (digits2_pos m)) - 1)
      with (Z.succ (Z.pos (digits2_pos m) - 1)) by lia.
    rewrite !Z.pow_succ_r by lia. lia.
  - rewrite Pos2Z.inj_succ.
    replace (Z.succ (Z.pos (digits2_pos m)) - 1)
      with (Z.succ (Z.pos (digits2_pos m) - 1)) by lia.
    rewrite !Z.pow_succ_r by lia. lia.
  - cbn. lia.
Qed.

Lemma valid_finite_cases (s : bool) (m : positive) (e : Z) :
  valid_binary (S754_finite s m e) = true ->
  (Z.pos m < 2 ^ 52 /\ e = -1074) \/
  (2 ^ 52 <= Z.pos m < 2 ^ 53 /\ -1074 <= e <= 971).
Proof.
  unfold SpecFloat.valid_binary, bounded, canonical_mantissa, fexp,
    SpecFloat.emin.
  change prec with 53. change emax with 1024.
  intros [H1%Z.eqb_eq H2%Z.leb_le]%andb_prop.
  pose proof (digits2_bounds m) as [Hlo Hhi].
  set (d := Z.pos (digits2_pos m)) in *.
  assert (Hd : 0 < d) by (unfold d; lia).
  destruct (Z_le_gt_dec d 52) as [Hle|Hgt].
  - left. split; [|lia].
    eapply Z.lt_le_trans; [exact Hhi|]. apply Z.pow_le_mono_r; lia.
  - assert (d = 53) by lia. right. split; [|lia]. split.
    + eapply Z.le_trans; [|exact Hlo]. apply Z.pow_le_mono_r; lia.
    + replace 53 with d by lia. exact Hhi.
Qed.

Lemma bits_fields (S E F : Z) :
  S = 0 \/ S = 2 ^ (52 + 11) -> 0 <= E < 2 ^ 11 -> 0 <= F < 2 ^ 52 ->
  (S + E * 2 ^ 52 + F) mod 2 ^ 52 = F /\
  ((S + E * 2 ^ 52 + F) / 2 ^ 52) mod 2 ^ 11 = E /\
  Z.testbit (S + E * 2 ^ 52 + F) (52 + 11) = (S =? 2 ^ (52 + 11)) /\
  0 <= S + E * 2 ^ 52 + F < 2 ^ 64.
Proof.
  change (2 ^ (52 + 11)) with 9223372036854775808.
  change (2 ^ 52) with 4503599627370496. change (2 ^ 11) with 2048.
  change (2 ^ 64) with 18446744073709551616.
  change (52 + 11) with 63.
  intros HS HE HF.
  assert (G : forall q0 q1 : Z,
    S = q0 * 4503599627370496 -> S = q1 * 9223372036854775808 ->
    0 <= q1 < 2 -> q0 = 2048 * q1 ->
    (S + E * 4503599627370496 + F) mod 4503599627370496 = F /\
    ((S + E * 4503599627370496 + F) / 4503599627370496) mod 2048 = E /\
    (S + E * 4503599627370496 + F) / 9223372036854775808 = q1).
  { intros q0 q1 H0 H1 Hq1 Hq.
    assert (Hd : (S + E * 4503599627370496 + F) / 4503599627370496
                 = q0 + E).
    { symmetry. apply (Z.div_unique _ _ _ F); lia. }
    split; [|split].
    - symmetry. apply (Z.mod_unique _ _ (q0 + E)); lia.
    - rewrite Hd. symmetry. apply (Z.mod_unique _ _ q1); lia.
    - symmetry.
      apply (Z.div_unique _ _ _ (E * 4503599627370496 + F)); lia. }
  destruct HS as [->| ->].
  - destruct (G 0 0) as (H1 & H2 & H3); try lia.
    split; [exact H1|]. split; [exact H2|]. split; [|lia].
    change (0 =? 9223372036854775808) with false.
    apply Z.testbit_false; [lia|].
    change (2 ^ 63) with 9223372036854775808. now rewrite H3.
  - destruct (G 2048 1) as (H1 & H2 & H3); try lia.
    split; [exact H1|]. split; [exact H2|]. split; [|lia].
    change (9223372036854775808 =? 9223372036854775808) with true.
    apply Z.testbit_true; [lia|].
    change (2 ^ 63) with 9223372036854775808. now rewrite H3.
Qed.

Lemma sign_cases (s : bool) :
  let S := if s then 2 ^ (52 + 11) else 0 in
  (S = 0 \/ S = 2 ^ (52 + 11)) /\ (S =? 2 ^ (52 + 11)) = s.
Proof. destruct s; cbn; auto. Qed.

(** The 64 bits of a float give the float back. *)
Lemma sf_bits_roundtrip (x : spec_float) :
  valid_binary x = true ->
  sf_of_bits 52 11 (bits_of_sf 52 11 x) = x /\
  0 <= bits_of_sf 52 11 x < 2 ^ 64.
Proof.
  destruct x as [s|s| |s m e]; intros Hv.
  - destruct s; split; reflexivity || (cbn; lia).
  - destruct s; split; reflexivity || (cbn; lia).
  - split; reflexivity || (cbn; lia).
  - unfold bits_of_sf, sf_of_bits. cbv zeta.
    destruct (sign_cases s) as [HS Hs]. cbv zeta in HS, Hs.
    destruct (valid_finite_cases _ _ _ Hv) as [[Hm ->]|[Hm He]].
    + destruct (Z.pos m <? 2 ^ 52) eqn:Em; [|apply Z.ltb_ge in Em; lia].
      destruct (bits_fields (if s then 2 ^ (52 + 11) else 0) 0 (Z.pos m) HS)
        as (Hf & HE & Ht & Hb); [cbn; lia|lia|].
      rewrite Z.mul_0_l, Z.add_0_r in Hf, HE, Ht, Hb.
      rewrite Hf, HE, Ht, Hs. split; [|exact Hb].
      change (0 =? 0) with true. cbn match.
      destruct (Z.pos m =? 0) eqn:E0; [apply Z.eqb_eq in E0; lia|].
      reflexivity.
    + destruct (Z.pos m <? 2 ^ 52) eqn:Em; [apply Z.ltb_lt in Em; lia|].
      change (2 ^ (11 - 1) - 1) with 1023.
      change (2 ^ 11 - 1) with 2047.
      destruct (bits_fields (if s then 2 ^ (52 + 11) else 0)
                  (e + 1023 + 52) (Z.pos m - 2 ^ 52) HS)
        as (Hf & HE & Ht & Hb);
        [change (2 ^ 11) with 2048; lia
        |change (2 ^ 53) with (2 * 2 ^ 52) in Hm; lia|].
      rewrite Hf, HE, Ht, Hs. split; [|exact Hb].
      destruct (e + 1023 + 52 =? 0) eqn:E0; [apply Z.eqb_eq in E0; lia|].
      destruct (e + 1023 + 52 =? 2047) eqn:E1;
        [apply Z.eqb_eq in E1; lia|].
      f_equal; [|lia].
      replace (Z.pos m - 2 ^ 52 + 2 ^ 52) with (Z.pos m) by lia.
      reflexivity.
Qed.

Lemma unpack_pack_double (y : float) (b : list Byte.byte) :
  pack_float Fmt_d (PFloat y) = Ok b ->
  length b = 8%nat /\ unpack_float Fmt_d b = y.
Proof.
  unfold pack_float, unpack_float. cbn [py_float mbind result_mbind result_bind].
  intros H.
  assert (Hb0 : b = le_bytes 8 (bits_of_sf 52 11 (Prim2SF y)))
    by congruence.
  clear H. subst b. split; [apply length_le_bytes|].
  destruct (sf_bits_roundtrip _ (Prim2SF_valid y)) as [Hr Hb].
  rewrite le_value_bytes.
  change (256 ^ Z.of_nat 8) with (2 ^ 64).
  rewrite Z.mod_small by exact Hb. rewrite Hr. apply SF2Prim_Prim2SF.
Qed.

Section Kept.
Variable f : MsbFormat.
Hypothesis Hfloat : float_type f = Fmt_d.

Lemma read_all_bytes (sz : nat) (b : list Byte.byte) :
  length b = sz -> _read (Z.of_nat sz) b = Ok (b, []).
Proof.
  intros Hl. rewrite <- (app_nil_r b) at 1.
  apply read_app; [lia|]. now rewrite Nat2Z.id.
Qed.

Lemma double_keeps_float (x : num) :
  isfinite x = Ok true -> keeps_float f x.
Proof.
  unfold isfinite. destruct (py_float x) as [y|] eqn:Ey; [|discriminate].
  cbn [mbind result_mbind result_bind]. intros Hfin.
  assert (Hp : exists b, pack_float Fmt_d x = Ok b /\
                 pack_float Fmt_d (PFloat y) = Ok b).
  { unfold pack_float. rewrite Ey. cbn. eauto. }
  destruct Hp as (b & Hb & Hb'). apply unpack_pack_double in Hb' as [Hl Hu].
  injection Hfin as Hfin.
  exists y, b. split; [exact Ey|]. split.
  - unfold write_float, isfinite. rewrite Ey.
    cbn [mbind result_mbind result_bind]. rewrite Hfin.
    cbn [negb]. rewrite Hfloat, Hb. reflexivity.
  - unfold read_float. rewrite Hfloat.
    rewrite (read_all_bytes (float_size Fmt_d) b Hl).
    cbn [mbind result_mbind result_bind]. rewrite Hu.
    unfold isfinite. cbn [py_float mbind result_mbind result_bind].
    rewrite Hfin. reflexivity.
Qed.

Lemma exact_int_finite (z : Z) :
  exact_int z = true ->
  exists y, float_of_Z z = Ok y /\ sf_eqb_Z (Prim2SF y) z = true /\
    isfinite (PInt z) = Ok true.
Proof.
  unfold exact_int, isfinite. cbn [py_float].
  destruct (float_of_Z z) as [y|]; [|discriminate]. intros H.
  exists y. repeat split; auto. cbn [mbind result_mbind result_bind].
  destruct (Prim2SF y); try discriminate; reflexivity.
Qed.

Lemma double_keeps_fpint (z : Z) : exact_int z = true -> keeps_fpint f z.
Proof.
  intros Hz. destruct (exact_int_finite z Hz) as (y & Hy & He & Hf).
  destruct (double_keeps_float (PInt z) Hf) as (y' & b & Hy' & Hw & Hr).
  cbn [py_float] in Hy'. rewrite Hy in Hy'. injection Hy' as <-.
  exists b. split; [exact Hw|]. unfold read_fpint. rewrite Hr.
  cbn [mbind result_mbind result_bind py_int].
  rewrite (sf_eqb_Z_trunc _ _ He). cbn [mbind result_mbind result_bind].
  cbn [num_eqb]. now rewrite He.
Qed.

Lemma double_keeps_uid (u : float) :
  uid_type f = FFloat Fmt_d -> keeps_uid f (PFloat u).
Proof.
  intros Hu. unfold keeps_uid, write_uid, read_uid. rewrite Hu.
  cbn [pack calcsize unpack].
  destruct (pack_float Fmt_d (PFloat u)) as [b|] eqn:Eb;
    [|discriminate Eb].
  exists b. split; [reflexivity|].
  apply unpack_pack_double in Eb as [Hl Hv].
  rewrite (read_all_bytes (float_size Fmt_d) b Hl).
  cbn [mbind result_mbind result_bind]. now rewrite Hv.
Qed.

Lemma write_float_finite (x : num) (out out' : list Byte.byte) :
  write_float f x out = Ok out' -> isfinite x = Ok true.
Proof.
  unfold write_float. destruct (isfinite x) as [[]|]; cbn; try discriminate.
  reflexivity.
Qed.

Lemma write_fpbuf_finite (xs : list num) (out out' : list Byte.byte) :
  write_fpbuf f xs out = Ok out' ->
  Forall (fun x => isfinite x = Ok true) xs.
Proof.
  revert out; induction xs as [|x xs IH]; intros out; cbn [write_fpbuf].
  - constructor.
  - destruct (write_float f x out) as [o1|] eqn:E; [|discriminate].
    cbn [mbind result_mbind result_bind]. intros H.
    constructor; [eapply write_float_finite, E|eapply IH, H].
Qed.

Lemma double_keeps_rsd (x : Rsd.RsdInitialDataRecord) (buf : list num) :
  rsd_exact x -> Rsd.to_floats x = Ok buf ->
  Forall (fun v => isfinite v = Ok true) buf ->
  keeps_logical f (LRsd x).
Proof.
  intros (Hk & Hn & Hl) Hbuf Hfin.
  destruct (rsd_roundtrip_gen x (as_float (PInt 34))
              (as_float (PInt (Z.of_nat (length (Rsd.trees x)))))
              (as_float (PInt 17)) Hk)
    as (p & ts & Hw & Hlp & Hlt & Hfl & Hrd).
  { now apply reads_as_float. }
  { now apply reads_as_float. }
  { now apply reads_as_float. }
  rewrite Hw in Hbuf. injection Hbuf as <-.
  apply Forall_app in Hfl as [Hfp Hft].
  exists 1, (PInt 34 :: p ++ PInt (Z.of_nat (length (Rsd.trees x)))
               :: PInt 17 :: ts).
  split; [reflexivity|]. split; [exact Hw|].
  split; [now apply double_keeps_fpint|]. split.
  - apply double_keeps_fpint.
    replace (Z.of_nat (length (PInt 34 :: p ++ PInt _ :: PInt 17 :: ts)))
      with (Z.of_nat (37 + 17 * length (Rsd.trees x))); [exact Hl|].
    f_equal. cbn [length]. rewrite length_app. cbn [length]. lia.
  - split.
    + eapply Forall_impl; [exact Hfin|]. intros v. apply double_keeps_float.
    + unfold from_floats. change (1 =? 1) with true. cbn match.
      cbn [map]. rewrite map_app. cbn [map].
      rewrite (as_float_floats p Hfp), (as_float_floats ts Hft).
      rewrite <- (app_nil_r ts). rewrite Hrd. reflexivity.
Qed.

Lemma written_rsd_kept (rs : list logical) :
  Forall (fun r => exists x, r = LRsd x /\ rsd_exact x) rs ->
  forall bufs out out',
    all_floats rs = Ok bufs ->
    write_logicals f rs bufs out = Ok out' ->
    Forall (keeps_logical f) rs.
Proof.
  induction 1 as [|r rs (x & -> & Hx) _ IH]; intros bufs out out' Ha Hw;
    [constructor|].
  cbn [all_floats to_floats] in Ha.
  destruct (Rsd.to_floats x) as [buf|] eqn:Eb; [|discriminate].
  cbn [mbind result_mbind result_bind] in Ha.
  destruct (all_floats rs) as [bufs'|] eqn:Ea; [|discriminate].
  cbn [mbind result_mbind result_bind] in Ha. injection Ha as <-.
  cbn [write_logicals get_record_type] in Hw.
  cbn [mbind result_mbind result_bind] in Hw.
  destruct (write_float f (PInt Rsd.record_type) out) as [o1|];
    [|discriminate].
  cbn [mbind result_mbind result_bind] in Hw.
  destruct (write_float f (PInt _) o1) as [o2|]; [|discriminate].
  cbn [mbind result_mbind result_bind] in Hw.
  destruct (write_fpbuf f buf o2) as [o3|] eqn:E3; [|discriminate].
  cbn [mbind result_mbind result_bind] in Hw.
  constructor.
  - eapply double_keeps_rsd; eauto using write_fpbuf_finite.
  - eapply IH; eauto.
Qed.

End Kept.

(** X24: doubles are kept: under a format that writes the uid and the
    floats as doubles (['d']), a physical record with a float uid whose
    logical records are RSD records that their schemas keep, with counts
    that are exact as floats, is read back as it is from what
    [write_physical_record] wrote for it; a record that was written holds
    finite floats only, and the 64 bits of a double give the double
    back. *)
Theorem double_format_roundtrip (f : MsbFormat) (rec : MsbPhysicalRecord)
    (u : float) (bs : list Byte.byte) :
  float_type f = Fmt_d -> uid_type f = FFloat Fmt_d ->
  uid rec = PFloat u ->
  Forall (fun r => exists x, r = LRsd x /\ rsd_exact x) (records rec) ->
  write_physical_record f rec [] = Ok bs ->
  read_physical_record f bs = Ok (Some rec, []).
Proof.
  intros Hf Hu Hrec Hrs Hw.
  destruct (write_physical_record_inv _ _ _ Hw)
    as (bufs & b1 & bu & b3 & b4 & Ea & E1 & Eu & E3 & E4 & Hbs).
  assert (Hk : keeps_physical f rec).
  { split.
    - rewrite Hrec. now apply double_keeps_uid.
    - eapply written_rsd_kept; eauto. }
  rewrite <- (app_nil_r bs).
  now apply read_physical_record_written.
Qed.

Lemma double_format_roundtrip_witness :
  exists bs,
    write_physical_record double_format (physical_of 0x1.999999999999ap-4) [] = Ok bs /\
    read_physical_record double_format bs = Ok (Some (physical_of 0x1.999999999999ap-4), []).
Proof.
  destruct (write_physical_record double_format (physical_of 0x1.999999999999ap-4) [])
    as [bs|] eqn:E; [|vm_compute in E; discriminate E].
  exists bs. split; [reflexivity|].
  apply (double_format_roundtrip double_format (physical_of 0x1.999999999999ap-4) 7 bs
           eq_refl eq_refl eq_refl); [|exact E].
  constructor; [|constructor]. exists (rsd1 0x1.999999999999ap-4). split; [reflexivity|].
  split; [|split; vm_compute; reflexivity].
  split.
  - split.
    + apply (bool_decide_unpack _). vm_compute. exact I.
    + apply Forall_fold_right. vm_compute. tauto.
  - constructor; [|constructor]. split.
    + apply (bool_decide_unpack _). vm_compute. exact I.
    + apply Forall_fold_right. vm_compute. tauto.
Defined.

End DoubleFormat.
